(** * PDP key management and the cluster adder: a shallow embedding

    The development follows [pdp-keys.c] (NIST AES key wrap, the password
    based key derivation, the key store) and [adder/adder.go] (the add
    pipeline that tags a file before committing it).

    Part I holds the definitions, translated function by function from the
    sources; Part II holds the statements proved about them; Part III adds
    further properties of the same functions, of the functions that look
    the stored keys up and generate them, and of the single DAG service
    ([adder/single/dag_service.go]). *)

From Stdlib Require Import ZArith String Ascii List Lia Bool.
From coqutil Require Import Byte.
Import ListNotations.
Local Open Scope Z_scope.

(* ===================================================================== *)
(** * Part I: definitions                                                 *)
(* ===================================================================== *)

(** ** C integers and buffers *)

(** Conversion to [unsigned int] and to [int] (32 bits, two's complement). *)
Definition to_uint (z : Z) : Z := z mod 2 ^ 32.
Definition to_int (z : Z) : Z := (z + 2 ^ 31) mod 2 ^ 32 - 2 ^ 31.

(** [memset(buf, c, n)] on a fresh buffer of [n] bytes. *)
Definition memset (c : byte) (n : nat) : list byte := repeat c n.

(** [memcpy(dst + off, src, n)]: the bytes of [dst] outside the copied
    window are kept. *)
Definition memcpy (dst : list byte) (off : nat) (src : list byte) (n : nat)
  : list byte :=
  firstn off dst ++ firstn n src ++ skipn (off + n) dst.

(** [memcmp(a, b, n)]: only the zero / non-zero outcome is used by the code. *)
Definition memcmp (a b : list byte) (n : nat) : Z :=
  if list_eq_dec Byte.byte_eq_dec (firstn n a) (firstn n b) then 0 else 1.

(** [buf[k] = buf[k] ^ t] for an [unsigned char] cell and an [unsigned int]
    operand: the result is truncated to eight bits by the store. *)
Definition xor_at (buf : list byte) (k : nat) (t : Z) : list byte :=
  firstn k buf
  ++ [byte.of_Z (Z.lxor (byte.unsigned (nth k buf Byte.x00)) t)]
  ++ skipn (S k) buf.

(** ** NIST AES key wrap *)

(** OpenSSL's [AES_KEY] schedule is represented by the user key bytes it is
    expanded from; [AES_set_encrypt_key] and [AES_set_decrypt_key] accept
    exactly 128, 192 and 256 bits (they return -2 otherwise). *)
Definition AES_KEY := list byte.

Definition AES_set_key (userKey : list byte) (bits : Z) : Z * AES_KEY :=
  if (bits =? 128) || (bits =? 192) || (bits =? 256)
  then (0, firstn (Z.to_nat (bits / 8)) userKey)
  else (-2, []).

Definition AES_set_encrypt_key := AES_set_key.
Definition AES_set_decrypt_key := AES_set_key.

(** The key lengths for which the block cipher is defined. *)
Definition aes_key_ok (k : AES_KEY) : Prop := In (length k) [16; 24; 32]%nat.

(** Shape of the loop state of the key wrap: eight bytes of integrity value
    and [nn] registers of eight bytes. *)
Definition wrap_state_ok (nn : nat) (st : list byte * list byte) : Prop :=
  length (fst st) = 8%nat /\ length (snd st) = (nn * 8)%nat.

Section KeyWrap.

(** The single-block cipher of the library: [AES_encrypt(in, out, key)]. *)
Variable AES_encrypt : list byte -> AES_KEY -> list byte.
Variable AES_decrypt : list byte -> AES_KEY -> list byte.

(** Body of the inner loop of [nist_key_wrap], for round [j] and
    register [i]; the state is [(A, r_array)]. *)
Definition wrap_step (aes_key : AES_KEY) (n : Z) (j i : nat)
           (st : list byte * list byte) : list byte * list byte :=
  let '(A, r_array) := st in
  let aes_input := memcpy (memset Byte.x00 16) 0 A 8 in
  let aes_input := memcpy aes_input 8 (skipn (i * 8) r_array) 8 in
  let aes_output := AES_encrypt aes_input aes_key in
  let A := memcpy A 0 aes_output 8 in
  let t := to_uint (n * Z.of_nat j + (Z.of_nat i + 1)) in
  let A := xor_at A 7 t in
  let r_array := memcpy r_array (i * 8) (skipn 8 aes_output) 8 in
  (A, r_array).

Definition wrap_rounds (aes_key : AES_KEY) (n : Z)
           (st : list byte * list byte) : list byte * list byte :=
  fold_left
    (fun st j =>
       fold_left (fun st i => wrap_step aes_key n j i st)
                 (seq 0 (Z.to_nat n)) st)
    (seq 0 6) st.

(** [nist_key_wrap(key, key_size, kek, kek_size)]; [None] is the NULL
    pointer, for the arguments as for the result.  Allocation is taken to
    succeed. *)
Definition nist_key_wrap (key : option (list byte)) (key_size : Z)
           (kek : option (list byte)) (kek_size : Z) : option (list byte) :=
  match key, kek with
  | Some key, Some kek =>
      let A := memset Byte.xa6 8 in
      let n := to_uint (key_size / 8) in
      let r_array := firstn (Z.to_nat (to_uint (n * 8))) key in
      let '(rc, aes_key) := AES_set_encrypt_key kek (to_int (kek_size * 8)) in
      if negb (rc =? 0) then None
      else
        let '(A, r_array) := wrap_rounds aes_key n (A, r_array) in
        Some (firstn 8 A ++ firstn (Z.to_nat (to_uint (8 * n))) r_array)
  | _, _ => None
  end.

(** Body of the inner loop of [nist_key_unwrap]. *)
Definition unwrap_step (aes_key : AES_KEY) (n : Z) (j i : nat)
           (st : list byte * list byte) : list byte * list byte :=
  let '(A, r_array) := st in
  let t := to_uint (n * Z.of_nat j + (Z.of_nat i + 1)) in
  let A := xor_at A 7 t in
  let aes_input := memcpy (memset Byte.x00 16) 0 A 8 in
  let aes_input := memcpy aes_input 8 (skipn (i * 8) r_array) 8 in
  let aes_output := AES_decrypt aes_input aes_key in
  let A := memcpy A 0 aes_output 8 in
  let r_array := memcpy r_array (i * 8) (skipn 8 aes_output) 8 in
  (A, r_array).

(** [for(j = 5; j >= 0; j--) for(i = (n-1); i >= 0; i--)] with [int i]:
    the inner loop counts down from [(int)(n - 1)]. *)
Definition unwrap_rounds (aes_key : AES_KEY) (n : Z)
           (st : list byte * list byte) : list byte * list byte :=
  fold_left
    (fun st j =>
       fold_left (fun st i => unwrap_step aes_key n j i st)
                 (rev (seq 0 (Z.to_nat (to_int (n - 1) + 1)))) st)
    (rev (seq 0 6)) st.

(** The state of [nist_key_unwrap] when the six rounds have run. *)
Definition unwrap_state (enckey : list byte) (enckey_size : Z)
           (aes_key : AES_KEY) : list byte * list byte :=
  let n := to_uint (enckey_size / 8 - 1) in
  let A := firstn 8 enckey in
  let r_array := firstn (Z.to_nat (to_uint (n * 8))) (skipn 8 enckey) in
  unwrap_rounds aes_key n (A, r_array).

Definition nist_key_unwrap (enckey : option (list byte)) (enckey_size : Z)
           (kek : option (list byte)) (kek_size : Z) : option (list byte) :=
  match enckey, kek with
  | Some enckey, Some kek =>
      let A_check := memset Byte.xa6 8 in
      let n := to_uint (enckey_size / 8 - 1) in
      let '(rc, aes_key) := AES_set_decrypt_key kek (to_int (kek_size * 8)) in
      if negb (rc =? 0) then None
      else
        let '(A, r_array) := unwrap_state enckey enckey_size aes_key in
        if negb (memcmp A A_check 8 =? 0) then None
        else Some (firstn (Z.to_nat (to_uint (8 * n))) r_array)
  | _, _ => None
  end.

End KeyWrap.

(** ** Password based key derivation *)

Definition SHA_DIGEST_LENGTH : Z := 20.

(** [for(k = 0; k < SHA_DIGEST_LENGTH; k++) T[k] ^= U[k]] on two buffers of
    [SHA_DIGEST_LENGTH] bytes. *)
Fixpoint xor_bytes (T U : list byte) : list byte :=
  match T, U with
  | x :: T', y :: U' => byte.xor x y :: xor_bytes T' U'
  | _, _ => T
  end.

(** The four bytes that [htonl(i)] leaves in memory: [i], most significant
    byte first. *)
Definition htonl_bytes (i : Z) : list byte :=
  [byte.of_Z (i / 2 ^ 24); byte.of_Z (i / 2 ^ 16); byte.of_Z (i / 2 ^ 8);
   byte.of_Z i].

Section KeyDerivation.

(** The pseudorandom function, [HMAC(EVP_sha1(), key, ..., data, ...)]; the
    length of its result is the [U_len] the library reports. *)
Variable HMAC : list byte -> list byte -> list byte.

(** The loop [for(j = 0; j < c; j++)] of [PBKDF2_F], [n] iterations from
    the state [(T, U)]; [None] when the library reports a digest length
    other than [SHA_DIGEST_LENGTH]. *)
Fixpoint PBKDF2_F_loop (password : list byte) (n : nat) (T U : list byte)
  : option (list byte * list byte) :=
  match n with
  | O => Some (T, U)
  | S n' =>
      let T := xor_bytes T U in
      let U := HMAC password U in
      if negb (Z.of_nat (length U) =? SHA_DIGEST_LENGTH) then None
      else PBKDF2_F_loop password n' T U
  end.

(** [PBKDF2_F(T, password, password_len, salt, salt_len, c, i)]: [Some T']
    holds the buffer [T] after a call that returned 1, [None] is the
    return value 0.  [c] and [i] are [int]. *)
Definition PBKDF2_F (T password salt : list byte) (c i : Z)
  : option (list byte) :=
  if (length password =? 0)%nat || (length salt =? 0)%nat || (c =? 0)
  then None
  else
    let swapped_i := htonl_bytes (to_uint i) in
    let U1 := salt ++ swapped_i in
    let U := HMAC password U1 in
    if negb (Z.of_nat (length U) =? SHA_DIGEST_LENGTH) then None
    else
      match PBKDF2_F_loop password (Z.to_nat c) T U with
      | None => None
      | Some (T, U) => Some (xor_bytes T U)
      end.

(** The loop [for(i = 0; i < l; i++)] of [PBKDF2] over the block indices
    [idx]; the state is [(T, dk, remaining_bytes)]. *)
Fixpoint PBKDF2_loop (password salt : list byte) (c : Z) (idx : list nat)
         (T dk : list byte) (remaining_bytes : Z) : option (list byte) :=
  match idx with
  | [] => Some dk
  | i :: idx' =>
      match PBKDF2_F T password salt (to_int c) (Z.of_nat i) with
      | None => None
      | Some T =>
          let off := (i * Z.to_nat SHA_DIGEST_LENGTH)%nat in
          if SHA_DIGEST_LENGTH <=? remaining_bytes
          then PBKDF2_loop password salt c idx' T
                 (memcpy dk off T (Z.to_nat SHA_DIGEST_LENGTH))
                 (remaining_bytes - SHA_DIGEST_LENGTH)
          else PBKDF2_loop password salt c idx' T
                 (memcpy dk off T (Z.to_nat remaining_bytes))
                 (remaining_bytes - remaining_bytes)
      end
  end.

(** [PBKDF2(password, password_len, salt, salt_len, c, dkey_len)], with
    [password_len] and [salt_len] the lengths of the buffers; [None] is
    the NULL result. *)
Definition PBKDF2 (password salt : list byte) (c : Z) (dkey_len : Z)
  : option (list byte) :=
  if (length password =? 0)%nat || (length salt =? 0)%nat
     || (c =? 0) || (dkey_len =? 0)
  then None
  else
    let dk := memset Byte.x00 (Z.to_nat dkey_len) in
    let T := memset Byte.x00 (Z.to_nat SHA_DIGEST_LENGTH) in
    let l := to_uint (dkey_len / SHA_DIGEST_LENGTH) in
    let l := if negb (dkey_len mod SHA_DIGEST_LENGTH =? 0)
             then to_uint (l + 1) else l in
    PBKDF2_loop password salt c (seq 0 (Z.to_nat l)) T dk dkey_len.

(** *** The construction of PKCS #5 (RFC 2898, section 5.2)

    Written from the standard, to compare [PBKDF2] with:
    [DK = T_1 || ... || T_l] cut to [dkLen] bytes, where
    [T_i = U_1 xor ... xor U_c], [U_1 = PRF(P, S || INT(i))] and
    [U_j = PRF(P, U_{j-1})]. *)
Fixpoint rfc2898_U_xor (password : list byte) (n : nat) (acc U : list byte)
  : list byte :=
  match n with
  | O => acc
  | S n' =>
      let U' := HMAC password U in
      rfc2898_U_xor password n' (xor_bytes acc U') U'
  end.

Definition rfc2898_F (password salt : list byte) (c : nat) (i : Z)
  : list byte :=
  let U1 := HMAC password (salt ++ htonl_bytes i) in
  rfc2898_U_xor password (c - 1) U1 U1.

Definition rfc2898_PBKDF2 (password salt : list byte) (c : nat)
           (dkLen : nat) : list byte :=
  let l := ((dkLen + 19) / 20)%nat in
  firstn dkLen
    (flat_map (fun i => rfc2898_F password salt c (Z.of_nat i)) (seq 1 l)).

End KeyDerivation.

(** Blocks that are XORed each onto the one before: from the block values
    [F i] and the buffer [T], the blocks [T xor F i1], [T xor F i1 xor F i2],
    ... for the indices [i1, i2, ...] in turn.  This is how the loop of
    [PBKDF2] leaves its buffer [T] to the next call of [PBKDF2_F]. *)
Fixpoint chained_blocks (F : nat -> list byte) (T : list byte)
         (idx : list nat) : list byte :=
  match idx with
  | [] => []
  | i :: idx' =>
      let T' := xor_bytes T (F i) in
      T' ++ chained_blocks F T' idx'
  end.

(** The bytes of a C string. *)
Definition bytes_of_string (s : string) : list byte := list_byte_of_string s.

(** ** The key store *)

(** The components of OpenSSL's [RSA] structure. *)
Record RSA := {
  rsa_n : Z; rsa_e : Z; rsa_d : Z; rsa_p : Z; rsa_q : Z;
  rsa_dmp1 : Z; rsa_dmq1 : Z; rsa_iqmp : Z
}.

Inductive EVP_PKEY := PKEY_RSA (r : RSA) | PKEY_other.

Definition EVP_PKEY_get1_RSA (pkey : EVP_PKEY) : option RSA :=
  match pkey with PKEY_RSA r => Some r | PKEY_other => None end.

(** [PDP_key]: the fields [rsa], [v] and [g]; a [BIGNUM] is a natural
    number. *)
Record PDP_key := { pdp_rsa : RSA; pdp_v : list byte; pdp_g : N }.

(** What the sources take from outside: the two sizes of [pdp.h], which is
    not among the sources, and the functions of OpenSSL.  The PEM readers
    return the object read and the rest of the stream; [None] is the NULL
    (or zero) result of a failed call. *)
Record platform := {
  PRF_KEY_SIZE : nat;
  PRP_KEY_SIZE : nat;
  HMAC : list byte -> list byte -> list byte;
  AES_encrypt : list byte -> AES_KEY -> list byte;
  AES_decrypt : list byte -> AES_KEY -> list byte;
  PEM_write_PKCS8PrivateKey : EVP_PKEY -> list byte -> option (list byte);
  PEM_read_PrivateKey : list byte -> list byte -> option (EVP_PKEY * list byte);
  PEM_write_RSAPublicKey : RSA -> option (list byte);
  PEM_read_RSAPublicKey : list byte -> option (RSA * list byte);
  RSA_check_key : RSA -> bool
}.

(** Calls that the environment can make fail: allocations, reads, writes,
    the opening of the key files and the lookup of the user.
    [Getpwuid_write] is the call of [getpwuid] inside [write_pdp_keypair],
    which comes after the one of its caller [pdp_create_new_keypair]. *)
Inductive fault :=
| Alloc_key | Alloc_buffers | Alloc_gen | BN_failure
| Read_salt | Read_enc_v
| Getpwuid | Getpwuid_write | Open_pri | Open_pub | Write_salt | Write_enc_v.

(** *** Strings, streams and big numbers *)

(** [buf[k] = b]. *)
Definition store (buf : list byte) (k : nat) (b : byte) : list byte :=
  firstn k buf ++ [b] ++ skipn (S k) buf.

(** The C string held by a buffer: the bytes before the first NUL. *)
Fixpoint c_string (buf : list byte) : list byte :=
  match buf with
  | [] => []
  | b :: r => if Byte.eqb b Byte.x00 then [] else b :: c_string r
  end.

(** [strcpy(dst, src)] for a C string [src].  The copy has no bound: when
    the string and its NUL do not fit in [dst] it writes past the end of
    [dst], and the result is [None]. *)
Definition strcpy (dst src : list byte) : option (list byte) :=
  if (length src <? length dst)%nat
  then Some (memcpy dst 0 (src ++ [Byte.x00]) (length src + 1))
  else None.

(** A stream opened for reading is the list of the bytes still to be read.
    [fread(buf, size, 1, f)] takes up to [size] of them. *)
Definition FILE := list byte.

Definition fread (buf : list byte) (size : nat) (f : FILE) : list byte * FILE :=
  let got := firstn size f in
  (memcpy buf 0 got (length got), skipn size f).

(** [BN_num_bytes], [BN_bn2bin] (most significant byte first) and
    [BN_bin2bn]. *)
Definition BN_num_bytes (a : N) : nat := (N.to_nat (N.size a) + 7) / 8.

Fixpoint be_encode (n : nat) (z : Z) : list byte :=
  match n with
  | O => []
  | S n' => be_encode n' (z / 256) ++ [byte.of_Z z]
  end.

Definition BN_bn2bin (a : N) : list byte :=
  be_encode (BN_num_bytes a) (Z.of_N a).

Definition BN_bin2bn (s : list byte) : N :=
  Z.to_N (fold_left (fun acc b => acc * 256 + byte.unsigned b) s 0).

(** A [size_t] in memory: eight bytes, least significant first (LP64,
    little endian). *)
Fixpoint le_encode (n : nat) (z : Z) : list byte :=
  match n with
  | O => []
  | S n' => byte.of_Z z :: le_encode n' (z / 256)
  end.

Definition le_decode (s : list byte) : Z :=
  fold_right (fun b acc => byte.unsigned b + 256 * acc) 0 s.

(** *** Reading a passphrase from the terminal *)

(** What one [read(termfd, &ch, 1)] returns: a character, or an error; the
    end of the list is the end of the input ([read] returns 0). *)
Inductive tty_event := Key (ch : byte) | ReadError.

(** The loop [for(;;)] of [read_password], with the counter [ctr]. *)
Fixpoint read_password_loop (input : list tty_event) (password : list byte)
         (ctr bufsize : nat) : bool * list byte * list tty_event :=
  if (bufsize <=? ctr)%nat then (false, password, input)
  else
    match input with
    | [] => (true, store password ctr Byte.x00, [])
    | ReadError :: rest => (false, password, rest)
    | Key ch :: rest =>
        if Byte.eqb ch Byte.x0a
        then (true, store password ctr Byte.x00, rest)
        else read_password_loop rest (store password ctr ch) (S ctr) bufsize
    end.

(** [read_password(prompt, buf, bufsize)] for a caller's buffer [buf].  The
    terminal is [None] when it cannot be opened.  The result tells whether
    the call returned the buffer (or NULL), and gives the buffer and the
    terminal afterwards. *)
Definition read_password (term : option (list tty_event)) (buf : list byte)
           (bufsize : nat) : bool * list byte * option (list tty_event) :=
  match term with
  | None => (false, buf, None)
  | Some input =>
      let '(ok, buf, rest) := read_password_loop input buf 0 bufsize in
      (ok, buf, Some rest)
  end.

(** The characters typed at the terminal for a line of input. *)
Definition typed (line : list byte) : list tty_event :=
  map Key (line ++ [Byte.x0a]).

(** A passphrase that can be typed on one line into the buffer of 1024
    bytes: no NUL, no newline, at most 1023 characters. *)
Definition passphrase_ok (P : list byte) : Prop :=
  ~ In Byte.x00 P /\ ~ In Byte.x0a P /\ (length P < 1024)%nat.

(** *** Releasing memory *)

(** Modelled from the spec: [sfree(ptr, size)] of [pdp-misc.c], which is not
    among the sources.  The spec describes an explicit zero-and-free
    discipline: the first [size] bytes are set to zero, then the buffer is
    freed.  The value is the content of the buffer when it is freed. *)
Definition sfree (buf : list byte) (size : nat) : list byte :=
  memcpy buf 0 (memset Byte.x00 size) size.

(** [if(p) sfree(p, size)]: the released buffer, under its name in the
    source, with its content at the release. *)
Definition release (name : string) (p : option (list byte)) (size : nat)
  : list (string * list byte) :=
  match p with
  | Some buf => [(name, sfree buf size)]
  | None => []
  end.

(** *** Loading the key pair *)

(** The outcome of a load: the returned key (or NULL), the stack buffer
    [password] as the function leaves it ([None] when it was never
    written), the secret-bearing heap buffers released on the way out, and
    what was printed.  [l_overrun] is set when the call has written past
    the end of [password]: its behaviour is undefined from there on, and
    the record shows the state at the overrun, with no key returned. *)
Record load_result := {
  l_key : option PDP_key;
  l_password : option (list byte);
  l_freed : list (string * list byte);
  l_stdout : list (list byte);
  l_stderr : list string;
  l_overrun : bool
}.

(** The outcome of [write_pdp_keypair]: the return value, the two key files
    and the released derived key.  [s_crashed] is set when the call has
    dereferenced a NULL pointer instead of returning: the process stops
    there, and [s_rc] says nothing. *)
Record store_result := {
  s_rc : Z;
  s_pri : option (list byte);
  s_pub : option (list byte);
  s_freed : list (string * list byte);
  s_crashed : bool
}.

(** The outcome of [pdp_create_new_keypair]: the returned key, the two
    stack buffers as the function leaves them, and the outcome of
    [write_pdp_keypair] when it was called.  [c_crashed] is set when the
    process stopped inside [write_pdp_keypair]: the function has not
    returned, and the buffers are as they were at that moment. *)
Record create_result := {
  c_key : option PDP_key;
  c_password1 : list byte;
  c_password2 : list byte;
  c_store : option store_result;
  c_crashed : bool
}.

(** A buffer that holds zeros only; the secrets of a load, of a store and
    of a key creation are zeroed when the passphrase buffers are left zeroed
    and every released derived key [dk] was zeroed at its release. *)
Definition zeroed (buf : list byte) : Prop :=
  forall b, In b buf -> b = Byte.x00.

Definition load_zeroed (r : load_result) : Prop :=
  (forall p, l_password r = Some p -> zeroed p) /\
  (forall c, In ("dk"%string, c) (l_freed r) -> zeroed c).

Definition store_zeroed (st : store_result) : Prop :=
  forall c, In ("dk"%string, c) (s_freed st) -> zeroed c.

Definition create_zeroed (r : create_result) : Prop :=
  zeroed (c_password1 r) /\ zeroed (c_password2 r) /\
  (forall st, c_store r = Some st -> store_zeroed st).

(** The contract of the library that the key store relies on: a cipher key
    size that the cipher accepts, a secret that fits the 32 bytes that are
    wrapped, the block cipher contract, and PEM readers that give back what
    the PEM writers wrote, leaving the rest of the stream. *)
Record platform_ok (L : platform) : Prop := {
  ok_PRP : In (PRP_KEY_SIZE L) [16; 24; 32]%nat;
  ok_PRF : (PRF_KEY_SIZE L <= 32)%nat;
  ok_AES_length :
    forall x k, aes_key_ok k -> length (AES_encrypt L x k) = 16%nat;
  ok_AES_inverse :
    forall x k, aes_key_ok k -> length x = 16%nat ->
                AES_decrypt L (AES_encrypt L x k) k = x;
  ok_PEM_private :
    forall pkey P pem rest,
      PEM_write_PKCS8PrivateKey L pkey P = Some pem ->
      PEM_read_PrivateKey L (pem ++ rest) P = Some (pkey, rest);
  ok_PEM_public :
    forall rsa pem rest,
      PEM_write_RSAPublicKey L rsa = Some pem ->
      exists rsa', PEM_read_RSAPublicKey L (pem ++ rest) = Some (rsa', rest)
}.

(** What [generate_pdp_key] establishes for the key it returns: the RSA key
    passes [RSA_check_key], [v] holds [PRF_KEY_SIZE] bytes, and the byte
    count of the generator fits a [size_t]. *)
Definition generated_key (L : platform) (K : PDP_key) : Prop :=
  RSA_check_key L (pdp_rsa K) = true /\
  length (pdp_v K) = PRF_KEY_SIZE L /\
  Z.of_nat (BN_num_bytes (pdp_g K)) < 2 ^ 64.

Section KeyStore.

Variable L : platform.
Variable failing : fault -> bool.

(** The label [cleanup] of [read_pdp_keypair]: [dk], [key_v] and [key->v]
    as they are when it is reached. *)
Definition load_cleanup (dk key_v : option (list byte)) (v : list byte)
           (out : list (list byte)) (err : list string) : load_result :=
  {| l_key := None;
     l_password := Some (memset Byte.x00 1024);
     l_freed := release "key->v" (Some v) (PRF_KEY_SIZE L)
                ++ release "dk" dk (PRP_KEY_SIZE L)
                ++ release "key_v" key_v (PRF_KEY_SIZE L);
     l_stdout := out;
     l_stderr := err;
     l_overrun := false |}.

(** [read_pdp_keypair] and [read_pdp_keypair_temp] from the call of
    [PEM_read_PrivateKey] on, where the two functions have the same text.
    [password] is the stack buffer holding the passphrase. *)
Definition load_with_password (pri_key pub_key : FILE) (password : list byte)
           (out : list (list byte)) : load_result :=
  let v := memset Byte.x00 (PRF_KEY_SIZE L) in
  let salt := memset Byte.x00 (PRF_KEY_SIZE L) in
  let enc_v := memset Byte.x00 40 in
  match PEM_read_PrivateKey L pri_key (c_string password) with
  | None => load_cleanup None None v out ["ERROR: Failed to decrypt key."%string]
  | Some (pkey, pri_key) =>
  match EVP_PKEY_get1_RSA pkey with
  | None => load_cleanup None None v out []
  | Some rsa =>
  if negb (RSA_check_key L rsa) then load_cleanup None None v out [] else
  let '(salt, pri_key) := fread salt (PRF_KEY_SIZE L) pri_key in
  if failing Read_salt then load_cleanup None None v out [] else
  let '(enc_v, pri_key) := fread enc_v 40 pri_key in
  if failing Read_enc_v then load_cleanup None None v out [] else
  match PBKDF2 (HMAC L) (c_string password) salt 10000
               (Z.of_nat (PRP_KEY_SIZE L)) with
  | None => load_cleanup None None v out []
  | Some dk =>
  let password := memset Byte.x00 1024 in
  match nist_key_unwrap (AES_decrypt L) (Some enc_v) 40 (Some dk)
                        (Z.of_nat (PRP_KEY_SIZE L)) with
  | None => load_cleanup (Some dk) None v out []
  | Some key_v =>
  let v := memcpy v 0 key_v (PRF_KEY_SIZE L) in
  match PEM_read_RSAPublicKey L pub_key with
  | None => load_cleanup (Some dk) (Some key_v) v out []
  | Some (_, pub_key) =>
  let '(gen_size, pub_key) := fread (memset Byte.x00 8) 8 pub_key in
  let gen_size := Z.to_nat (le_decode gen_size) in
  if failing Alloc_gen then load_cleanup (Some dk) (Some key_v) v out [] else
  let '(gen, pub_key) := fread (memset Byte.x00 gen_size) gen_size pub_key in
  if failing BN_failure then load_cleanup (Some dk) (Some key_v) v out [] else
  {| l_key := Some {| pdp_rsa := rsa; pdp_v := v; pdp_g := BN_bin2bn gen |};
     l_password := Some password;
     l_freed := release "dk" (Some dk) (PRP_KEY_SIZE L)
                ++ release "key_v" (Some key_v) (PRF_KEY_SIZE L);
     l_stdout := out;
     l_stderr := [];
     l_overrun := false |}
  end end end end end.

(** The two early exits that the loading functions share: a NULL stream or
    a failed [malloc] of the key return at once, before [password] is
    written; a failed allocation after that goes to [cleanup]. *)
Definition load_prologue (pri_key pub_key : option FILE)
           (body : FILE -> FILE -> load_result) : load_result :=
  match pri_key, pub_key with
  | Some pri_key, Some pub_key =>
      if failing Alloc_key
      then {| l_key := None; l_password := None; l_freed := [];
              l_stdout := []; l_stderr := []; l_overrun := false |}
      else if failing Alloc_buffers
      then {| l_key := None; l_password := Some (memset Byte.x00 1024);
              l_freed := []; l_stdout := []; l_stderr := [];
              l_overrun := false |}
      else body pri_key pub_key
  | _, _ => {| l_key := None; l_password := None; l_freed := [];
               l_stdout := []; l_stderr := []; l_overrun := false |}
  end.

(** [read_pdp_keypair(pri_key, pub_key)]: the passphrase is read from the
    terminal [term]. *)
Definition read_pdp_keypair (term : option (list tty_event))
           (pri_key pub_key : option FILE) : load_result :=
  load_prologue pri_key pub_key (fun pri_key pub_key =>
    let password := memset Byte.x00 1024 in
    let '(ok, password, _) := read_password term password 1024 in
    if negb ok
    then load_cleanup None None (memset Byte.x00 (PRF_KEY_SIZE L)) [] []
    else load_with_password pri_key pub_key password []).

(** [read_pdp_keypair_temp(pri_key, pub_key, password_in)]: the passphrase
    is the C string [password_in] (not NULL), copied and printed.  The copy
    is a [strcpy] into the buffer of 1024 bytes: a passphrase of 1024
    characters or more overruns it, and [l_password] is then the buffer as
    the copy has filled it. *)
Definition read_pdp_keypair_temp (pri_key pub_key : option FILE)
           (password_in : list byte) : load_result :=
  load_prologue pri_key pub_key (fun pri_key pub_key =>
    let password := memset Byte.x00 1024 in
    match strcpy password (c_string password_in) with
    | None =>
        {| l_key := None;
           l_password := Some (firstn 1024 (c_string password_in));
           l_freed := []; l_stdout := []; l_stderr := [];
           l_overrun := true |}
    | Some password =>
        let out := [bytes_of_string "Password in read pdp keypair:"
                    ++ c_string password ++ [Byte.x0a]] in
        load_with_password pri_key pub_key password out
    end).

(** *** Persisting the key pair *)

(** [write_pdp_keypair(key, password, keypath)] for a key and a passphrase
    that are not NULL.  [rand] is what [RAND_bytes] delivers for the salt
    ([None] when it fails).  The result holds the return value and the two
    key files as the calls of [fwrite] leave them ([None]: not opened); the
    messages printed and the [unlink] calls of the label [cleanup] are left
    out.  When [getpwuid] fails the function jumps to [cleanup] with [pw]
    NULL, and [cleanup] reads [pw->pw_dir]: the call does not return. *)
Definition write_pdp_keypair (rand : option (list byte)) (key : PDP_key)
           (password : list byte) : store_result :=
  let fail pri pub dk :=
    {| s_rc := 0; s_pri := pri; s_pub := pub;
       s_freed := release "dk" dk (PRP_KEY_SIZE L);
       s_crashed := false |} in
  if failing Getpwuid_write
  then {| s_rc := 0; s_pri := None; s_pub := None; s_freed := [];
          s_crashed := true |}
  else
  if failing Alloc_buffers then fail None None None else
  let salt := memset Byte.x00 (PRF_KEY_SIZE L) in
  let key_v := memset Byte.x00 32 in
  if failing Open_pri then fail None None None else
  if failing Open_pub then fail (Some []) None None else
  match PEM_write_PKCS8PrivateKey L (PKEY_RSA (pdp_rsa key))
                                  (c_string password) with
  | None => fail (Some []) (Some []) None
  | Some pem =>
  let pri := pem in
  match rand with
  | None => fail (Some pri) (Some []) None
  | Some bytes =>
  let salt := fst (fread salt (PRF_KEY_SIZE L) bytes) in
  match PBKDF2 (HMAC L) (c_string password) salt 10000
               (Z.of_nat (PRP_KEY_SIZE L)) with
  | None => fail (Some pri) (Some []) None
  | Some dk =>
  let key_v := memcpy key_v 0 (pdp_v key) (PRF_KEY_SIZE L) in
  match nist_key_wrap (AES_encrypt L) (Some key_v) 32 (Some dk)
                      (Z.of_nat (PRP_KEY_SIZE L)) with
  | None => fail (Some pri) (Some []) (Some dk)
  | Some enc_v =>
  let pri := pri ++ firstn (PRF_KEY_SIZE L) salt in
  if failing Write_salt then fail (Some pri) (Some []) (Some dk) else
  let pri := pri ++ firstn 40 enc_v in
  if failing Write_enc_v then fail (Some pri) (Some []) (Some dk) else
  match PEM_write_RSAPublicKey L (pdp_rsa key) with
  | None => fail (Some pri) (Some []) (Some dk)
  | Some pem =>
  let pub := pem in
  let gen_size := BN_num_bytes (pdp_g key) in
  let pub := pub ++ le_encode 8 (Z.of_nat gen_size) in
  if failing Alloc_gen then fail (Some pri) (Some pub) (Some dk) else
  let gen := BN_bn2bin (pdp_g key) in
  if (length gen =? 0)%nat then fail (Some pri) (Some pub) (Some dk) else
  let pub := pub ++ gen in
  {| s_rc := 1; s_pri := Some pri; s_pub := Some pub;
     s_freed := release "dk" (Some dk) (PRP_KEY_SIZE L);
     s_crashed := false |}
  end end end end end.

(** *** Creating a key pair *)

(** The loop [do ... while(!got_password)] of [pdp_create_new_keypair].
    [Some (ok, password1, password2)]: the loop was left with both
    passphrases read and equal ([ok]), or by [goto cleanup] after a failed
    read; [None]: [fuel] iterations did not suffice. *)
Fixpoint passphrase_loop (fuel : nat) (term : option (list tty_event))
         (password1 password2 : list byte)
  : option (bool * list byte * list byte) :=
  match fuel with
  | O => None
  | S fuel' =>
      let '(ok, password1, term) := read_password term password1 1024 in
      if negb ok then Some (false, password1, password2) else
      let '(ok, password2, term) := read_password term password2 1024 in
      if negb ok then Some (false, password1, password2) else
      if list_eq_dec Byte.byte_eq_dec (c_string password1) (c_string password2)
      then Some (true, password1, password2)
      else passphrase_loop fuel' term (memset Byte.x00 1024)
                           (memset Byte.x00 1024)
  end.

(** Every iteration that repeats the loop has read at least one character:
    one more iteration than there are characters is enough. *)
Definition passphrase_fuel (term : option (list tty_event)) : nat :=
  match term with
  | None => 1
  | Some input => S (length input)
  end.

(** [pdp_create_new_keypair()].  [keys_exist] tells whether both key files
    are there, [answer] is the character read by [scanf], [generated] is
    the result of [generate_pdp_key()] and [rand] the salt, as for
    [write_pdp_keypair].  [None] stands for a passphrase loop that has not
    ended.  When [write_pdp_keypair] does not return, the process stops
    with [password1] still holding the passphrase. *)
Definition pdp_create_new_keypair (term : option (list tty_event))
           (keys_exist : bool) (answer : byte)
           (generated : option PDP_key) (rand : option (list byte))
  : option create_result :=
  let password1 := memset Byte.x00 1024 in
  let password2 := memset Byte.x00 1024 in
  let cleanup :=
    {| c_key := None;
       c_password1 := memset Byte.x00 1024;
       c_password2 := memset Byte.x00 1024;
       c_store := None;
       c_crashed := false |} in
  if failing Getpwuid then Some cleanup else
  if keys_exist && negb (Byte.eqb answer Byte.x79) then Some cleanup else
  match passphrase_loop (passphrase_fuel term) term password1 password2 with
  | None => None
  | Some (false, _, _) => Some cleanup
  | Some (true, password1, password2) =>
      let password2 := memset Byte.x00 1024 in
      match generated with
      | None => Some cleanup
      | Some key =>
          let st := write_pdp_keypair rand key password1 in
          if s_crashed st
          then Some {| c_key := None;
                       c_password1 := password1;
                       c_password2 := password2;
                       c_store := Some st;
                       c_crashed := true |}
          else
          if s_rc st =? 0
          then Some {| c_key := None;
                       c_password1 := memset Byte.x00 1024;
                       c_password2 := memset Byte.x00 1024;
                       c_store := Some st;
                       c_crashed := false |}
          else
            let password1 := memset Byte.x00 1024 in
            Some {| c_key := Some key;
                    c_password1 := password1;
                    c_password2 := password2;
                    c_store := Some st;
                    c_crashed := false |}
      end
  end.

(** The key [K] was persisted under the passphrase [P]: the call returned 1
    and left the two key files [pri] and [pub]. *)
Definition persisted (rand : option (list byte)) (K : PDP_key)
           (P : list byte) (pri pub : list byte) : Prop :=
  let st := write_pdp_keypair rand K P in
  s_rc st = 1 /\ s_pri st = Some pri /\ s_pub st = Some pub.

End KeyStore.

(** ** Access to the stored keys *)

(** [MAXPATHLEN] of [sys/param.h]: 1024 on the BSDs and 4096 on Linux.
    The smaller value is taken, so that a path that fits here fits on
    both. *)
Definition MAXPATHLEN : nat := 1024.

(** The paths that [write_pdp_keypair] opens for writing, private key
    first: below [keypath], or below [.pdp] in the working directory when
    [keypath] is NULL.  The names are built with [strcpy] and [strcat] in
    buffers of [MAXPATHLEN] bytes, which [keypath] is taken to fit. *)
Definition write_paths (keypath : option (list byte)) : list byte * list byte :=
  match keypath with
  | None => (bytes_of_string ".pdp/pdp.pri", bytes_of_string ".pdp/pdp.pub")
  | Some keypath =>
      (c_string keypath ++ bytes_of_string "/pdp.pri",
       c_string keypath ++ bytes_of_string "/pdp.pub")
  end.

(** The outcome of [pdp_get_keypair_temp]: the returned key (or NULL), what
    was printed, and the outcome of [read_pdp_keypair_temp] when it was
    called. *)
Record get_result := {
  g_key : option PDP_key;
  g_stdout : list (list byte);
  g_stderr : list string;
  g_load : option load_result
}.

Section KeyAccess.

Variable L : platform.
Variable failing : fault -> bool.

(** [pdp_get_keypair_temp(keypath, password)].  [fopen] gives the stream of
    the file at a path that can be opened for reading; [keypath] is taken
    to fit the buffers of [MAXPATHLEN] bytes.  When the loader has overrun
    its passphrase buffer ([l_overrun], in [g_load]) the behaviour is
    undefined from there on. *)
Definition pdp_get_keypair_temp (fopen : list byte -> option FILE)
           (keypath password : list byte) : get_result :=
  let pdppubkey := c_string keypath ++ bytes_of_string "/pdp.pub" in
  let pdpprikey := c_string keypath ++ bytes_of_string "/pdp.pri" in
  let cleanup out err load :=
    {| g_key := None; g_stdout := out;
       g_stderr := err ++ ["ERROR: Unable to access your PDP keys."%string];
       g_load := load |} in
  if failing Getpwuid then cleanup [] [] None else
  let pri_key := fopen pdpprikey in
  let pub_key := fopen pdppubkey in
  let out := [bytes_of_string "pdp private key:" ++ pdpprikey ++ [Byte.x0a];
              bytes_of_string "pdp public key:" ++ pdppubkey ++ [Byte.x0a];
              [Byte.x0a]] in
  match pri_key, pub_key with
  | Some _, Some _ =>
      let r := read_pdp_keypair_temp L failing pri_key pub_key password in
      match l_key r with
      | None => cleanup (out ++ l_stdout r) (l_stderr r) (Some r)
      | Some key =>
          {| g_key := Some key; g_stdout := out ++ l_stdout r;
             g_stderr := l_stderr r; g_load := Some r |}
      end
  | None, None =>
      {| g_key := None; g_stdout := out;
         g_stderr := ["ERROR: PDP keys do not exist."%string];
         g_load := None |}
  | Some _, None => cleanup out ["ERROR: PDP public key is missing."%string] None
  | None, Some _ => cleanup out ["ERROR: PDP private key is missing."%string] None
  end.

(** [pdp_get_pubkey()] on the stream [pub_key] of the public key file
    ([None] when it cannot be opened): the key with its public components,
    and what was printed on the error stream.  The field [v] of the
    returned key is NULL, shown as the empty buffer. *)
Definition pdp_get_pubkey (pub_key : option FILE)
  : option PDP_key * list string :=
  let cleanup :=
    (@None PDP_key, ["ERROR: Unable to access your PDP public key."%string]) in
  if failing Getpwuid then (None, []) else
  match pub_key with
  | None => (None, [])
  | Some pub_key =>
  if failing Alloc_key then (None, []) else
  if failing Alloc_buffers then cleanup else
  match PEM_read_RSAPublicKey L pub_key with
  | None => cleanup
  | Some (rsa, pub_key) =>
  let '(gen_size, pub_key) := fread (memset Byte.x00 8) 8 pub_key in
  let gen_size := Z.to_nat (le_decode gen_size) in
  if failing Alloc_gen then cleanup else
  let '(gen, pub_key) := fread (memset Byte.x00 gen_size) gen_size pub_key in
  if failing BN_failure then cleanup else
  (Some {| pdp_rsa := rsa; pdp_v := []; pdp_g := BN_bin2bn gen |}, [])
  end end.

End KeyAccess.

(** ** Generating a key pair *)

(** The arithmetic of OpenSSL's [BIGNUM] that [generate_pdp_key] uses.
    [BN_mod_inverse(r, a, n)] gives the inverse of [a] modulo [n] in
    [0, n), and NULL when there is none; [BN_mod(rem, a, m)] gives the
    remainder of the truncated division, and fails for [m = 0]. *)
Definition BN_mod_inverse (a n : Z) : option Z :=
  if (n =? 0) || negb (Z.gcd a n =? 1) then None else Some (Z.invmod a n).

Definition BN_mod (a m : Z) : option Z :=
  if m =? 0 then None else Some (Z.rem a m).

(** What [generate_pdp_key] takes from outside: whether [USE_SAFE_PRIMES]
    is defined, the two constants of [pdp.h], OpenSSL's generators
    ([BN_generate_prime k bits] is the [k]-th prime asked for), its
    primality test, which returns 1, 0 or -1, and [pick_pdp_generator] of
    [pdp-core.c].  [None] is a failed call. *)
Record keygen := {
  USE_SAFE_PRIMES : bool;
  RSA_KEY_SIZE : Z;
  RSA_E : Z;
  BN_generate_prime : nat -> Z -> option positive;
  BN_is_prime : Z -> Z;
  RSA_generate_key : Z -> Z -> option RSA;
  RAND_bytes : nat -> option (list byte);
  pick_pdp_generator : Z -> option N
}.

Section KeyGeneration.

Variable L : platform.
Variable failing : fault -> bool.
Variable G : keygen.

(** The branch [#ifdef USE_SAFE_PRIMES]: the RSA key built from two safe
    primes.  [BN_failure] stands for a failed allocation inside one of the
    [BIGNUM] operations or in [RSA_new]. *)
Definition safe_prime_rsa : option RSA :=
  match BN_generate_prime G 0 (Z.quot (RSA_KEY_SIZE G) 2) with
  | None => None
  | Some p =>
  let p := Z.pos p in
  if BN_is_prime G p =? 0 then None else
  match BN_generate_prime G 1 (Z.quot (RSA_KEY_SIZE G) 2) with
  | None => None
  | Some q =>
  let q := Z.pos q in
  if BN_is_prime G q =? 0 then None else
  if p =? q then None else
  if failing BN_failure then None else
  let n := p * q in
  let e := RSA_E G in
  let r1 := p - 1 in
  let r2 := q - 1 in
  let phi := r1 * r2 in
  match BN_mod_inverse e phi with
  | None => None
  | Some d =>
  match BN_mod d r1 with
  | None => None
  | Some dmp1 =>
  match BN_mod d r2 with
  | None => None
  | Some dmq1 =>
  match BN_mod_inverse q p with
  | None => None
  | Some iqmp =>
      Some {| rsa_n := n; rsa_e := e; rsa_d := d; rsa_p := p; rsa_q := q;
              rsa_dmp1 := dmp1; rsa_dmq1 := dmq1; rsa_iqmp := iqmp |}
  end end end end end end.

(** [generate_pdp_key()]; [None] is the NULL result. *)
Definition generate_pdp_key : option PDP_key :=
  if failing Alloc_key then None else
  if failing Alloc_buffers then None else
  let v := memset Byte.x00 (PRF_KEY_SIZE L) in
  match (if USE_SAFE_PRIMES G then safe_prime_rsa
         else RSA_generate_key G (RSA_KEY_SIZE G) (RSA_E G)) with
  | None => None
  | Some rsa =>
  if negb (RSA_check_key L rsa) then None else
  match RAND_bytes G (PRF_KEY_SIZE L) with
  | None => None
  | Some bytes =>
  let v := fst (fread v (PRF_KEY_SIZE L) bytes) in
  match pick_pdp_generator G (rsa_n rsa) with
  | None => None
  | Some g =>
  if negb (RSA_check_key L rsa) then None else
  Some {| pdp_rsa := rsa; pdp_v := v; pdp_g := g |}
  end end end.

End KeyGeneration.

(** ** HMAC-SHA1

    [HMAC(EVP_sha1(), key, key_len, d, n, md, &md_len)] is a function of the
    library.  It is written out here from FIPS 180-4 (SHA-1) and RFC 2104
    (HMAC) so that the key derivation can be run on published vectors. *)

Definition w32 (z : Z) : Z := z mod 2 ^ 32.

Definition rotl (n x : Z) : Z :=
  Z.lor (w32 (Z.shiftl x n)) (Z.shiftr x (32 - n)).

Definition sha1_f (t b c d : Z) : Z :=
  if t <? 20 then Z.lor (Z.land b c) (Z.land (Z.lxor b 4294967295) d)
  else if t <? 40 then Z.lxor (Z.lxor b c) d
  else if t <? 60 then Z.lor (Z.lor (Z.land b c) (Z.land b d)) (Z.land c d)
  else Z.lxor (Z.lxor b c) d.

Definition sha1_K (t : Z) : Z :=
  if t <? 20 then 1518500249        (* 5a827999 *)
  else if t <? 40 then 1859775393   (* 6ed9eba1 *)
  else if t <? 60 then 2400959708   (* 8f1bbcdc *)
  else 3395469782.                  (* ca62c1d6 *)

Definition sha1_state : Type := Z * Z * Z * Z * Z.

(** The [n] rounds from round [t] on; [w] is the window of the last sixteen
    words of the message schedule. *)
Fixpoint sha1_rounds (n : nat) (t : Z) (w : list Z) (s : sha1_state)
  : sha1_state :=
  match n with
  | O => s
  | S n' =>
      let wt :=
        if t <? 16 then nth (Z.to_nat t) w 0
        else rotl 1 (Z.lxor (Z.lxor (nth 13 w 0) (nth 8 w 0))
                            (Z.lxor (nth 2 w 0) (nth 0 w 0))) in
      let w' := if t <? 16 then w else tl w ++ [wt] in
      let '(a, b, c, d, e) := s in
      let T := w32 (rotl 5 a + sha1_f t b c d + e + sha1_K t + wt) in
      sha1_rounds n' (t + 1) w' (T, a, rotl 30 b, c, d)
  end.

(** Big-endian words of a block, and big-endian bytes of a word. *)
Fixpoint be_words (n : nat) (l : list byte) : list Z :=
  match n with
  | O => []
  | S n' =>
      (byte.unsigned (nth 0 l Byte.x00) * 2 ^ 24
       + byte.unsigned (nth 1 l Byte.x00) * 2 ^ 16
       + byte.unsigned (nth 2 l Byte.x00) * 2 ^ 8
       + byte.unsigned (nth 3 l Byte.x00)) :: be_words n' (skipn 4 l)
  end.

Definition be32 (z : Z) : list byte :=
  [byte.of_Z (z / 2 ^ 24); byte.of_Z (z / 2 ^ 16); byte.of_Z (z / 2 ^ 8);
   byte.of_Z z].

Definition sha1_block (h : sha1_state) (block : list byte) : sha1_state :=
  let '(h0, h1, h2, h3, h4) := h in
  let '(a, b, c, d, e) := sha1_rounds 80 0 (be_words 16 block) h in
  (w32 (h0 + a), w32 (h1 + b), w32 (h2 + c), w32 (h3 + d), w32 (h4 + e)).

Fixpoint sha1_blocks (n : nat) (h : sha1_state) (l : list byte) : sha1_state :=
  match n with
  | O => h
  | S n' => sha1_blocks n' (sha1_block h (firstn 64 l)) (skipn 64 l)
  end.

Definition sha1_pad (msg : list byte) : list byte :=
  let len := Z.of_nat (length msg) in
  let zeros := Z.to_nat ((55 - len) mod 64) in
  msg ++ [Byte.x80] ++ repeat Byte.x00 zeros
      ++ be32 (len * 8 / 2 ^ 32) ++ be32 (len * 8).

Definition SHA1 (msg : list byte) : list byte :=
  let p := sha1_pad msg in
  let '(h0, h1, h2, h3, h4) :=
    sha1_blocks (length p / 64)
                (1732584193, 4023233417, 2562383102, 271733878, 3285377520) p in
  be32 h0 ++ be32 h1 ++ be32 h2 ++ be32 h3 ++ be32 h4.

Definition HMAC_SHA1 (key data : list byte) : list byte :=
  let key := if (64 <? length key)%nat then SHA1 key else key in
  let key := key ++ repeat Byte.x00 (64 - length key) in
  let ipad := map (fun b => byte.xor b Byte.x36) key in
  let opad := map (fun b => byte.xor b Byte.x5c) key in
  SHA1 (opad ++ SHA1 (ipad ++ data)).

(** ** A test cipher

    A keyed permutation of sixteen-byte blocks on which the model is run
    when a concrete cipher is needed: the first key byte is added to every
    byte and the block is rotated by five positions.  It stands in for the
    library's AES in examples only. *)
Definition block16 (x : list byte) : list byte :=
  firstn 16 (x ++ repeat Byte.x00 16).

Definition test_encrypt (x : list byte) (k : AES_KEY) : list byte :=
  let y := map (fun b => byte.of_Z (byte.unsigned b + byte.unsigned (hd Byte.x00 k)))
               (block16 x) in
  skipn 5 y ++ firstn 5 y.

Definition test_decrypt (y : list byte) (k : AES_KEY) : list byte :=
  let z := block16 y in
  map (fun b => byte.of_Z (byte.unsigned b - byte.unsigned (hd Byte.x00 k)))
      (skipn 11 z ++ firstn 11 z).

(** ** A test platform

    Stand-ins for the library on which the key store is run in examples: a
    keyed mixing function of twenty bytes for HMAC, the test cipher, and a
    PEM codec that stores the passphrase in front of the key components
    (one byte each) and refuses to read under another passphrase. *)
Definition test_HMAC (key data : list byte) : list byte :=
  let k := fold_left (fun a b => a + byte.unsigned b) key 1 in
  firstn 20 (map (fun b => byte.of_Z (byte.unsigned b * 3 + k))
                 (data ++ repeat Byte.x00 20)).

Definition rsa_fields (r : RSA) : list Z :=
  [rsa_n r; rsa_e r; rsa_d r; rsa_p r; rsa_q r;
   rsa_dmp1 r; rsa_dmq1 r; rsa_iqmp r].

Definition small (z : Z) : bool := (0 <=? z) && (z <? 256).

Definition test_PEM_write_private (pkey : EVP_PKEY) (password : list byte)
  : option (list byte) :=
  match pkey with
  | PKEY_RSA r =>
      if forallb small (rsa_fields r) && (length password <? 256)%nat
      then Some (byte.of_Z (Z.of_nat (length password))
                   :: password ++ map byte.of_Z (rsa_fields r))
      else None
  | PKEY_other => None
  end.

Definition test_rsa_of_bytes (l : list byte) : option RSA :=
  match map byte.unsigned l with
  | [n; e; d; p; q; dmp1; dmq1; iqmp] =>
      Some {| rsa_n := n; rsa_e := e; rsa_d := d; rsa_p := p; rsa_q := q;
              rsa_dmp1 := dmp1; rsa_dmq1 := dmq1; rsa_iqmp := iqmp |}
  | _ => None
  end.

Definition test_PEM_read_private (stream password : list byte)
  : option (EVP_PKEY * list byte) :=
  match stream with
  | [] => None
  | n :: rest =>
      let len := Z.to_nat (byte.unsigned n) in
      if list_eq_dec Byte.byte_eq_dec (firstn len rest) password
      then match test_rsa_of_bytes (firstn 8 (skipn len rest)) with
           | Some r => Some (PKEY_RSA r, skipn 8 (skipn len rest))
           | None => None
           end
      else None
  end.

Definition test_PEM_write_public (r : RSA) : option (list byte) :=
  if small (rsa_n r) && small (rsa_e r)
  then Some [byte.of_Z (rsa_n r); byte.of_Z (rsa_e r)]
  else None.

Definition test_PEM_read_public (stream : list byte)
  : option (RSA * list byte) :=
  match stream with
  | n :: e :: rest =>
      Some ({| rsa_n := byte.unsigned n; rsa_e := byte.unsigned e;
               rsa_d := 0; rsa_p := 0; rsa_q := 0;
               rsa_dmp1 := 0; rsa_dmq1 := 0; rsa_iqmp := 0 |}, rest)
  | _ => None
  end.

Definition test_platform : platform :=
  {| PRF_KEY_SIZE := 20;
     PRP_KEY_SIZE := 16;
     HMAC := test_HMAC;
     AES_encrypt := test_encrypt;
     AES_decrypt := test_decrypt;
     PEM_write_PKCS8PrivateKey := test_PEM_write_private;
     PEM_read_PrivateKey := test_PEM_read_private;
     PEM_write_RSAPublicKey := test_PEM_write_public;
     PEM_read_RSAPublicKey := test_PEM_read_public;
     RSA_check_key := fun _ => true |}.

(** A small key pair: n = 11 * 17, e = 3, d = 107. *)
Definition test_key : PDP_key :=
  {| pdp_rsa := {| rsa_n := 187; rsa_e := 3; rsa_d := 107; rsa_p := 11;
                   rsa_q := 17; rsa_dmp1 := 7; rsa_dmq1 := 11;
                   rsa_iqmp := 2 |};
     pdp_v := map (fun i => byte.of_Z (50 + Z.of_nat i)) (seq 0 20);
     pdp_g := 4 |}.

Definition no_fault (f : fault) : bool := false.

(** Only the lookup of the user inside [write_pdp_keypair] fails. *)
Definition getpwuid_write_fails (f : fault) : bool :=
  match f with
  | Getpwuid_write => true
  | _ => false
  end.

(** Stand-ins for the generators: the primes 11 and 17 are handed out,
    with the public exponent 3, the secret bytes 50, 51, ... and the
    generator 4; they give [test_key]. *)
Definition test_keygen : keygen :=
  {| USE_SAFE_PRIMES := true;
     RSA_KEY_SIZE := 10;
     RSA_E := 3;
     BN_generate_prime := fun k _ => Some (if Nat.eqb k 0 then 11 else 17)%positive;
     BN_is_prime := fun _ => 1;
     RSA_generate_key := fun _ _ => None;
     RAND_bytes :=
       fun n => Some (map (fun i => byte.of_Z (50 + Z.of_nat i)) (seq 0 n));
     pick_pdp_generator := fun _ => Some 4%N |}.


(** Hexadecimal notation for byte strings in examples. *)
Definition hex_digit (c : ascii) : Z :=
  let n := Z.of_N (N_of_ascii c) in
  if (48 <=? n) && (n <=? 57) then n - 48
  else if (97 <=? n) && (n <=? 102) then n - 87
  else 0.

Fixpoint hex (s : string) : list byte :=
  match s with
  | String a (String b r) => byte.of_Z (16 * hex_digit a + hex_digit b) :: hex r
  | _ => []
  end.

(** The key files that [write_pdp_keypair] leaves for [test_key] under the
    passphrase "correct horse" with the salt c8 c9 ... db. *)
Definition test_passphrase : list byte := bytes_of_string "correct horse".

Definition test_salt : list byte :=
  map (fun i => byte.of_Z (200 + Z.of_nat i)) (seq 0 20).

Definition test_pri : list byte :=
  hex ("0d636f727265637420686f727365bb036b0b11070b02"
       ++ "c8c9cacbcccdcecfd0d1d2d3d4d5d6d7d8d9dadb"
       ++ "a36cb0ce0f9f12a3bb14549e6c8b76a368aa54a6"
       ++ "b08c25a8acad06aeb81f1e6fd7c4126c78d5c168").

Definition test_pub : list byte := hex "bb03010000000000000004".

(** Key files below the directory [/keys]: those of [test_key]. *)
Definition test_fopen (path : list byte) : option FILE :=
  if list_eq_dec Byte.byte_eq_dec path (bytes_of_string "/keys/pdp.pri")
  then Some test_pri
  else if list_eq_dec Byte.byte_eq_dec path (bytes_of_string "/keys/pdp.pub")
  then Some test_pub
  else None.

(** Bytes [from], [from + 1], ... as test data. *)
Definition test_bytes (from : Z) (n : nat) : list byte :=
  map (fun i => byte.of_Z (from + Z.of_nat i)) (seq 0 n).

(** ** The cluster adder ([adder/adder.go]) *)

Module adder.

Inductive error := Canceled | DeadlineExceeded | Errorf (msg : string).

Inductive cid := Undef | Cid (id : string).

(** A node of the file tree handed to the adder. *)
#[warnings="-register-all"]
Inductive node :=
| File (id : string)
| Directory (names : list string) (children : list node).

Inductive result (A : Type) := Ok (a : A) | Fail (e : error).
Arguments Ok {A} a.
Arguments Fail {A} e.

Record AddParams := {
  Layout : string; RawLeaves : bool; Chunker : string; Progress : bool;
  NoCopy : bool; CidVersion : Z; HashFun : string; Wrap : bool
}.

(** The collaborators of the adder, as the run finds them ([multihash_Names h]
    is the lookup [multihash.Names[strings.ToLower(h)]]): the answers of
    the context ([ctx_Err k] is what the parent context's [Err()] gives at
    the [k]-th look at it), the libraries, whether [user.Current()] finds
    the user ([user_Current_ok]; it returns a nil user otherwise) and the
    home directory of that user (absolute, as [filepath.Abs] returns it),
    the lines of the passphrase file (none when it cannot be opened) and
    the PDP library.  [pdp_tag_file] is declared in the cgo preamble and
    returns a C [int]; its source is not part of [adder.go].
    [AddAllAndPin] returns a node whenever it returns no error. *)
Record world := {
  ctx_Err : nat -> option error;
  NewAdder : option error;
  PrefixForCidVersion : Z -> option error;
  multihash_Names : string -> option Z;
  user_Current_ok : bool;
  HomeDir : string;
  passphrase_lines : list string;
  Size : node -> Z;
  pdp_tag_file : string -> Z -> string -> Z -> string -> string -> Z;
  AddAllAndPin : node -> result cid;
  it_Err : option error;
  Finalize : cid -> result cid
}.

Inductive level := Debug | Info | Error.

(** The text of an error value and of a CID, as [%s] prints them. *)
Definition error_text (e : error) : string :=
  match e with
  | Canceled => "context canceled"
  | DeadlineExceeded => "context deadline exceeded"
  | Errorf msg => msg
  end.

Definition cid_text (c : cid) : string :=
  match c with
  | Undef => ""
  | Cid id => id
  end.

(** What a run does, in order: log lines, calls of [pdp_tag_file] (with the
    position of the entry, its name, the passphrase and the value returned),
    calls of [AddAllAndPin] (with the position of the entry), the call of
    [Finalize], and the two deferred calls. *)
Inductive event :=
| Log (l : level) (msg : string)
| TagFile (i : nat) (name : string) (password : string) (ret : Z)
| AddFile (i : nat) (n : node)
| Finalized (root : cid)
| CloseOutput
| Cancel.

(** [panic] is a nil dereference: of [usr.HomeDir] when [user.Current()]
    has found no user (its error is dropped), or of [adderRoot.Cid()] when
    no entry was added. *)
Inductive outcome := Return (c : cid) (err : option error) | Panic.

(** The adder: whether its context is set, whether its own [cancel] has
    been called, and its parameters. *)
Record Adder := { ctx_set : bool; cancelled : bool; params : AddParams }.

Definition New (p : AddParams) : Adder :=
  {| ctx_set := false; cancelled := false; params := p |}.

Definition setContext (a : Adder) : Adder :=
  if ctx_set a then a
  else {| ctx_set := true; cancelled := false; params := params a |}.

(** The entries that [FromFiles] iterates over: the directory itself, or
    the directory wrapped into a new one when [Wrap] is set. *)
Definition entries_of (a : Adder) (f : list (string * node))
  : list (string * node) :=
  if Wrap (params a)
  then [(EmptyString, Directory (map fst f) (map snd f))] else f.

Section Run.

Variable w : world.

(** [a.ctx.Err()] at the [k]-th look at the context. *)
Definition ctx_err (a : Adder) (k : nat) : option error :=
  if cancelled a then Some Canceled else ctx_Err w k.

Definition pdpPath : string := String.append (HomeDir w) "/.ipfs-cluster/passphrase".
Definition pdpkeyPath : string := String.append (HomeDir w) "/.ipfs-cluster/key".
Definition pdptagPath : string := String.append (HomeDir w) "/.ipfs-cluster/tag".

(** The scanner loop [for scanner.Scan() { password = scanner.Text() }]. *)
Definition read_passphrase : string :=
  fold_left (fun _ line => line) (passphrase_lines w) EmptyString.

(** The call [C.pdp_tag_file(C.CString(name), C.ulong(size), ...)] for the
    entry [n] named [name]: the value returned. *)
Definition tag (name : string) (n : node) (password : string) : Z :=
  pdp_tag_file w name (Size w n mod 2 ^ 64) pdptagPath
               (Z.of_nat (String.length pdptagPath)) pdpkeyPath password.

(** The loop [for it.Next()] of [FromFiles] over the entries from position
    [i] on, at the [k]-th look at the context.  [None]: the loop ended
    without a [return]; the last root added is given with it. *)
Fixpoint add_entries (a : Adder) (password : string)
         (entries : list (string * node)) (i k : nat) (adderRoot : option cid)
  : list event * (outcome + option cid) :=
  match entries with
  | [] => ([], inr adderRoot)
  | (name, n) :: rest =>
      let err_tag := tag name n password in
      let ev := TagFile i name password err_tag in
      if err_tag =? 1
      then ([ev; Log Debug (String.append "PDP process Error: " name)],
            inl (Return Undef (ctx_err a k)))
      else
        match ctx_err a k with
        | Some _ => ([ev], inl (Return Undef (ctx_err a (S k))))
        | None =>
            let t := [ev; Log Debug (String.append "ipfsAdder AddFile(" (String.append name ")"));
                      AddFile i n] in
            match AddAllAndPin w n with
            | Fail e =>
                (t ++ [Log Error (String.append "error adding to cluster: "
                                                (error_text e))],
                 inl (Return Undef (Some e)))
            | Ok root =>
                let '(t', r) :=
                  add_entries a password rest (S i) (S k) (Some root) in
                (t ++ t', r)
            end
        end
  end.

(** The part of [FromFiles] and [FromFile] between the creation of the
    ipfs adder and the reading of the passphrase, which the two functions
    have in common: [Some _] is an early [return], or the panic of
    [usr.HomeDir] on the nil user, before the paths are logged. *)
Definition setup (a : Adder) : list event * option outcome :=
  match NewAdder w with
  | Some err => ([Log Error (error_text err)], Some (Return Undef (Some err)))
  | None =>
      match PrefixForCidVersion w (CidVersion (params a)) with
      | Some err =>
          ([], Some (Return Undef
                       (Some (Errorf (String.append "bad CID Version: "
                                                    (error_text err))))))
      | None =>
          match multihash_Names w (HashFun (params a)) with
          | None =>
              ([], Some (Return Undef
                           (Some (Errorf (String.append
                                            "unrecognized hash function: "
                                            (HashFun (params a)))))))
          | Some _ =>
              if user_Current_ok w
              then ([Log Info (String.append "pdpKeyPath:" pdpkeyPath);
                     Log Info (String.append "pdpTagPath:" pdptagPath);
                     Log Info (String.append "pdpPassword:" read_passphrase)],
                    None)
              else ([], Some Panic)
          end
      end
  end.

(** The end of both functions: [a.dgs.Finalize(a.ctx, adderRoot.Cid())]. *)
Definition finalize (adderRoot : option cid) : list event * outcome :=
  match adderRoot with
  | None => ([], Panic)
  | Some root =>
      match Finalize w root with
      | Fail e =>
          ([Finalized root;
            Log Error (String.append "error finalizing adder:" (error_text e))],
           Return Undef (Some e))
      | Ok clusterRoot =>
          ([Finalized root;
            Log Info (String.append (cid_text clusterRoot)
                                    " successfully added to cluster")],
           Return clusterRoot None)
      end
  end.

(** The two deferred calls, which run when the function returns (or
    panics), after the returned values have been computed. *)
Definition deferred (a : Adder) (r : list event * outcome)
  : outcome * list event * Adder :=
  (snd r, fst r ++ [CloseOutput; Cancel],
   {| ctx_set := ctx_set a; cancelled := true; params := params a |}).

(** [a.FromFiles(ctx, f)] for the directory with the entries [f]. *)
Definition FromFiles (a : Adder) (f : list (string * node))
  : outcome * list event * Adder :=
  let t0 := [Log Debug "adding from files"] in
  let a := setContext a in
  match ctx_err a 0 with
  | Some _ => (Return Undef (ctx_err a 1), t0, a)
  | None =>
      deferred a
        (let '(t1, early) := setup a in
         match early with
         | Some out => (t0 ++ t1, out)
         | None =>
             let f := entries_of a f in
             let '(t2, r) := add_entries a read_passphrase f 0 1 None in
             match r with
             | inl out => (t0 ++ t1 ++ t2, out)
             | inr adderRoot =>
                 match it_Err w with
                 | Some err => (t0 ++ t1 ++ t2, Return Undef (Some err))
                 | None =>
                     let '(t3, out) := finalize adderRoot in
                     (t0 ++ t1 ++ t2 ++ t3, out)
                 end
             end
         end)
  end.

(** [a.FromFile(ctx, reader, name)] for the file [file] made from the
    reader. *)
Definition FromFile (a : Adder) (file : node) (name : string)
  : outcome * list event * Adder :=
  let t0 := [Log Debug "add from file"] in
  let a := setContext a in
  match ctx_err a 0 with
  | Some _ => (Return Undef (ctx_err a 1), t0, a)
  | None =>
      deferred a
        (let '(t1, early) := setup a in
         match early with
         | Some out => (t0 ++ t1, out)
         | None =>
             let err_tag := tag name file read_passphrase in
             let ev := TagFile 0 name read_passphrase err_tag in
             if err_tag =? 1
             then (t0 ++ t1 ++ [ev; Log Debug (String.append "PDP process Error: " name)],
                   Return Undef (ctx_err a 1))
             else
               let t2 := [ev; Log Debug (String.append "ipfsAdder AddFile(" (String.append name ")"));
                          AddFile 0 file] in
               match AddAllAndPin w file with
               | Fail e =>
                   (t0 ++ t1 ++ t2
                       ++ [Log Error (String.append "error adding to cluster: "
                                                    (error_text e))],
                    Return Undef (Some e))
               | Ok root =>
                   let '(t3, out) := finalize (Some root) in
                   (t0 ++ t1 ++ t2 ++ t3, out)
               end
         end)
  end.

End Run.

Definition outcome_of (r : outcome * list event * Adder) : outcome := fst (fst r).
Definition trace_of (r : outcome * list event * Adder) : list event := snd (fst r).

(** A trace made of log lines (and the deferred calls) only. *)
Definition quiet (t : list event) : Prop :=
  (forall j nm p ret, ~ In (TagFile j nm p ret) t) /\
  (forall j n, ~ In (AddFile j n) t) /\
  (forall c, ~ In (Finalized c) t).

(** The ipfs adder, the CID version and the hash function are accepted:
    the run comes to the lookup of the user. *)
Definition accepted (w : world) (a : Adder) : Prop :=
  NewAdder w = None /\
  PrefixForCidVersion w (CidVersion (params a)) = None /\
  multihash_Names w (HashFun (params a)) <> None.

(** The run reaches the passphrase file: the adder is new, the parent
    context is never cancelled, the ipfs adder, the CID version and the
    hash function are accepted, and the user is found. *)
Definition ready (w : world) (a : Adder) : Prop :=
  ctx_set a = false /\ (forall k, ctx_Err w k = None) /\
  NewAdder w = None /\
  PrefixForCidVersion w (CidVersion (params a)) = None /\
  multihash_Names w (HashFun (params a)) <> None /\
  user_Current_ok w = true.

(** A world for examples: tagging fails (returns 1) for the file named
    "b.txt" and answers 2 for "c.txt". *)
Definition test_world : world :=
  {| ctx_Err := fun _ => None;
     NewAdder := None;
     PrefixForCidVersion :=
       fun v => if (v =? 0) || (v =? 1) then None
                else Some (Errorf "unknown CID version");
     multihash_Names :=
       fun h => if String.eqb h "sha2-256" then Some 18 else None;
     user_Current_ok := true;
     HomeDir := "/home/u";
     passphrase_lines := ["correct horse"%string];
     Size := fun _ => 3;
     pdp_tag_file :=
       fun name _ _ _ _ _ =>
         if String.eqb name "b.txt" then 1
         else if String.eqb name "c.txt" then 2 else 0;
     AddAllAndPin :=
       fun n => match n with
                | File id => Ok (Cid id)
                | Directory _ _ => Ok (Cid "dir")
                end;
     it_Err := None;
     Finalize := fun c => Ok c |}.

Definition test_params : AddParams :=
  {| Layout := ""; RawLeaves := false; Chunker := ""; Progress := false;
     NoCopy := false; CidVersion := 0; HashFun := "sha2-256"; Wrap := false |}.

End adder.

(** ** The single DAG service ([adder/single/dag_service.go]) *)

Module single.

Import adder.

(** [peer.ID] is a string type; an IPLD node is shown by its CID. *)
Definition peer_ID := string.
Definition ipld_Node := string.

Inductive PinMode := PinModeRecursive | PinModeDirect.

(** [api.PinOptions]: the mode, and the other options taken as a whole. *)
Record PinOptions := {
  Mode : PinMode;
  other_options : list (string * string)
}.

(** The pin that [api.PinWithOpts(root, opts)] makes, with the allocations
    set afterwards; a nil slice is [None]. *)
Record Pin := {
  pin_cid : cid;
  pin_options : PinOptions;
  Allocations : option (list peer_ID)
}.

(** [DAGService].  The block adder [ba] is shown by the destinations it was
    made for; [None] is the nil pointer. *)
Record DAGService := {
  dests : option (list peer_ID);
  pinOpts : PinOptions;
  local : bool;
  ba : option (option (list peer_ID))
}.

(** The functions of the package [adder] that the service calls over RPC,
    whose sources are not part of this file: [adder.BlockAllocate],
    the method [Add] of a [BlockAdder] with the given destinations, and
    [adder.Pin]. *)
Record cluster := {
  BlockAllocate : PinOptions -> result (option (list peer_ID));
  BlockAdder_Add : option (list peer_ID) -> ipld_Node -> option error;
  Pin_call : Pin -> option error
}.

(** The calls made to the cluster, in order. *)
Inductive rpc_event :=
| Allocate (opts : PinOptions)
| BlockPut (to : option (list peer_ID)) (n : ipld_Node)
| PinCall (p : Pin).

(** A method returns its error value, or the goroutine panics on the nil
    block adder. *)
Inductive status := Done (err : option error) | NilPanic.

(** [New(rpc, opts, local)]. *)
Definition New (opts : PinOptions) (local : bool) : DAGService :=
  let opts := {| Mode := PinModeRecursive;
                 other_options := other_options opts |} in
  {| dests := None; pinOpts := opts; local := local; ba := None |}.

(** A service whose destinations are set has its block adder. *)
Definition wired (dgs : DAGService) : Prop :=
  dests dgs <> None -> ba dgs <> None.

Section Service.

Variable c : cluster.

(** [dgs.Add(ctx, node)]. *)
Definition Add (dgs : DAGService) (n : ipld_Node)
  : status * list rpc_event * DAGService :=
  match dests dgs with
  | None =>
      match BlockAllocate c (pinOpts dgs) with
      | Fail err => (Done (Some err), [Allocate (pinOpts dgs)], dgs)
      | Ok d =>
          let b := if local dgs then Some [EmptyString] else d in
          let dgs := {| dests := d; pinOpts := pinOpts dgs;
                        local := local dgs; ba := Some b |} in
          (Done (BlockAdder_Add c b n),
           [Allocate (pinOpts dgs); BlockPut b n], dgs)
      end
  | Some _ =>
      match ba dgs with
      | None => (NilPanic, [], dgs)
      | Some b => (Done (BlockAdder_Add c b n), [BlockPut b n], dgs)
      end
  end.

(** [dgs.Finalize(ctx, root)]: the CID and the error returned. *)
Definition Finalize (dgs : DAGService) (root : cid)
  : (cid * option error) * list rpc_event * DAGService :=
  let rootPin := {| pin_cid := root; pin_options := pinOpts dgs;
                    Allocations := dests dgs |} in
  let dgs := {| dests := None; pinOpts := pinOpts dgs;
                local := local dgs; ba := ba dgs |} in
  ((root, Pin_call c rootPin), [PinCall rootPin], dgs).

(** [dgs.AddMany(ctx, nodes)]. *)
Fixpoint AddMany (dgs : DAGService) (nodes : list ipld_Node)
  : status * list rpc_event * DAGService :=
  match nodes with
  | [] => (Done None, [], dgs)
  | n :: rest =>
      let '(r, t, dgs) := Add dgs n in
      match r with
      | Done None =>
          let '(r', t', dgs') := AddMany dgs rest in (r', t ++ t', dgs')
      | _ => (r, t, dgs)
      end
  end.

(** A client of the service: a sequence of method calls on one service.
    [None]: a call has panicked. *)
Inductive call :=
| CallAdd (n : ipld_Node)
| CallAddMany (nodes : list ipld_Node)
| CallFinalize (root : cid).

Fixpoint calls (dgs : DAGService) (l : list call)
  : option (list rpc_event * DAGService) :=
  match l with
  | [] => Some ([], dgs)
  | x :: l' =>
      let '(panicked, t, dgs) :=
        match x with
        | CallAdd n =>
            let '(r, t, dgs) := Add dgs n in
            (match r with NilPanic => true | Done _ => false end, t, dgs)
        | CallAddMany nodes =>
            let '(r, t, dgs) := AddMany dgs nodes in
            (match r with NilPanic => true | Done _ => false end, t, dgs)
        | CallFinalize root =>
            let '(_, t, dgs) := Finalize dgs root in (false, t, dgs)
        end in
      if panicked then None
      else match calls dgs l' with
           | Some (t', dgs') => Some (t ++ t', dgs')
           | None => None
           end
  end.

End Service.

(** A cluster for examples: two peers are allocated, every block is
    accepted, and pinning fails. *)
Definition test_options : PinOptions :=
  {| Mode := PinModeRecursive; other_options := [("name", "example")]%string |}.

Definition test_cluster : cluster :=
  {| BlockAllocate := fun _ => Ok (Some ["peer1"; "peer2"]%string);
     BlockAdder_Add := fun _ _ => None;
     Pin_call := fun _ => Some (Errorf "pin failed") |}.

End single.

(* ===================================================================== *)
(** * Part II: properties                                                 *)
(* ===================================================================== *)

(** ** Bytes and buffers *)

Lemma byte_xor_cancel (b : byte) (t : Z) :
  byte.of_Z (Z.lxor (byte.unsigned (byte.of_Z (Z.lxor (byte.unsigned b) t))) t) = b.
Proof.
  apply byte.unsigned_inj.
  rewrite !byte.unsigned_of_Z. unfold byte.wrap.
  pose proof (byte.unsigned_range b) as Hb.
  rewrite <- (Z.mod_small (byte.unsigned b) (2 ^ 8)) at 2 by exact Hb.
  rewrite <- !Z.land_ones by lia.
  apply Z.bits_inj'. intros k Hk.
  rewrite !Z.land_spec, !Z.lxor_spec, Z.land_spec, Z.lxor_spec.
  destruct (Z.testbit (Z.ones 8) k), (Z.testbit (byte.unsigned b) k),
    (Z.testbit t k); reflexivity.
Qed.

Lemma firstn_length_app {A} (l l' : list A) (n : nat) :
  length l = n -> firstn n (l ++ l') = l.
Proof.
  intros <-. rewrite firstn_app, Nat.sub_diag, firstn_all. simpl.
  apply app_nil_r.
Qed.

Lemma skipn_length_app {A} (l l' : list A) (n : nat) :
  length l = n -> skipn n (l ++ l') = l'.
Proof.
  intros <-. rewrite skipn_app, Nat.sub_diag, skipn_all. reflexivity.
Qed.

Lemma memcpy_window (l1 m l2 s s' : list byte) (off n : nat) :
  length l1 = off -> length m = n -> length s = n ->
  memcpy (l1 ++ m ++ l2) off (s ++ s') n = l1 ++ s ++ l2.
Proof.
  intros H1 Hm Hs. unfold memcpy.
  rewrite (firstn_length_app l1 _ off H1), (firstn_length_app s _ n Hs).
  do 2 f_equal.
  replace (l1 ++ m ++ l2) with ((l1 ++ m) ++ l2) by (symmetry; apply app_assoc).
  apply skipn_length_app. rewrite length_app; lia.
Qed.

Lemma xor_at_cell (pre post : list byte) (b : byte) (k : nat) (t : Z) :
  length pre = k ->
  xor_at (pre ++ b :: post) k t
  = pre ++ byte.of_Z (Z.lxor (byte.unsigned b) t) :: post.
Proof.
  intros Hk. unfold xor_at.
  rewrite (firstn_length_app pre _ k Hk).
  rewrite app_nth2 by lia. rewrite Hk, Nat.sub_diag. simpl nth.
  replace (skipn (S k) (pre ++ b :: post)) with post; [reflexivity|].
  change (b :: post) with ([b] ++ post). rewrite app_assoc.
  symmetry. apply skipn_length_app. rewrite length_app; simpl; lia.
Qed.

Lemma xor_at_cancel (pre post : list byte) (b : byte) (k : nat) (t : Z) :
  length pre = k ->
  xor_at (xor_at (pre ++ b :: post) k t) k t = pre ++ b :: post.
Proof.
  intros Hk. rewrite !xor_at_cell by exact Hk.
  rewrite byte_xor_cancel. reflexivity.
Qed.

Lemma xor_at_length (buf : list byte) (k : nat) (t : Z) :
  (k < length buf)%nat -> length (xor_at buf k t) = length buf.
Proof.
  intros H. unfold xor_at.
  rewrite !length_app, length_firstn, length_skipn. simpl. lia.
Qed.

Lemma split_at {A} (l : list A) (n : nat) :
  (n <= length l)%nat ->
  exists l1 l2, l = l1 ++ l2 /\ length l1 = n.
Proof.
  intros H. exists (firstn n l), (skipn n l). split.
  - symmetry. apply firstn_skipn.
  - rewrite length_firstn. lia.
Qed.

(** Lists of a known, small length are opened into their cells. *)
Ltac open_list l H :=
  repeat (destruct l as [|? l]; simpl in H; try discriminate H).

(** A loop run forwards and then backwards with the inverse body returns
    to the state it started from. *)
Lemma fold_left_undo {S X} (w u : S -> X -> S) (Inv : S -> Prop)
      (P : X -> Prop) :
  (forall s x, Inv s -> P x -> Inv (w s x)) ->
  (forall s x, Inv s -> P x -> u (w s x) x = s) ->
  forall l, Forall P l -> forall s, Inv s ->
    Inv (fold_left w l s) /\ fold_left u (rev l) (fold_left w l s) = s.
Proof.
  intros Hw Hu l Hl. induction Hl as [|x l Hx Hl IH]; intros s Hs.
  - split; [exact Hs | reflexivity].
  - simpl. destruct (IH (w s x) (Hw s x Hs Hx)) as [Hi Hr]. split.
    + exact Hi.
    + rewrite fold_left_app. simpl. rewrite Hr. apply Hu; assumption.
Qed.

(** ** NIST AES key wrap *)

Section KeyWrapTheory.

Variable AES_encrypt : list byte -> AES_KEY -> list byte.
Variable AES_decrypt : list byte -> AES_KEY -> list byte.

(** The contract of the block cipher: sixteen bytes out, and decryption
    inverts encryption under the same key. *)
Hypothesis AES_encrypt_length :
  forall x k, aes_key_ok k -> length (AES_encrypt x k) = 16%nat.
Hypothesis AES_decrypt_encrypt :
  forall x k, aes_key_ok k -> length x = 16%nat ->
              AES_decrypt (AES_encrypt x k) k = x.

Local Abbreviation wstep := (wrap_step AES_encrypt).
Local Abbreviation ustep := (unwrap_step AES_decrypt).
Local Abbreviation wrounds := (wrap_rounds AES_encrypt).
Local Abbreviation urounds := (unwrap_rounds AES_decrypt).
Local Abbreviation wrap := (nist_key_wrap AES_encrypt).
Local Abbreviation unwrap := (nist_key_unwrap AES_decrypt).

Lemma aes_input_window (A R1 Ri R2 : list byte) (i : nat) :
  length A = 8%nat -> length R1 = (i * 8)%nat -> length Ri = 8%nat ->
  memcpy (memcpy (memset Byte.x00 16) 0 A 8) 8
         (skipn (i * 8) (R1 ++ Ri ++ R2)) 8 = A ++ Ri.
Proof.
  intros HA H1 Hi.
  rewrite (skipn_length_app R1 _ _ H1).
  open_list A HA. open_list Ri Hi. reflexivity.
Qed.

Lemma wrap_step_window k n j i A R1 Ri R2 :
  length A = 8%nat -> length R1 = (i * 8)%nat -> length Ri = 8%nat ->
  wstep k n j i (A, R1 ++ Ri ++ R2)
  = (xor_at (firstn 8 (AES_encrypt (A ++ Ri) k)) 7
            (to_uint (n * Z.of_nat j + (Z.of_nat i + 1))),
     R1 ++ firstn 8 (skipn 8 (AES_encrypt (A ++ Ri) k)) ++ R2).
Proof.
  intros HA H1 Hi. unfold wrap_step.
  rewrite (aes_input_window A R1 Ri R2 i HA H1 Hi).
  f_equal.
  - f_equal. unfold memcpy. simpl firstn at 1.
    rewrite skipn_all2 by lia. apply app_nil_r.
  - unfold memcpy. rewrite (firstn_length_app R1 _ _ H1).
    do 2 f_equal.
    replace (R1 ++ Ri ++ R2) with ((R1 ++ Ri) ++ R2)
      by (symmetry; apply app_assoc).
    apply skipn_length_app. rewrite length_app; lia.
Qed.

Lemma unwrap_step_window k n j i A R1 Ri R2 :
  length A = 8%nat -> length R1 = (i * 8)%nat -> length Ri = 8%nat ->
  let A' := xor_at A 7 (to_uint (n * Z.of_nat j + (Z.of_nat i + 1))) in
  ustep k n j i (A, R1 ++ Ri ++ R2)
  = (firstn 8 (AES_decrypt (A' ++ Ri) k),
     R1 ++ firstn 8 (skipn 8 (AES_decrypt (A' ++ Ri) k)) ++ R2).
Proof.
  intros HA H1 Hi A'. unfold unwrap_step. fold A'.
  assert (HA' : length A' = 8%nat).
  { unfold A'. rewrite xor_at_length; lia. }
  rewrite (aes_input_window A' R1 Ri R2 i HA' H1 Hi).
  f_equal.
  - unfold memcpy. simpl firstn at 1.
    rewrite skipn_all2 by lia. apply app_nil_r.
  - unfold memcpy. rewrite (firstn_length_app R1 _ _ H1).
    do 2 f_equal.
    replace (R1 ++ Ri ++ R2) with ((R1 ++ Ri) ++ R2)
      by (symmetry; apply app_assoc).
    apply skipn_length_app. rewrite length_app; lia.
Qed.

(** One step of [nist_key_unwrap] undoes the same step of
    [nist_key_wrap]. *)
Lemma unwrap_step_wrap_step k n j i A R1 Ri R2 :
  aes_key_ok k ->
  length A = 8%nat -> length R1 = (i * 8)%nat -> length Ri = 8%nat ->
  ustep k n j i (wstep k n j i (A, R1 ++ Ri ++ R2)) = (A, R1 ++ Ri ++ R2).
Proof.
  intros Hk HA H1 Hi.
  rewrite (wrap_step_window k n j i A R1 Ri R2 HA H1 Hi).
  pose proof (AES_decrypt_encrypt (A ++ Ri) k Hk) as Hinv.
  pose proof (AES_encrypt_length (A ++ Ri) k Hk) as Hlen.
  remember (AES_encrypt (A ++ Ri) k) as out eqn:Eout. clear Eout.
  open_list out Hlen.
  cbn [firstn skipn].
  rewrite unwrap_step_window; try reflexivity; try assumption.
  change [b; b0; b1; b2; b3; b4; b5; b6]
    with ([b; b0; b1; b2; b3; b4; b5] ++ b6 :: []).
  rewrite xor_at_cancel by reflexivity.
  cbn [app]. rewrite Hinv by (rewrite length_app; lia).
  rewrite (firstn_length_app A Ri 8 HA).
  rewrite (skipn_length_app A Ri 8 HA).
  rewrite firstn_all2 by lia. reflexivity.
Qed.

Lemma register_window (nn i : nat) (R : list byte) :
  length R = (nn * 8)%nat -> (i < nn)%nat ->
  exists R1 Ri R2,
    R = R1 ++ Ri ++ R2 /\ length R1 = (i * 8)%nat /\ length Ri = 8%nat.
Proof.
  intros HR Hi.
  destruct (split_at R (i * 8)) as (R1 & R' & -> & H1); [lia|].
  rewrite length_app in HR.
  destruct (split_at R' 8) as (Ri & R2 & -> & H2); [lia|].
  exists R1, Ri, R2. auto.
Qed.

Lemma wrap_step_ok k n j i nn st :
  aes_key_ok k -> (i < nn)%nat ->
  wrap_state_ok nn st -> wrap_state_ok nn (wstep k n j i st).
Proof.
  intros Hk Hi [HA HR]. destruct st as [A R]. simpl in HA, HR.
  destruct (register_window nn i R HR Hi) as (R1 & Ri & R2 & -> & H1 & H2).
  rewrite (wrap_step_window k n j i A R1 Ri R2 HA H1 H2).
  pose proof (AES_encrypt_length (A ++ Ri) k Hk) as Hlen.
  unfold wrap_state_ok. cbn [fst snd]. split.
  - rewrite xor_at_length; rewrite length_firstn; lia.
  - rewrite !length_app in *. rewrite length_firstn, length_skipn. lia.
Qed.

Lemma unwrap_step_wrap_step_ok k n j i nn st :
  aes_key_ok k -> (i < nn)%nat ->
  wrap_state_ok nn st -> ustep k n j i (wstep k n j i st) = st.
Proof.
  intros Hk Hi [HA HR]. destruct st as [A R]. simpl in HA, HR.
  destruct (register_window nn i R HR Hi) as (R1 & Ri & R2 & -> & H1 & H2).
  apply unwrap_step_wrap_step; assumption.
Qed.

(** The inner loop over the registers, then the outer loop over the six
    rounds, are undone by the loops of [nist_key_unwrap]. *)
Lemma inner_rounds_undo k n j nn st :
  aes_key_ok k -> wrap_state_ok nn st ->
  let st' := fold_left (fun st i => wstep k n j i st) (seq 0 nn) st in
  wrap_state_ok nn st' /\
  fold_left (fun st i => ustep k n j i st) (rev (seq 0 nn)) st' = st.
Proof.
  intros Hk Hst.
  apply (fold_left_undo (fun st i => wstep k n j i st)
                        (fun st i => ustep k n j i st)
                        (wrap_state_ok nn) (fun i => (i < nn)%nat)).
  - intros s x Hs Hx. apply wrap_step_ok; assumption.
  - intros s x Hs Hx. apply unwrap_step_wrap_step_ok with nn; assumption.
  - apply Forall_forall. intros x Hx. apply in_seq in Hx. lia.
  - exact Hst.
Qed.

Lemma unwrap_rounds_wrap_rounds k n st :
  aes_key_ok k -> 0 <= n < 2 ^ 31 ->
  wrap_state_ok (Z.to_nat n) st ->
  wrap_state_ok (Z.to_nat n) (wrounds k n st) /\
  urounds k n (wrounds k n st) = st.
Proof.
  intros Hk Hn Hst. unfold wrap_rounds, unwrap_rounds.
  assert (Hcount : Z.to_nat (to_int (n - 1) + 1) = Z.to_nat n).
  { unfold to_int. replace (n - 1 + 2 ^ 31) with (n + (2 ^ 31 - 1)) by lia.
    rewrite Z.mod_small by lia. f_equal. lia. }
  rewrite Hcount.
  apply (fold_left_undo
           (fun st j => fold_left (fun st i => wstep k n j i st)
                                  (seq 0 (Z.to_nat n)) st)
           (fun st j => fold_left (fun st i => ustep k n j i st)
                                  (rev (seq 0 (Z.to_nat n))) st)
           (wrap_state_ok (Z.to_nat n)) (fun _ => True)).
  - intros s x Hs _. apply inner_rounds_undo; assumption.
  - intros s x Hs _. apply inner_rounds_undo; assumption.
  - apply Forall_forall. trivial.
  - exact Hst.
Qed.

Lemma AES_set_key_ok (kek : list byte) (kek_size : Z) :
  In kek_size [16; 24; 32] -> (Z.to_nat kek_size <= length kek)%nat ->
  exists k, AES_set_key kek (to_int (kek_size * 8)) = (0, k) /\ aes_key_ok k.
Proof.
  intros Hin Hlen. unfold aes_key_ok.
  destruct Hin as [<- | [<- | [<- | []]]].
  - exists (firstn 16 kek). split; [reflexivity|].
    rewrite length_firstn. left. lia.
  - exists (firstn 24 kek). split; [reflexivity|].
    rewrite length_firstn. right; left. lia.
  - exists (firstn 32 kek). split; [reflexivity|].
    rewrite length_firstn. right; right; left. lia.
Qed.

Lemma memcmp_refl (a : list byte) (n : nat) : memcmp a a n = 0.
Proof.
  unfold memcmp.
  destruct (list_eq_dec Byte.byte_eq_dec (firstn n a) (firstn n a));
    [reflexivity | contradiction].
Qed.

(** Wrapping then unwrapping: the key is cut to whole 64-bit registers,
    [key_size / 8] of them, and these come back. *)
Lemma nist_key_unwrap_wrap (key kek : list byte) (key_size kek_size : Z) :
  0 <= key_size < 2 ^ 31 -> (Z.to_nat key_size <= length key)%nat ->
  In kek_size [16; 24; 32] -> (Z.to_nat kek_size <= length kek)%nat ->
  exists ct,
    wrap (Some key) key_size (Some kek) kek_size = Some ct /\
    Z.of_nat (length ct) = 8 * (key_size / 8) + 8 /\
    unwrap (Some ct) (key_size + 8) (Some kek) kek_size
    = Some (firstn (Z.to_nat (8 * (key_size / 8))) key).
Proof.
  intros Hbound Hkeylen Hkek Hkeklen.
  destruct (AES_set_key_ok kek kek_size Hkek Hkeklen) as (k & Hset & Hk).
  pose (n := key_size / 8).
  assert (Hn8 : 0 <= n * 8 <= key_size).
  { unfold n. pose proof (Z.div_mod key_size 8).
    pose proof (Z.mod_pos_bound key_size 8). lia. }
  assert (Hnr : 0 <= n < 2 ^ 31) by lia.
  assert (Hu : to_uint (key_size / 8) = n).
  { unfold to_uint. apply Z.mod_small. fold n. lia. }
  assert (Hu' : to_uint ((key_size + 8) / 8 - 1) = n).
  { replace (key_size + 8) with (key_size + 1 * 8) by lia.
    rewrite Z.div_add by lia. fold n.
    replace (n + 1 - 1) with n by lia.
    unfold to_uint. apply Z.mod_small. lia. }
  assert (Hn8u : to_uint (n * 8) = n * 8).
  { unfold to_uint. rewrite Z.mod_small; lia. }
  assert (H8nu : to_uint (8 * n) = n * 8).
  { unfold to_uint. rewrite Z.mod_small; lia. }
  fold n. replace (8 * n) with (n * 8) by lia.
  set (key' := firstn (Z.to_nat (n * 8)) key).
  assert (Hlenkey : length key' = (Z.to_nat n * 8)%nat).
  { unfold key'. rewrite length_firstn. lia. }
  assert (Hst : wrap_state_ok (Z.to_nat n) (memset Byte.xa6 8, key')).
  { split; [reflexivity | exact Hlenkey]. }
  destruct (unwrap_rounds_wrap_rounds k n _ Hk Hnr Hst) as [[HA HR] Hundo].
  unfold nist_key_wrap, nist_key_unwrap, unwrap_state,
    AES_set_encrypt_key, AES_set_decrypt_key.
  rewrite Hu, Hu', Hn8u, H8nu, Hset. cbn [Z.eqb negb]. fold key'.
  destruct (wrap_rounds AES_encrypt k n (memset Byte.xa6 8, key'))
    as [A R] eqn:Erounds.
  cbn [fst snd] in HA, HR.
  rewrite (firstn_all2 (n := 8%nat) A) by lia.
  rewrite (firstn_all2 (n := Z.to_nat (n * 8)) R) by lia.
  exists (A ++ R). split; [reflexivity|]. split.
  - rewrite length_app. lia.
  - rewrite (firstn_length_app A R 8 HA), (skipn_length_app A R 8 HA).
    rewrite (firstn_all2 (n := Z.to_nat (n * 8)) R) by lia.
    rewrite Hundo. rewrite memcmp_refl. cbn [Z.eqb negb].
    rewrite firstn_all2 by lia. reflexivity.
Qed.

(** C2. For every key of 128, 192 or 256 bits and every KEK of 128, 192
    or 256 bits, [nist_key_wrap] returns a ciphertext of [key size + 8]
    bytes, and [nist_key_unwrap] of that ciphertext under the same KEK
    returns exactly the key. *)
Theorem keywrap_roundtrip (key kek : list byte) :
  In (length key) [16; 24; 32]%nat -> In (length kek) [16; 24; 32]%nat ->
  exists ct,
    nist_key_wrap AES_encrypt (Some key) (Z.of_nat (length key))
                  (Some kek) (Z.of_nat (length kek)) = Some ct /\
    length ct = (length key + 8)%nat /\
    nist_key_unwrap AES_decrypt (Some ct) (Z.of_nat (length ct))
                    (Some kek) (Z.of_nat (length kek)) = Some key.
Proof.
  intros Hkey Hkek.
  assert (Hks : 0 <= Z.of_nat (length key) < 2 ^ 31 /\
                8 * (Z.of_nat (length key) / 8) = Z.of_nat (length key)).
  { simpl in Hkey. destruct Hkey as [<- | [<- | [<- | []]]];
      split; (lia || reflexivity). }
  destruct Hks as [Hrange Hwhole].
  assert (Hkk : In (Z.of_nat (length kek)) [16; 24; 32]).
  { simpl in Hkek |- *. destruct Hkek as [<- | [<- | [<- | []]]]; auto. }
  destruct (nist_key_unwrap_wrap key kek _ _ Hrange ltac:(lia) Hkk ltac:(lia))
    as (ct & Hw & Hlen & Hu).
  exists ct. rewrite Hwhole in Hlen, Hu.
  split; [exact Hw|]. split; [lia|].
  replace (Z.of_nat (length ct)) with (Z.of_nat (length key) + 8) by lia.
  rewrite Hu. rewrite firstn_all2 by lia. reflexivity.
Qed.

(** C4 (amended). Neither direction checks that the key size is a multiple
    of 8 bytes.  With non-NULL buffers the only failure before the rounds
    is the cipher key setup, which rejects a KEK size other than 128, 192
    or 256 bits; for an accepted KEK size every key size is processed:
    it is rounded down to [key_size / 8] whole registers, [nist_key_wrap]
    returns [8 * (key_size / 8) + 8] bytes and [nist_key_unwrap] gives
    back the first [8 * (key_size / 8)] bytes of the key. *)
Theorem keywrap_size_not_checked (key kek : list byte) (key_size kek_size : Z) :
  0 <= key_size < 2 ^ 31 -> (Z.to_nat key_size <= length key)%nat ->
  0 <= kek_size < 2 ^ 28 -> (Z.to_nat kek_size <= length kek)%nat ->
  (~ In kek_size [16; 24; 32] ->
     nist_key_wrap AES_encrypt (Some key) key_size (Some kek) kek_size = None /\
     forall enckey enckey_size,
       nist_key_unwrap AES_decrypt (Some enckey) enckey_size (Some kek) kek_size = None) /\
  (In kek_size [16; 24; 32] ->
     exists ct,
       nist_key_wrap AES_encrypt (Some key) key_size (Some kek) kek_size = Some ct /\
       Z.of_nat (length ct) = 8 * (key_size / 8) + 8 /\
       nist_key_unwrap AES_decrypt (Some ct) (key_size + 8) (Some kek) kek_size
       = Some (firstn (Z.to_nat (8 * (key_size / 8))) key)).
Proof.
  intros Hks Hkl Hkk Hkkl. split.
  - intros Hbad.
    assert (Hrc : fst (AES_set_key kek (to_int (kek_size * 8))) = -2).
    { unfold AES_set_key, to_int.
      rewrite Z.mod_small by lia.
      replace (kek_size * 8 + 2 ^ 31 - 2 ^ 31) with (kek_size * 8) by lia.
      destruct (kek_size * 8 =? 128) eqn:E1;
        [apply Z.eqb_eq in E1; exfalso; apply Hbad; simpl; lia|].
      destruct (kek_size * 8 =? 192) eqn:E2;
        [apply Z.eqb_eq in E2; exfalso; apply Hbad; simpl; lia|].
      destruct (kek_size * 8 =? 256) eqn:E3;
        [apply Z.eqb_eq in E3; exfalso; apply Hbad; simpl; lia|].
      reflexivity. }
    unfold nist_key_wrap, nist_key_unwrap,
      AES_set_encrypt_key, AES_set_decrypt_key.
    destruct (AES_set_key kek (to_int (kek_size * 8))) as [rc k].
    simpl in Hrc. subst rc. split; [reflexivity | intros; reflexivity].
  - intros Hok. apply nist_key_unwrap_wrap; assumption.
Qed.

(** C5. When the cipher key setup has succeeded, so that the six unwrap
    rounds run, [nist_key_unwrap] returns a plaintext if and only if the
    recovered integrity value is eight bytes 0xA6; on a mismatch it
    returns NULL. *)
Theorem unwrap_integrity_check (enckey kek : list byte)
        (enckey_size kek_size : Z) :
  In kek_size [16; 24; 32] ->
  let aes_key := snd (AES_set_decrypt_key kek (to_int (kek_size * 8))) in
  let A := fst (unwrap_state AES_decrypt enckey enckey_size aes_key) in
  ((exists p, nist_key_unwrap AES_decrypt (Some enckey) enckey_size (Some kek) kek_size = Some p)
   <-> firstn 8 A = repeat Byte.xa6 8) /\
  (firstn 8 A <> repeat Byte.xa6 8 ->
   nist_key_unwrap AES_decrypt (Some enckey) enckey_size (Some kek) kek_size = None).
Proof.
  intros Hkk aes_key A.
  assert (Hset : AES_set_decrypt_key kek (to_int (kek_size * 8)) = (0, aes_key)).
  { unfold aes_key. simpl in Hkk.
    destruct Hkk as [<- | [<- | [<- | []]]]; reflexivity. }
  unfold nist_key_unwrap. rewrite Hset. cbn [Z.eqb negb].
  unfold A.
  destruct (unwrap_state AES_decrypt enckey enckey_size aes_key) as [A' R].
  cbn [fst]. unfold memcmp, memset.
  change (firstn 8 (repeat Byte.xa6 8)) with (repeat Byte.xa6 8).
  destruct (list_eq_dec Byte.byte_eq_dec (firstn 8 A') (repeat Byte.xa6 8))
    as [Heq | Hne]; cbn [Z.eqb negb].
  - split; [|intros Hc; contradiction].
    split; [intros _; exact Heq | intros _; eexists; reflexivity].
  - split; [|reflexivity].
    split; [intros [p Hp]; discriminate Hp | intros Hc; contradiction].
Qed.

End KeyWrapTheory.

(** *** The test cipher meets the contract of the block cipher *)

Lemma byte_add_sub_cancel (b : byte) (c : Z) :
  byte.of_Z (byte.unsigned (byte.of_Z (byte.unsigned b + c)) - c) = b.
Proof.
  apply byte.unsigned_inj. rewrite !byte.unsigned_of_Z. unfold byte.wrap.
  rewrite Zminus_mod_idemp_l.
  replace (byte.unsigned b + c - c) with (byte.unsigned b) by lia.
  apply Z.mod_small. apply byte.unsigned_range.
Qed.

Lemma block16_length (x : list byte) : length (block16 x) = 16%nat.
Proof.
  unfold block16. rewrite length_firstn, length_app, repeat_length. lia.
Qed.

Lemma test_encrypt_length (x : list byte) (k : AES_KEY) :
  aes_key_ok k -> length (test_encrypt x k) = 16%nat.
Proof.
  intros _. unfold test_encrypt.
  rewrite length_app, length_skipn, length_firstn, length_map, block16_length.
  reflexivity.
Qed.

Lemma test_decrypt_encrypt (x : list byte) (k : AES_KEY) :
  aes_key_ok k -> length x = 16%nat -> test_decrypt (test_encrypt x k) k = x.
Proof.
  intros _ Hx. open_list x Hx.
  unfold test_decrypt, test_encrypt, block16.
  cbn [app firstn skipn map repeat].
  rewrite !byte_add_sub_cancel. reflexivity.
Qed.

(** *** The key wrap on concrete inputs *)

Lemma keywrap_roundtrip_witness :
  exists ct,
    nist_key_wrap test_encrypt (Some (test_bytes 1 16)) 16
                  (Some (test_bytes 100 16)) 16 = Some ct /\
    length ct = 24%nat /\
    nist_key_unwrap test_decrypt (Some ct) (Z.of_nat (length ct))
                    (Some (test_bytes 100 16)) 16
    = Some (test_bytes 1 16).
Proof.
  exact (keywrap_roundtrip test_encrypt test_decrypt
           test_encrypt_length test_decrypt_encrypt
           (test_bytes 1 16) (test_bytes 100 16)
           (or_introl eq_refl) (or_introl eq_refl)).
Defined.

(** C4, counterexample: a key size of 20 bytes and a ciphertext size of 28
    bytes, neither a multiple of 8, are not rejected; both directions run
    on two registers and return a result. *)
Lemma keywrap_odd_size_accepted :
  nist_key_wrap test_encrypt (Some (test_bytes 1 20)) 20
                (Some (test_bytes 100 16)) 16
  = Some (hex "212a872a24c5273cc9cbc2cbc67eca6222c5cac6869585c6")
  /\
  nist_key_unwrap test_decrypt
    (Some (hex "212a872a24c5273cc9cbc2cbc67eca6222c5cac6869585c600010203")) 28
    (Some (test_bytes 100 16)) 16
  = Some (test_bytes 1 16).
Proof. split; vm_compute; reflexivity. Qed.

Lemma keywrap_size_not_checked_witness :
  (~ In 16 [16; 24; 32] ->
   nist_key_wrap test_encrypt (Some (test_bytes 1 20)) 20
                 (Some (test_bytes 100 16)) 16 = None /\
   forall enckey enckey_size,
     nist_key_unwrap test_decrypt (Some enckey) enckey_size
                     (Some (test_bytes 100 16)) 16 = None) /\
  (In 16 [16; 24; 32] ->
   exists ct,
     nist_key_wrap test_encrypt (Some (test_bytes 1 20)) 20
                   (Some (test_bytes 100 16)) 16 = Some ct /\
     Z.of_nat (length ct) = 8 * (20 / 8) + 8 /\
     nist_key_unwrap test_decrypt (Some ct) (20 + 8)
                     (Some (test_bytes 100 16)) 16
     = Some (firstn (Z.to_nat (8 * (20 / 8))) (test_bytes 1 20))).
Proof.
  apply (keywrap_size_not_checked test_encrypt test_decrypt
           test_encrypt_length test_decrypt_encrypt
           (test_bytes 1 20) (test_bytes 100 16) 20 16).
  - lia.
  - simpl. lia.
  - lia.
  - simpl. lia.
Defined.

Lemma unwrap_integrity_check_witness :
  let ct := hex "212a872a24c5273cc9cbc2cbc67eca6222c5cac6869585c6" in
  let kek := test_bytes 100 16 in
  let aes_key := snd (AES_set_decrypt_key kek (to_int (16 * 8))) in
  let A := fst (unwrap_state test_decrypt ct 24 aes_key) in
  ((exists p, nist_key_unwrap test_decrypt (Some ct) 24 (Some kek) 16 = Some p)
   <-> firstn 8 A = repeat Byte.xa6 8) /\
  (firstn 8 A <> repeat Byte.xa6 8 ->
   nist_key_unwrap test_decrypt (Some ct) 24 (Some kek) 16 = None).
Proof.
  exact (unwrap_integrity_check test_decrypt
           (hex "212a872a24c5273cc9cbc2cbc67eca6222c5cac6869585c6")
           (test_bytes 100 16) 24 16 (or_introl eq_refl)).
Defined.

(** ** Password based key derivation *)

Lemma xor_bytes_length (T U : list byte) :
  length (xor_bytes T U) = length T.
Proof.
  revert U. induction T as [|x T IH]; intros [|y U]; simpl; auto.
Qed.

Lemma byte_xor_zero (y : byte) : byte.xor Byte.x00 y = y.
Proof.
  unfold byte.xor. change (byte.unsigned Byte.x00) with 0.
  rewrite Z.lxor_0_l. apply byte.of_Z_unsigned.
Qed.

Lemma xor_bytes_zero (n : nat) (U : list byte) :
  length U = n -> xor_bytes (repeat Byte.x00 n) U = U.
Proof.
  revert U. induction n as [|n IH]; intros [|y U] H; simpl in *;
    try discriminate; auto.
  rewrite byte_xor_zero, IH by lia. reflexivity.
Qed.

Section KeyDerivationTheory.

Variable HMAC : list byte -> list byte -> list byte.

(** The library's HMAC with SHA-1 always reports twenty bytes. *)
Hypothesis HMAC_length : forall key data, length (HMAC key data) = 20%nat.

(** The loop of [PBKDF2_F] followed by the final XOR accumulates the
    first value [U] and the [n] values that follow it. *)
Lemma PBKDF2_F_loop_xor (password : list byte) (n : nat) :
  forall T U,
  exists T' U',
    PBKDF2_F_loop HMAC password n T U = Some (T', U') /\
    xor_bytes T' U' = rfc2898_U_xor HMAC password n (xor_bytes T U) U.
Proof.
  induction n as [|n IH]; intros T U.
  - exists T, U. split; reflexivity.
  - cbn [PBKDF2_F_loop rfc2898_U_xor].
    rewrite HMAC_length. cbn [Z.of_nat Z.eqb Pos.of_succ_nat Pos.succ
                              SHA_DIGEST_LENGTH Pos.eqb negb].
    apply IH.
Qed.

(** What [PBKDF2_F] computes into a zeroed [T]: the XOR of [c + 1] values
    of the pseudorandom function, the first one taken on the salt followed
    by the block index [i] itself. *)
Lemma PBKDF2_F_rounds (password salt : list byte) (c i : Z) :
  password <> [] -> salt <> [] -> 0 < c -> 0 <= i < 2 ^ 32 ->
  PBKDF2_F HMAC (repeat Byte.x00 20) password salt c i
  = Some (rfc2898_F HMAC password salt (Z.to_nat c + 1) i).
Proof.
  intros Hp Hs Hc Hi. unfold PBKDF2_F, rfc2898_F.
  destruct password as [|p0 password]; [contradiction|].
  destruct salt as [|s0 salt]; [contradiction|].
  cbn [length Nat.eqb orb].
  destruct (c =? 0) eqn:Ec; [apply Z.eqb_eq in Ec; lia|].
  rewrite HMAC_length. cbn [Z.of_nat Z.eqb Pos.of_succ_nat Pos.succ
                            SHA_DIGEST_LENGTH Pos.eqb negb].
  unfold to_uint. rewrite (Z.mod_small i) by lia.
  destruct (PBKDF2_F_loop_xor (p0 :: password) (Z.to_nat c)
              (repeat Byte.x00 20)
              (HMAC (p0 :: password) ((s0 :: salt) ++ htonl_bytes i)))
    as (T' & U' & -> & Hx).
  rewrite Hx. rewrite xor_bytes_zero by apply HMAC_length.
  replace (Z.to_nat c + 1 - 1)%nat with (Z.to_nat c) by lia.
  reflexivity.
Qed.

Lemma PBKDF2_F_succeeds (T password salt : list byte) (c i : Z) :
  password <> [] -> salt <> [] -> c <> 0 ->
  exists T', PBKDF2_F HMAC T password salt c i = Some T'.
Proof.
  intros Hp Hs Hc. unfold PBKDF2_F.
  destruct password as [|p0 password]; [contradiction|].
  destruct salt as [|s0 salt]; [contradiction|].
  cbn [length Nat.eqb orb].
  destruct (c =? 0) eqn:Ec; [apply Z.eqb_eq in Ec; contradiction|].
  rewrite HMAC_length. cbn [Z.of_nat Z.eqb Pos.of_succ_nat Pos.succ
                            SHA_DIGEST_LENGTH Pos.eqb negb].
  destruct (PBKDF2_F_loop_xor (p0 :: password) (Z.to_nat c) T
              (HMAC (p0 :: password)
                    ((s0 :: salt) ++ htonl_bytes (to_uint i))))
    as (T' & U' & -> & _).
  eauto.
Qed.

Lemma PBKDF2_loop_succeeds (password salt : list byte) (c : Z) :
  password <> [] -> salt <> [] -> to_int c <> 0 ->
  forall idx T dk remaining,
  exists dk', PBKDF2_loop HMAC password salt c idx T dk remaining = Some dk'.
Proof.
  intros Hp Hs Hc. induction idx as [|i idx IH]; intros T dk remaining.
  - eexists. reflexivity.
  - cbn [PBKDF2_loop].
    destruct (PBKDF2_F_succeeds T password salt (to_int c) (Z.of_nat i)
                Hp Hs Hc) as [T' ->].
    destruct (SHA_DIGEST_LENGTH <=? remaining); apply IH.
Qed.

(** X3. [PBKDF2] returns NULL exactly when the password is empty, the salt
    is empty, the iteration count is zero or the length asked for is zero;
    for any other input it returns a derived key. *)
Lemma PBKDF2_fails_only_on_empty (password salt : list byte) (c dkey_len : Z) :
  0 <= c < 2 ^ 32 ->
  (PBKDF2 HMAC password salt c dkey_len = None
   <-> password = [] \/ salt = [] \/ c = 0 \/ dkey_len = 0).
Proof.
  intros Hc. unfold PBKDF2. split.
  - intros H.
    destruct password as [|p0 password]; [auto|].
    destruct salt as [|s0 salt]; [auto|].
    cbn [length Nat.eqb orb] in H.
    destruct (c =? 0) eqn:Ec; [apply Z.eqb_eq in Ec; auto|].
    destruct (dkey_len =? 0) eqn:Ed; [apply Z.eqb_eq in Ed; auto|].
    cbn [orb] in H. apply Z.eqb_neq in Ec. exfalso.
    destruct (PBKDF2_loop_succeeds (p0 :: password) (s0 :: salt) c
                ltac:(discriminate) ltac:(discriminate)) with
      (idx := seq 0 (Z.to_nat
                       (if negb (dkey_len mod SHA_DIGEST_LENGTH =? 0)
                        then to_uint (to_uint (dkey_len / SHA_DIGEST_LENGTH) + 1)
                        else to_uint (dkey_len / SHA_DIGEST_LENGTH))))
      (T := memset Byte.x00 (Z.to_nat SHA_DIGEST_LENGTH))
      (dk := memset Byte.x00 (Z.to_nat dkey_len))
      (remaining := dkey_len) as [dk' Hdk].
    + unfold to_int. intros H0.
      assert (Hlt : (c + 2 ^ 31) mod 2 ^ 32 = 2 ^ 31) by lia.
      destruct (Z_lt_le_dec c (2 ^ 31)) as [Hlo | Hhi].
      * rewrite Z.mod_small in Hlt by lia. lia.
      * replace (c + 2 ^ 31) with (c - 2 ^ 31 + 1 * 2 ^ 32) in Hlt by lia.
        rewrite Z.mod_add, Z.mod_small in Hlt by lia. lia.
    + rewrite Hdk in H. discriminate H.
  - intros [-> | [-> | [-> | ->]]].
    + reflexivity.
    + destruct (length password =? 0)%nat; reflexivity.
    + destruct (length password =? 0)%nat, (length salt =? 0)%nat; reflexivity.
    + destruct (length password =? 0)%nat, (length salt =? 0)%nat, (c =? 0);
        reflexivity.
Qed.

End KeyDerivationTheory.

(** *** HMAC-SHA1 on the published vectors *)

Lemma SHA1_length (msg : list byte) : length (SHA1 msg) = 20%nat.
Proof.
  unfold SHA1.
  destruct (sha1_blocks _ _ _) as [[[[h0 h1] h2] h3] h4]. reflexivity.
Qed.

Lemma HMAC_SHA1_length (key data : list byte) :
  length (HMAC_SHA1 key data) = 20%nat.
Proof. unfold HMAC_SHA1. apply SHA1_length. Qed.

(** FIPS 180-4, the one-block message. *)
Example SHA1_abc :
  SHA1 (bytes_of_string "abc") = hex "a9993e364706816aba3e25717850c26c9cd0d89d".
Proof. vm_compute. reflexivity. Qed.

(** RFC 2202, test case 1. *)
Example HMAC_SHA1_rfc2202_1 :
  HMAC_SHA1 (repeat Byte.x0b 20) (bytes_of_string "Hi There")
  = hex "b617318655057264e28bc0b6fb378c8ef146be00".
Proof. vm_compute. reflexivity. Qed.

(** RFC 6070, vectors 1 and 2, on the construction of the standard. *)
Example rfc2898_PBKDF2_rfc6070_1 :
  rfc2898_PBKDF2 HMAC_SHA1 (bytes_of_string "password") (bytes_of_string "salt")
                 1 20
  = hex "0c60c80f961f0e71f3a9b524af6012062fe037a6".
Proof. vm_compute. reflexivity. Qed.

Example rfc2898_PBKDF2_rfc6070_2 :
  rfc2898_PBKDF2 HMAC_SHA1 (bytes_of_string "password") (bytes_of_string "salt")
                 2 20
  = hex "ea6c014dc72d6f8ccd1ed92ace1d41f0d8de8957".
Proof. vm_compute. reflexivity. Qed.

(** C3. On the first vector of RFC 6070 (password "password", salt "salt",
    one iteration, twenty bytes) [PBKDF2] returns a derived key that is not
    the reference value [0c60c80f...] of PBKDF2-HMAC-SHA1: its block is the
    XOR of two HMAC values ([c + 1] rounds), the first one computed on the
    salt followed by block index 0 instead of 1. *)
Theorem PBKDF2_rfc6070_divergence :
  let P := bytes_of_string "password" in
  let S := bytes_of_string "salt" in
  PBKDF2 HMAC_SHA1 P S 1 20
  = Some (hex "c54f0d173327026ca5c2f42d23401186e83915bc") /\
  rfc2898_PBKDF2 HMAC_SHA1 P S 1 20
  = hex "0c60c80f961f0e71f3a9b524af6012062fe037a6" /\
  PBKDF2 HMAC_SHA1 P S 1 20 = Some (rfc2898_F HMAC_SHA1 P S 2 0).
Proof. cbv zeta. split; [|split]; vm_compute; reflexivity. Qed.

(** ** The key store *)

(** *** The derived key has the length asked for *)

Lemma memcpy_length (dst src : list byte) (off n : nat) :
  (off + n <= length dst)%nat -> (n <= length src)%nat ->
  length (memcpy dst off src n) = length dst.
Proof.
  intros Hd Hs. unfold memcpy.
  rewrite !length_app, !length_firstn, length_skipn. lia.
Qed.

Lemma PBKDF2_F_loop_length HMAC password n :
  forall T U T' U',
    PBKDF2_F_loop HMAC password n T U = Some (T', U') ->
    length T' = length T.
Proof.
  induction n as [|n IH]; intros T U T' U' H; simpl in H.
  - injection H as <- <-. reflexivity.
  - destruct (negb _); [discriminate|].
    apply IH in H. rewrite H. apply xor_bytes_length.
Qed.

Lemma PBKDF2_F_length HMAC T password salt c i T' :
  PBKDF2_F HMAC T password salt c i = Some T' -> length T' = length T.
Proof.
  unfold PBKDF2_F. intros H.
  destruct (_ || _); [discriminate|].
  destruct (negb _); [discriminate|].
  destruct (PBKDF2_F_loop _ _ _ _ _) as [[T1 U1]|] eqn:E; [|discriminate].
  injection H as <-. rewrite xor_bytes_length.
  eapply PBKDF2_F_loop_length; eassumption.
Qed.

Lemma PBKDF2_loop_length HMAC password salt c :
  forall k i0 T dk remaining dk',
    length T = 20%nat ->
    remaining = Z.of_nat (length dk) - 20 * Z.of_nat i0 ->
    (20 * (i0 + k) < length dk + 20)%nat ->
    PBKDF2_loop HMAC password salt c (seq i0 k) T dk remaining = Some dk' ->
    length dk' = length dk.
Proof.
  induction k as [|k IH]; intros i0 T dk remaining dk' HT Hrem Hk H.
  - simpl in H. injection H as <-. reflexivity.
  - cbn [PBKDF2_loop seq] in H.
    destruct (PBKDF2_F HMAC T password salt (to_int c) (Z.of_nat i0))
      as [T1|] eqn:EF; [|discriminate].
    pose proof (PBKDF2_F_length _ _ _ _ _ _ _ EF) as HT1. rewrite HT in HT1.
    change (Z.to_nat SHA_DIGEST_LENGTH) with 20%nat in H.
    unfold SHA_DIGEST_LENGTH in H.
    destruct (20 <=? remaining) eqn:Ecmp.
    + apply Z.leb_le in Ecmp.
      assert (Hlen : length (memcpy dk (i0 * 20) T1 20) = length dk)
        by (apply memcpy_length; lia).
      apply IH in H; [congruence | exact HT1 | rewrite Hlen; lia
                     | rewrite Hlen; lia].
    + apply Z.leb_gt in Ecmp.
      assert (Hlen : length (memcpy dk (i0 * 20) T1 (Z.to_nat remaining))
                     = length dk)
        by (apply memcpy_length; lia).
      assert (k = 0)%nat by lia. subst k.
      simpl in H. injection H as <-. exact Hlen.
Qed.

Lemma to_uint_le (z : Z) : 0 <= z -> 0 <= to_uint z <= z.
Proof.
  intros H. unfold to_uint.
  pose proof (Z.mod_pos_bound z (2 ^ 32) ltac:(lia)).
  pose proof (Z.mod_le z (2 ^ 32) H ltac:(lia)). lia.
Qed.

Lemma PBKDF2_length HMAC password salt c dkey_len dk :
  0 <= dkey_len ->
  PBKDF2 HMAC password salt c dkey_len = Some dk ->
  length dk = Z.to_nat dkey_len.
Proof.
  intros Hd H. unfold PBKDF2 in H.
  destruct (_ || _); [discriminate|].
  apply PBKDF2_loop_length in H.
  - rewrite H. unfold memset. apply repeat_length.
  - reflexivity.
  - unfold memset. rewrite repeat_length. lia.
  - unfold memset. rewrite repeat_length. unfold SHA_DIGEST_LENGTH.
    pose proof (to_uint_le (dkey_len / 20) ltac:(apply Z.div_pos; lia)) as Hl.
    pose proof (Z.div_mod dkey_len 20 ltac:(lia)) as Hdm.
    pose proof (Z.mod_pos_bound dkey_len 20 ltac:(lia)) as Hmb.
    destruct (negb (dkey_len mod 20 =? 0)) eqn:Em.
    + apply negb_true_iff, Z.eqb_neq in Em.
      pose proof (to_uint_le (to_uint (dkey_len / 20) + 1) ltac:(lia)). lia.
    + lia.
Qed.

(** *** Zeroed buffers *)

Lemma zeroed_repeat (n : nat) : zeroed (repeat Byte.x00 n).
Proof. intros b Hb. apply repeat_spec in Hb. exact Hb. Qed.

Lemma zeroed_memset (n : nat) : zeroed (memset Byte.x00 n).
Proof. apply zeroed_repeat. Qed.

Lemma zeroed_some_memset (n : nat) (p : list byte) :
  Some (memset Byte.x00 n) = Some p -> zeroed p.
Proof. intros H. assert (p = memset Byte.x00 n) by congruence. subst p. apply zeroed_memset. Qed.

Lemma sfree_zeroed (buf : list byte) (size : nat) :
  (length buf <= size)%nat -> zeroed (sfree buf size).
Proof.
  intros H. unfold sfree, memcpy, memset. simpl firstn.
  rewrite skipn_all2 by lia. rewrite app_nil_r, firstn_all2.
  - apply zeroed_repeat.
  - rewrite repeat_length. lia.
Qed.

Lemma in_release (name : string) (p : option (list byte)) (size : nat)
      (nm : string) (c : list byte) :
  In (nm, c) (release name p size) ->
  nm = name /\ exists buf, p = Some buf /\ c = sfree buf size.
Proof.
  destruct p as [buf|]; simpl; [|contradiction].
  intros [H | []]. injection H as <- <-. eauto.
Qed.

Lemma release_dk_zeroed (dk : option (list byte)) (size : nat) (c : list byte) :
  (forall d, dk = Some d -> length d = size) ->
  In ("dk"%string, c) (release "dk" dk size) -> zeroed c.
Proof.
  intros Hlen Hin. apply in_release in Hin.
  destruct Hin as (_ & buf & -> & ->).
  apply sfree_zeroed. rewrite (Hlen buf eq_refl). lia.
Qed.

Section KeyStoreZeroing.

Variable L : platform.
Variable failing : fault -> bool.

Lemma load_cleanup_zeroed dk key_v v out err :
  (forall d, dk = Some d -> length d = PRP_KEY_SIZE L) ->
  load_zeroed (load_cleanup L dk key_v v out err).
Proof.
  intros Hdk. split; cbn [load_cleanup l_password l_freed].
  - intros p Hp. eapply zeroed_some_memset; exact Hp.
  - intros c Hin. apply in_app_or in Hin. destruct Hin as [Hin | Hin].
    + apply in_release in Hin. destruct Hin as [Hn _]. discriminate Hn.
    + apply in_app_or in Hin. destruct Hin as [Hin | Hin].
      * eapply release_dk_zeroed; eassumption.
      * apply in_release in Hin. destruct Hin as [Hn _]. discriminate Hn.
Qed.

Lemma load_cleanup_zeroed_none key_v v out err :
  load_zeroed (load_cleanup L None key_v v out err).
Proof. apply load_cleanup_zeroed. intros d Hd. discriminate Hd. Qed.

Lemma load_with_password_zeroed pri_key pub_key password out :
  load_zeroed (load_with_password L failing pri_key pub_key password out).
Proof.
  unfold load_with_password.
  destruct (PEM_read_PrivateKey L pri_key (c_string password))
    as [[pkey pri1]|]; [|apply load_cleanup_zeroed_none].
  destruct (EVP_PKEY_get1_RSA pkey) as [rsa|];
    [|apply load_cleanup_zeroed_none].
  destruct (negb (RSA_check_key L rsa)); [apply load_cleanup_zeroed_none|].
  destruct (fread _ (PRF_KEY_SIZE L) pri1) as [salt pri2].
  destruct (failing Read_salt); [apply load_cleanup_zeroed_none|].
  destruct (fread _ 40 pri2) as [enc_v pri3].
  destruct (failing Read_enc_v); [apply load_cleanup_zeroed_none|].
  destruct (PBKDF2 (HMAC L) (c_string password) salt 10000
                   (Z.of_nat (PRP_KEY_SIZE L))) as [dk|] eqn:Edk;
    [|apply load_cleanup_zeroed_none].
  apply PBKDF2_length in Edk; [|lia]. rewrite Nat2Z.id in Edk.
  assert (Hdk : forall d, Some dk = Some d -> length d = PRP_KEY_SIZE L).
  { intros d Hd. injection Hd as <-. exact Edk. }
  destruct (nist_key_unwrap _ _ _ _ _) as [key_v|];
    [|apply load_cleanup_zeroed; exact Hdk].
  destruct (PEM_read_RSAPublicKey L pub_key) as [[r pub1]|];
    [|apply load_cleanup_zeroed; exact Hdk].
  destruct (fread _ 8 pub1) as [gen_size pub2].
  destruct (failing Alloc_gen); [apply load_cleanup_zeroed; exact Hdk|].
  destruct (fread _ _ pub2) as [gen pub3].
  destruct (failing BN_failure); [apply load_cleanup_zeroed; exact Hdk|].
  split; cbn [l_password l_freed].
  - intros p Hp. eapply zeroed_some_memset; exact Hp.
  - intros c Hin. apply in_app_or in Hin. destruct Hin as [Hin | Hin].
    + eapply release_dk_zeroed; eassumption.
    + apply in_release in Hin. destruct Hin as [Hn _]. discriminate Hn.
Qed.

Lemma load_prologue_zeroed pri_key pub_key body :
  (forall pri pub, load_zeroed (body pri pub)) ->
  load_zeroed (load_prologue failing pri_key pub_key body).
Proof.
  intros Hbody. unfold load_prologue.
  assert (Hnone : forall out err,
             load_zeroed {| l_key := None; l_password := None; l_freed := [];
                            l_stdout := out; l_stderr := err;
                            l_overrun := false |}).
  { intros out err. split; cbn [l_password l_freed];
      [discriminate | contradiction]. }
  destruct pri_key as [pri|]; [|apply Hnone].
  destruct pub_key as [pub|]; [|apply Hnone].
  destruct (failing Alloc_key); [apply Hnone|].
  destruct (failing Alloc_buffers); [|apply Hbody].
  split; cbn [l_password l_freed]; [|contradiction].
  intros p Hp. eapply zeroed_some_memset; exact Hp.
Qed.

Lemma read_pdp_keypair_zeroed term pri_key pub_key :
  load_zeroed (read_pdp_keypair L failing term pri_key pub_key).
Proof.
  unfold read_pdp_keypair. apply load_prologue_zeroed. intros pri pub.
  destruct (read_password term (memset Byte.x00 1024) 1024) as [[ok pw] t].
  destruct (negb ok).
  - apply load_cleanup_zeroed_none.
  - apply load_with_password_zeroed.
Qed.

Lemma load_with_password_in_bounds pri_key pub_key password out :
  l_overrun (load_with_password L failing pri_key pub_key password out)
  = false.
Proof.
  unfold load_with_password, load_cleanup.
  repeat match goal with
         | |- context [match ?x with _ => _ end] => destruct x
         end; reflexivity.
Qed.

Lemma load_prologue_in_bounds pri_key pub_key body :
  l_overrun (load_prologue failing pri_key pub_key body) = true ->
  exists pri pub, pri_key = Some pri /\ pub_key = Some pub /\
                  l_overrun (body pri pub) = true.
Proof.
  unfold load_prologue.
  destruct pri_key as [pri|]; [|discriminate].
  destruct pub_key as [pub|]; [|discriminate].
  destruct (failing Alloc_key); [discriminate|].
  destruct (failing Alloc_buffers); [discriminate|]. eauto.
Qed.

Lemma read_pdp_keypair_in_bounds term pri_key pub_key :
  l_overrun (read_pdp_keypair L failing term pri_key pub_key) = false.
Proof.
  destruct (l_overrun _) eqn:E; [|reflexivity]. exfalso.
  apply load_prologue_in_bounds in E. destruct E as (pri & pub & _ & _ & E).
  cbv beta zeta in E.
  destruct (read_password term (memset Byte.x00 1024) 1024) as [[ok pw] t].
  destruct (negb ok); [discriminate E|].
  rewrite load_with_password_in_bounds in E. discriminate E.
Qed.

Lemma strcpy_fits (dst src : list byte) :
  (length src < length dst)%nat ->
  strcpy dst src = Some (memcpy dst 0 (src ++ [Byte.x00]) (length src + 1)).
Proof.
  intros H. unfold strcpy.
  destruct (Nat.ltb_spec (length src) (length dst)); [reflexivity | lia].
Qed.

Lemma strcpy_password (src : list byte) :
  (length src < 1024)%nat ->
  strcpy (memset Byte.x00 1024) src
  = Some (memcpy (memset Byte.x00 1024) 0 (src ++ [Byte.x00]) (length src + 1)).
Proof.
  intros H. apply strcpy_fits. unfold memset. rewrite repeat_length. exact H.
Qed.

Lemma strcpy_password_long (src : list byte) :
  (1024 <= length src)%nat -> strcpy (memset Byte.x00 1024) src = None.
Proof.
  intros H. unfold strcpy, memset. rewrite repeat_length.
  destruct (Nat.ltb_spec (length src) 1024); [lia | reflexivity].
Qed.

Lemma read_pdp_keypair_temp_in_bounds pri_key pub_key password_in :
  (length (c_string password_in) < 1024)%nat ->
  l_overrun (read_pdp_keypair_temp L failing pri_key pub_key password_in)
  = false.
Proof.
  intros Hlen.
  destruct (l_overrun _) eqn:E; [|reflexivity]. exfalso.
  apply load_prologue_in_bounds in E. destruct E as (pri & pub & _ & _ & E).
  cbv beta zeta in E. rewrite (strcpy_password _ Hlen) in E.
  rewrite load_with_password_in_bounds in E. discriminate E.
Qed.

Lemma read_pdp_keypair_temp_long pri pub password_in :
  (1024 <= length (c_string password_in))%nat ->
  failing Alloc_key = false -> failing Alloc_buffers = false ->
  l_overrun (read_pdp_keypair_temp L failing (Some pri) (Some pub) password_in)
  = true.
Proof.
  intros Hlen Hk Hb. unfold read_pdp_keypair_temp, load_prologue.
  rewrite Hk, Hb, (strcpy_password_long _ Hlen). reflexivity.
Qed.

Lemma read_pdp_keypair_temp_zeroed pri_key pub_key password_in :
  l_overrun (read_pdp_keypair_temp L failing pri_key pub_key password_in)
  = false ->
  load_zeroed (read_pdp_keypair_temp L failing pri_key pub_key password_in).
Proof.
  unfold read_pdp_keypair_temp. intros Hin.
  destruct (strcpy (memset Byte.x00 1024) (c_string password_in))
    as [password|] eqn:Ecpy.
  - apply load_prologue_zeroed. intros pri pub.
    apply load_with_password_zeroed.
  - revert Hin. unfold load_prologue.
    assert (Hnone : forall out err,
               load_zeroed {| l_key := None; l_password := None;
                              l_freed := []; l_stdout := out;
                              l_stderr := err; l_overrun := false |}).
    { intros out err. split; cbn [l_password l_freed];
        [discriminate | contradiction]. }
    destruct pri_key as [pri|]; [|intros _; apply Hnone].
    destruct pub_key as [pub|]; [|intros _; apply Hnone].
    destruct (failing Alloc_key); [intros _; apply Hnone|].
    destruct (failing Alloc_buffers); [|discriminate].
    intros _. split; cbn [l_password l_freed]; [|contradiction].
    intros p Hp. eapply zeroed_some_memset; exact Hp.
Qed.

Lemma write_pdp_keypair_zeroed rand key password :
  store_zeroed (write_pdp_keypair L failing rand key password).
Proof.
  unfold write_pdp_keypair, store_zeroed.
  assert (Hnone : forall c, In ("dk"%string, c)
                               (release "dk" None (PRP_KEY_SIZE L)) ->
                            zeroed c) by (intros c []).
  destruct (failing Getpwuid_write); [intros c []|].
  destruct (failing Alloc_buffers); [exact Hnone|].
  destruct (failing Open_pri); [exact Hnone|].
  destruct (failing Open_pub); [exact Hnone|].
  destruct (PEM_write_PKCS8PrivateKey L _ _) as [pem|]; [|exact Hnone].
  destruct rand as [bytes|]; [|exact Hnone].
  destruct (PBKDF2 (HMAC L) _ _ 10000 _) as [dk|] eqn:Edk; [|exact Hnone].
  apply PBKDF2_length in Edk; [|lia]. rewrite Nat2Z.id in Edk.
  assert (Hdk : forall c, In ("dk"%string, c)
                             (release "dk" (Some dk) (PRP_KEY_SIZE L)) ->
                          zeroed c).
  { intros c Hin. eapply release_dk_zeroed; [|exact Hin].
    intros d Hd. injection Hd as <-. exact Edk. }
  destruct (nist_key_wrap _ _ _ _ _) as [enc_v|]; [|exact Hdk].
  destruct (failing Write_salt); [exact Hdk|].
  destruct (failing Write_enc_v); [exact Hdk|].
  destruct (PEM_write_RSAPublicKey L _) as [pem2|]; [|exact Hdk].
  destruct (failing Alloc_gen); [exact Hdk|].
  destruct (_ =? _)%nat; exact Hdk.
Qed.

End KeyStoreZeroing.

(** *** The passphrase loop ends *)

Lemma read_password_loop_rest (input : list tty_event) :
  forall buf ctr bufsize ok buf' rest,
    read_password_loop input buf ctr bufsize = (ok, buf', rest) ->
    (length rest <= length input)%nat /\
    (ok = true -> input <> [] -> (length rest < length input)%nat).
Proof.
  induction input as [|ev input IH]; intros buf ctr bufsize ok buf' rest H;
    simpl in H; destruct (bufsize <=? ctr)%nat.
  - injection H as <- <- <-. split; [lia | congruence].
  - injection H as <- <- <-. split; [simpl; lia | congruence].
  - injection H as <- <- <-. split; [lia | discriminate].
  - destruct ev as [ch|].
    + destruct (Byte.eqb ch Byte.x0a).
      * injection H as <- <- <-. simpl. split; intros; lia.
      * apply IH in H. destruct H as [Hle _]. simpl. split; intros; lia.
    + injection H as <- <- <-. simpl. split; [lia | discriminate].
Qed.

Lemma passphrase_loop_total (fuel : nat) :
  forall input,
    (length input < fuel)%nat ->
    exists r, passphrase_loop fuel (Some input) (memset Byte.x00 1024)
                              (memset Byte.x00 1024) = Some r.
Proof.
  induction fuel as [|fuel IH]; intros input Hfuel; [lia|].
  cbn [passphrase_loop]. unfold read_password.
  destruct (read_password_loop input (memset Byte.x00 1024) 0 1024)
    as [[ok1 p1] rest1] eqn:E1.
  destruct ok1; cbn [negb]; [|eexists; reflexivity].
  destruct (read_password_loop rest1 (memset Byte.x00 1024) 0 1024)
    as [[ok2 p2] rest2] eqn:E2.
  destruct ok2; cbn [negb]; [|eexists; reflexivity].
  destruct (list_eq_dec Byte.byte_eq_dec (c_string p1) (c_string p2))
    as [Heq | Hne]; [eexists; reflexivity|].
  apply IH.
  pose proof (read_password_loop_rest _ _ _ _ _ _ _ E1) as [Hle1 Hlt1].
  pose proof (read_password_loop_rest _ _ _ _ _ _ _ E2) as [Hle2 _].
  destruct input as [|ev input].
  - exfalso. apply Hne.
    cbn in E1. injection E1 as <- <-. cbn in E2. injection E2 as <-.
    reflexivity.
  - specialize (Hlt1 eq_refl ltac:(discriminate)). lia.
Qed.

Lemma passphrase_loop_ends (term : option (list tty_event)) :
  exists r, passphrase_loop (passphrase_fuel term) term
                            (memset Byte.x00 1024) (memset Byte.x00 1024)
            = Some r.
Proof.
  destruct term as [input|].
  - apply passphrase_loop_total. simpl. lia.
  - simpl. eauto.
Qed.

(** On every path on which [read_pdp_keypair], [read_pdp_keypair_temp] and
    [pdp_create_new_keypair] return, with any of the fallible calls
    failing, every passphrase buffer of the function is left holding zeros
    (or was never written), and every derived key [dk] that is released
    was zeroed over its whole length before.  The passphrase handed to
    [read_pdp_keypair_temp] has to fit its buffer; the key creation always
    ends, and it fails to return only when [getpwuid] fails inside
    [write_pdp_keypair]. *)
Lemma secrets_zeroed_on_return (L : platform) (failing : fault -> bool)
      (term : option (list tty_event)) (pri_key pub_key : option FILE)
      (password_in : list byte) (keys_exist : bool) (answer : byte)
      (generated : option PDP_key) (rand : option (list byte)) :
  load_zeroed (read_pdp_keypair L failing term pri_key pub_key) /\
  ((length (c_string password_in) < 1024)%nat ->
   load_zeroed (read_pdp_keypair_temp L failing pri_key pub_key password_in)) /\
  exists r,
    pdp_create_new_keypair L failing term keys_exist answer generated rand
    = Some r /\
    (c_crashed r = false -> create_zeroed r) /\
    (c_crashed r = true -> failing Getpwuid_write = true).
Proof.
  split; [apply read_pdp_keypair_zeroed|].
  split.
  { intros Hlen. apply read_pdp_keypair_temp_zeroed.
    apply read_pdp_keypair_temp_in_bounds. exact Hlen. }
  unfold pdp_create_new_keypair.
  assert (Hclean : forall st,
             (forall s, st = Some s -> store_zeroed s) ->
             create_zeroed {| c_key := None;
                              c_password1 := memset Byte.x00 1024;
                              c_password2 := memset Byte.x00 1024;
                              c_store := st;
                              c_crashed := false |}).
  { intros st Hst. split; [apply zeroed_memset|].
    split; [apply zeroed_memset | exact Hst]. }
  assert (Hnone : forall s : store_result, None = Some s -> store_zeroed s)
    by discriminate.
  assert (Hret : forall st,
             (forall s, st = Some s -> store_zeroed s) ->
             exists r,
               Some {| c_key := None;
                       c_password1 := memset Byte.x00 1024;
                       c_password2 := memset Byte.x00 1024;
                       c_store := st;
                       c_crashed := false |} = Some r /\
               (c_crashed r = false -> create_zeroed r) /\
               (c_crashed r = true -> failing Getpwuid_write = true)).
  { intros st Hst. eexists. split; [reflexivity|].
    split; [intros _; apply Hclean; exact Hst | discriminate]. }
  destruct (failing Getpwuid); [apply Hret, Hnone|].
  destruct (keys_exist && negb (Byte.eqb answer Byte.x79));
    [apply Hret, Hnone|].
  destruct (passphrase_loop_ends term) as [[[ok p1] p2] ->].
  destruct ok; [|apply Hret, Hnone].
  destruct generated as [key|]; [|apply Hret, Hnone].
  assert (Hst : forall s,
             Some (write_pdp_keypair L failing rand key p1) = Some s ->
             store_zeroed s).
  { intros s Hs. injection Hs as <-. apply write_pdp_keypair_zeroed. }
  destruct (s_crashed _) eqn:Ecrash.
  - eexists. split; [reflexivity|]. cbn [c_crashed].
    split; [discriminate|]. intros _.
    revert Ecrash. unfold write_pdp_keypair.
    destruct (failing Getpwuid_write); [reflexivity|].
    repeat match goal with
           | |- context [match ?x with _ => _ end] => destruct x
           end; discriminate.
  - destruct (s_rc _ =? 0); [apply Hret, Hst|].
    eexists. split; [reflexivity|]. cbn [c_crashed].
    split; [intros _ | discriminate].
    split; [apply zeroed_memset|]. split; [apply zeroed_memset | exact Hst].
Qed.

(** *** Strings, streams and big numbers *)

Lemma c_string_app_nul (P rest : list byte) :
  ~ In Byte.x00 P -> c_string (P ++ Byte.x00 :: rest) = P.
Proof.
  induction P as [|a P IH]; intros Hnul; [reflexivity|].
  cbn [app c_string].
  destruct (Byte.eqb a Byte.x00) eqn:Ea.
  - exfalso. apply Hnul. left. symmetry. apply Byte.byte_dec_bl. exact Ea.
  - rewrite IH; [reflexivity|]. intros Hin. apply Hnul. right. exact Hin.
Qed.

Lemma c_string_no_nul (P : list byte) : ~ In Byte.x00 P -> c_string P = P.
Proof.
  induction P as [|a P IH]; intros Hnul; [reflexivity|].
  cbn [c_string].
  destruct (Byte.eqb a Byte.x00) eqn:Ea.
  - exfalso. apply Hnul. left. symmetry. apply Byte.byte_dec_bl. exact Ea.
  - rewrite IH; [reflexivity|]. intros Hin. apply Hnul. right. exact Hin.
Qed.

Lemma store_at (pre post : list byte) (b : byte) :
  store (pre ++ post) (length pre) b = pre ++ b :: skipn 1 post.
Proof.
  unfold store. rewrite (firstn_length_app pre post _ eq_refl).
  f_equal. cbn [app]. f_equal.
  change (S (length pre)) with (1 + length pre)%nat.
  rewrite <- skipn_skipn.
  rewrite (skipn_length_app pre post _ eq_refl). reflexivity.
Qed.

Lemma read_password_loop_typed (bufsize : nat) (P : list byte) :
  forall pre post,
    ~ In Byte.x0a P -> (length pre + length P < bufsize)%nat ->
    read_password_loop (typed P) (pre ++ post) (length pre) bufsize
    = (true, pre ++ P ++ Byte.x00 :: skipn (S (length P)) post, []).
Proof.
  unfold typed.
  induction P as [|a P IH]; intros pre post Hnl Hlen.
  - cbn [app map read_password_loop length].
    destruct (Nat.leb_spec bufsize (length pre)); [simpl in Hlen; lia|].
    change (Byte.eqb Byte.x0a Byte.x0a) with true. cbn iota.
    rewrite store_at. reflexivity.
  - cbn [app map read_password_loop length].
    destruct (Nat.leb_spec bufsize (length pre)); [simpl in Hlen; lia|].
    destruct (Byte.eqb a Byte.x0a) eqn:Ea.
    { exfalso. apply Hnl. left. symmetry. apply Byte.byte_dec_bl. exact Ea. }
    rewrite store_at.
    replace (pre ++ a :: skipn 1 post) with ((pre ++ [a]) ++ skipn 1 post)
      by (rewrite <- app_assoc; reflexivity).
    replace (S (length pre)) with (length (pre ++ [a]))
      by (rewrite length_app; simpl; lia).
    rewrite IH.
    + rewrite <- app_assoc. cbn [app]. rewrite skipn_skipn.
      replace (S (length P) + 1)%nat with (S (S (length P))) by lia.
      reflexivity.
    + intros Hin. apply Hnl. right. exact Hin.
    + rewrite length_app. simpl in Hlen |- *. lia.
Qed.

(** Typing a passphrase at the prompt leaves it, as a C string, in the
    buffer. *)
Lemma read_password_typed (P buf : list byte) :
  passphrase_ok P ->
  exists buf' rest,
    read_password (Some (typed P)) buf 1024 = (true, buf', rest) /\
    c_string buf' = P.
Proof.
  intros (Hnul & Hnl & Hlen). unfold read_password.
  pose proof (read_password_loop_typed 1024 P [] buf Hnl) as H.
  cbn [app length] in H. rewrite H by (simpl; lia).
  do 2 eexists. split; [reflexivity|].
  apply c_string_app_nul. exact Hnul.
Qed.

Lemma fread_exact (buf a rest : list byte) (n : nat) :
  length a = n -> length buf = n -> fread buf n (a ++ rest) = (a, rest).
Proof.
  intros Ha Hb. unfold fread.
  rewrite (firstn_length_app a rest n Ha), (skipn_length_app a rest n Ha).
  f_equal. unfold memcpy. cbn [firstn app Nat.add].
  rewrite firstn_all, skipn_all2 by lia. apply app_nil_r.
Qed.

Lemma be_decode_snoc (l : list byte) (b : byte) (a : Z) :
  fold_left (fun acc b => acc * 256 + byte.unsigned b) (l ++ [b]) a
  = fold_left (fun acc b => acc * 256 + byte.unsigned b) l a * 256
    + byte.unsigned b.
Proof. rewrite fold_left_app. reflexivity. Qed.

Lemma be_decode_encode (n : nat) :
  forall z, 0 <= z ->
    fold_left (fun acc b => acc * 256 + byte.unsigned b) (be_encode n z) 0
    = z mod 256 ^ Z.of_nat n.
Proof.
  induction n as [|n IH]; intros z Hz.
  - simpl. rewrite Z.mod_1_r. reflexivity.
  - cbn [be_encode]. rewrite be_decode_snoc, IH by (apply Z.div_pos; lia).
    rewrite byte.unsigned_of_Z. unfold byte.wrap.
    rewrite Nat2Z.inj_succ, Z.pow_succ_r by lia.
    change (2 ^ 8) with 256.
    rewrite (Z.rem_mul_r z 256 (256 ^ Z.of_nat n)) by lia. lia.
Qed.

Lemma BN_num_bytes_bound (a : N) :
  Z.of_N a < 256 ^ Z.of_nat (BN_num_bytes a).
Proof.
  unfold BN_num_bytes.
  pose proof (N.size_gt a) as Hs.
  apply N2Z.inj_lt in Hs. rewrite N2Z.inj_pow in Hs.
  change (Z.of_N 2) with 2 in Hs.
  set (sz := N.to_nat (N.size a)) in *.
  replace (Z.of_N (N.size a)) with (Z.of_nat sz) in Hs
    by (unfold sz; rewrite N_nat_Z; reflexivity).
  change 256 with (2 ^ 8). rewrite <- Z.pow_mul_r by lia.
  eapply Z.lt_le_trans; [exact Hs|].
  apply Z.pow_le_mono_r; [lia|].
  pose proof (Nat.div_mod (sz + 7) 8 ltac:(lia)) as Hd.
  pose proof (Nat.mod_upper_bound (sz + 7) 8 ltac:(lia)) as Hm.
  lia.
Qed.

Lemma BN_bin2bn_bn2bin (a : N) : BN_bin2bn (BN_bn2bin a) = a.
Proof.
  unfold BN_bin2bn, BN_bn2bin.
  rewrite be_decode_encode by lia.
  rewrite Z.mod_small by (split; [lia | apply BN_num_bytes_bound]).
  apply N2Z.id.
Qed.

Lemma be_encode_length (n : nat) (z : Z) : length (be_encode n z) = n.
Proof.
  revert z. induction n as [|n IH]; intros z; [reflexivity|].
  cbn [be_encode]. rewrite length_app, IH. simpl. lia.
Qed.

Lemma le_encode_length (n : nat) (z : Z) : length (le_encode n z) = n.
Proof.
  revert z. induction n as [|n IH]; intros z; [reflexivity|].
  cbn [le_encode length]. rewrite IH. reflexivity.
Qed.

Lemma le_decode_encode (n : nat) :
  forall z, le_decode (le_encode n z) = z mod 256 ^ Z.of_nat n.
Proof.
  unfold le_decode.
  induction n as [|n IH]; intros z.
  - simpl. rewrite Z.mod_1_r. reflexivity.
  - cbn [le_encode fold_right]. rewrite IH.
    rewrite byte.unsigned_of_Z. unfold byte.wrap.
    rewrite Nat2Z.inj_succ, Z.pow_succ_r by lia.
    change (2 ^ 8) with 256.
    rewrite (Z.rem_mul_r z 256 (256 ^ Z.of_nat n)) by lia. reflexivity.
Qed.

(** *** Persisting, then loading *)

Lemma fread_length (buf f : list byte) (n : nat) :
  (n <= length buf)%nat -> length (fst (fread buf n f)) = length buf.
Proof.
  intros H. unfold fread. cbn [fst]. apply memcpy_length.
  - rewrite length_firstn. lia.
  - lia.
Qed.

Section KeyStoreRoundTrip.

Variable L : platform.
Hypothesis L_ok : platform_ok L.

(** What a successful [write_pdp_keypair] has computed and written. *)
Lemma write_pdp_keypair_success failing rand K P :
  s_rc (write_pdp_keypair L failing rand K P) = 1 ->
  exists pem bytes dk enc_v pem2,
    PEM_write_PKCS8PrivateKey L (PKEY_RSA (pdp_rsa K)) (c_string P) = Some pem /\
    rand = Some bytes /\
    PBKDF2 (HMAC L) (c_string P)
           (fst (fread (memset Byte.x00 (PRF_KEY_SIZE L)) (PRF_KEY_SIZE L) bytes))
           10000 (Z.of_nat (PRP_KEY_SIZE L)) = Some dk /\
    nist_key_wrap (AES_encrypt L)
      (Some (memcpy (memset Byte.x00 32) 0 (pdp_v K) (PRF_KEY_SIZE L))) 32
      (Some dk) (Z.of_nat (PRP_KEY_SIZE L)) = Some enc_v /\
    PEM_write_RSAPublicKey L (pdp_rsa K) = Some pem2 /\
    s_pri (write_pdp_keypair L failing rand K P)
    = Some ((pem ++ firstn (PRF_KEY_SIZE L)
                      (fst (fread (memset Byte.x00 (PRF_KEY_SIZE L))
                                  (PRF_KEY_SIZE L) bytes)))
            ++ firstn 40 enc_v) /\
    s_pub (write_pdp_keypair L failing rand K P)
    = Some ((pem2 ++ le_encode 8 (Z.of_nat (BN_num_bytes (pdp_g K))))
            ++ BN_bn2bin (pdp_g K)).
Proof.
  unfold write_pdp_keypair. cbv zeta.
  destruct (failing Getpwuid_write); [discriminate|].
  destruct (failing Alloc_buffers); [discriminate|].
  destruct (failing Open_pri); [discriminate|].
  destruct (failing Open_pub); [discriminate|].
  destruct (PEM_write_PKCS8PrivateKey L _ _) as [pem|] eqn:Epem;
    [|discriminate].
  destruct rand as [bytes|]; [|discriminate].
  destruct (PBKDF2 _ _ _ _ _) as [dk|] eqn:Edk; [|discriminate].
  destruct (nist_key_wrap _ _ _ _ _) as [enc_v|] eqn:Eenc; [|discriminate].
  destruct (failing Write_salt); [discriminate|].
  destruct (failing Write_enc_v); [discriminate|].
  destruct (PEM_write_RSAPublicKey L _) as [pem2|] eqn:Epub; [|discriminate].
  destruct (failing Alloc_gen); [discriminate|].
  destruct (_ =? _)%nat; [discriminate|].
  intros _. exists pem, bytes, dk, enc_v, pem2.
  repeat apply conj; try reflexivity; assumption.
Qed.

Lemma padded_secret_length (K : PDP_key) :
  length (pdp_v K) = PRF_KEY_SIZE L ->
  length (memcpy (memset Byte.x00 32) 0 (pdp_v K) (PRF_KEY_SIZE L)) = 32%nat.
Proof.
  intros Hv. pose proof (ok_PRF L L_ok).
  rewrite memcpy_length; [reflexivity | simpl; lia | lia].
Qed.

Lemma padded_secret_prefix (K : PDP_key) :
  length (pdp_v K) = PRF_KEY_SIZE L ->
  memcpy (memset Byte.x00 (PRF_KEY_SIZE L)) 0
         (memcpy (memset Byte.x00 32) 0 (pdp_v K) (PRF_KEY_SIZE L))
         (PRF_KEY_SIZE L)
  = pdp_v K.
Proof.
  intros Hv. unfold memcpy at 1. cbn [firstn app Nat.add].
  rewrite skipn_all2 by (unfold memset; rewrite repeat_length; lia).
  rewrite app_nil_r. unfold memcpy. cbn [firstn app Nat.add].
  rewrite (firstn_all2 (n := PRF_KEY_SIZE L) (pdp_v K)) by lia.
  apply firstn_length_app. exact Hv.
Qed.

(** Loading what was persisted, once the passphrase is in the buffer. *)
Lemma load_with_password_persisted failing rand K P pri pub password out :
  generated_key L K ->
  persisted L failing rand K P pri pub ->
  c_string password = c_string P ->
  l_key (load_with_password L no_fault pri pub password out) = Some K.
Proof.
  intros (Hcheck & Hv & Hgen) (Hrc & Hpri & Hpub) Hpw.
  destruct (write_pdp_keypair_success failing rand K P Hrc)
    as (pem & bytes & dk & enc_v & pem2 & Hpem & -> & Hdk & Henc & Hpem2
        & Hpri' & Hpub').
  rewrite Hpri' in Hpri. rewrite Hpub' in Hpub. clear Hpri' Hpub'.
  apply (f_equal (fun o => match o with Some x => x | None => pri end)) in Hpri.
  apply (f_equal (fun o => match o with Some x => x | None => pub end)) in Hpub.
  cbv beta iota in Hpri, Hpub. subst pri pub.
  set (salt := fst (fread (memset Byte.x00 (PRF_KEY_SIZE L))
                          (PRF_KEY_SIZE L) bytes)) in *.
  assert (Hsalt : length salt = PRF_KEY_SIZE L).
  { unfold salt. rewrite fread_length; unfold memset;
      rewrite repeat_length; lia. }
  pose proof (PBKDF2_length _ _ _ _ _ _ (Nat2Z.is_nonneg _) Hdk) as Hdklen.
  rewrite Nat2Z.id in Hdklen.
  assert (HPRP : In (Z.of_nat (PRP_KEY_SIZE L)) [16; 24; 32]).
  { pose proof (ok_PRP L L_ok) as H. simpl in H |- *.
    destruct H as [<- | [<- | [<- | []]]]; auto. }
  destruct (nist_key_unwrap_wrap (AES_encrypt L) (AES_decrypt L)
              (ok_AES_length L L_ok) (ok_AES_inverse L L_ok)
              (memcpy (memset Byte.x00 32) 0 (pdp_v K) (PRF_KEY_SIZE L)) dk
              32 (Z.of_nat (PRP_KEY_SIZE L)))
    as (ct & Hwrap & Hctlen & Hunwrap).
  { lia. }
  { rewrite padded_secret_length by exact Hv. simpl. lia. }
  { exact HPRP. }
  { lia. }
  rewrite Henc in Hwrap. injection Hwrap as <-.
  change (8 * (32 / 8) + 8) with 40 in Hctlen.
  change (32 + 8) with 40 in Hunwrap.
  change (Z.to_nat (8 * (32 / 8))) with 32%nat in Hunwrap.
  rewrite firstn_all2 in Hunwrap by (rewrite padded_secret_length; auto).
  (* the private key file *)
  unfold load_with_password.
  rewrite (firstn_all2 (n := PRF_KEY_SIZE L) salt) by lia.
  rewrite (firstn_all2 (n := 40%nat) enc_v) by lia.
  rewrite <- app_assoc.
  rewrite Hpw, (ok_PEM_private L L_ok _ _ _ _ Hpem).
  cbn [EVP_PKEY_get1_RSA]. rewrite Hcheck. cbn [negb no_fault].
  rewrite (fread_exact _ salt enc_v (PRF_KEY_SIZE L) Hsalt)
    by (unfold memset; apply repeat_length).
  rewrite <- (app_nil_r enc_v) at 1.
  rewrite (fread_exact _ enc_v [] 40) by (reflexivity || lia).
  rewrite Hdk, Hunwrap.
  (* the public key file *)
  rewrite <- app_assoc.
  destruct (ok_PEM_public L L_ok _ _
              (le_encode 8 (Z.of_nat (BN_num_bytes (pdp_g K)))
               ++ BN_bn2bin (pdp_g K)) Hpem2) as [rsa' ->].
  rewrite (fread_exact _ _ _ 8 (le_encode_length 8 _)) by reflexivity.
  rewrite le_decode_encode.
  rewrite Z.mod_small by (change (256 ^ Z.of_nat 8) with (2 ^ 64); lia).
  rewrite Nat2Z.id.
  rewrite <- (app_nil_r (BN_bn2bin (pdp_g K))) at 1.
  rewrite (fread_exact _ (BN_bn2bin (pdp_g K)) [] (BN_num_bytes (pdp_g K)))
    by (unfold BN_bn2bin, memset;
        (apply be_encode_length || apply repeat_length)).
  cbn [l_key]. rewrite padded_secret_prefix by exact Hv.
  rewrite BN_bin2bn_bn2bin. destruct K. reflexivity.
Qed.

End KeyStoreRoundTrip.

(** C1. A generated key persisted by [write_pdp_keypair] under a passphrase
    and loaded by [read_pdp_keypair] with the same passphrase typed at the
    prompt comes back equal: the RSA parameters, the PRF secret [v] and the
    generator [g]. *)
Theorem keystore_roundtrip (L : platform) (failing : fault -> bool)
        (rand : option (list byte)) (K : PDP_key) (P pri pub : list byte) :
  platform_ok L -> generated_key L K -> passphrase_ok P ->
  persisted L failing rand K P pri pub ->
  l_key (read_pdp_keypair L no_fault (Some (typed P)) (Some pri) (Some pub))
  = Some K.
Proof.
  intros HL HK HP Hw.
  unfold read_pdp_keypair, load_prologue. cbn [no_fault].
  destruct (read_password_typed P (memset Byte.x00 1024) HP)
    as (buf & rest & -> & Hbuf).
  cbn [negb].
  apply (load_with_password_persisted L HL failing rand K P); try assumption.
  rewrite Hbuf. symmetry. apply c_string_no_nul. apply HP.
Qed.

(** *** A passphrase other than the one the key was stored under

    [read_pdp_keypair] compares no passphrases itself.  What it returns
    under a passphrase other than the one the key was stored under is
    decided by two checks: [PEM_read_PrivateKey] has to decrypt the private
    key under it, and the key unwrap has to accept the wrapped secret under
    the key derived from it.  Both key their cipher with a hash of the
    passphrase, and a hash does not tell all passphrases apart: the key
    that [PBKDF2] derives with HMAC-SHA1 is the same for a passphrase of
    more than 64 characters and for its SHA-1 digest.  That no second
    passphrase passes both checks is a property of the hash functions and
    the ciphers, which their functional contract does not give. *)

(** The first check: a key is returned only when the PEM reader has
    decrypted the private key under the passphrase. *)
Lemma load_requires_decryption (L : platform) (failing : fault -> bool)
      (pri pub password : list byte) (out : list (list byte)) (K : PDP_key) :
  l_key (load_with_password L failing pri pub password out) = Some K ->
  exists pkey rest,
    PEM_read_PrivateKey L pri (c_string password) = Some (pkey, rest).
Proof.
  unfold load_with_password.
  destruct (PEM_read_PrivateKey L pri (c_string password)) as [[pkey pri1]|];
    [|discriminate].
  intros _. eauto.
Qed.

(** The second check: a key is returned only when the key unwrap has
    accepted the wrapped secret read from the file, that is when the
    recovered integrity value is the constant. *)
Lemma load_requires_integrity (L : platform) (failing : fault -> bool)
      (pri pub password : list byte) (out : list (list byte)) (K : PDP_key) :
  l_key (load_with_password L failing pri pub password out) = Some K ->
  exists enc_v dk key_v,
    nist_key_unwrap (AES_decrypt L) (Some enc_v) 40 (Some dk)
                    (Z.of_nat (PRP_KEY_SIZE L)) = Some key_v /\
    pdp_v K = memcpy (memset Byte.x00 (PRF_KEY_SIZE L)) 0 key_v
                     (PRF_KEY_SIZE L).
Proof.
  unfold load_with_password.
  destruct (PEM_read_PrivateKey L pri (c_string password)) as [[pkey pri1]|];
    [|discriminate].
  destruct (EVP_PKEY_get1_RSA pkey) as [rsa|]; [|discriminate].
  destruct (negb _); [discriminate|].
  destruct (fread _ _ pri1) as [salt pri2].
  destruct (failing Read_salt); [discriminate|].
  destruct (fread _ 40 pri2) as [enc_v pri3].
  destruct (failing Read_enc_v); [discriminate|].
  destruct (PBKDF2 _ _ _ _ _) as [dk|]; [|discriminate].
  destruct (nist_key_unwrap _ _ _ _ _) as [key_v|] eqn:Eu; [|discriminate].
  destruct (PEM_read_RSAPublicKey L pub) as [[rsa' pub1]|]; [|discriminate].
  destruct (fread _ 8 pub1) as [gen_size pub2].
  destruct (failing Alloc_gen); [discriminate|].
  destruct (fread _ _ pub2) as [gen pub3].
  destruct (failing BN_failure); [discriminate|].
  cbn [l_key]. intros HK.
  exists enc_v, dk, key_v. split; [exact Eu|].
  apply (f_equal (fun o => match o with Some k => pdp_v k | None => [] end))
    in HK. cbn [pdp_v] in HK. symmetry. exact HK.
Qed.

(** The key derived from a passphrase depends on the passphrase through
    the pseudorandom function only. *)
Lemma PBKDF2_F_loop_same_prf (HMAC : list byte -> list byte -> list byte)
      (p q : list byte) :
  (forall d, HMAC p d = HMAC q d) ->
  forall n T U, PBKDF2_F_loop HMAC p n T U = PBKDF2_F_loop HMAC q n T U.
Proof.
  intros H n. induction n as [|n IH]; intros T U; [reflexivity|].
  cbn [PBKDF2_F_loop]. rewrite H.
  destruct (negb _); [reflexivity | apply IH].
Qed.

Lemma PBKDF2_loop_same_prf (HMAC : list byte -> list byte -> list byte)
      (p q salt : list byte) (c : Z) :
  (forall T i, PBKDF2_F HMAC T p salt (to_int c) i
               = PBKDF2_F HMAC T q salt (to_int c) i) ->
  forall idx T dk remaining,
    PBKDF2_loop HMAC p salt c idx T dk remaining
    = PBKDF2_loop HMAC q salt c idx T dk remaining.
Proof.
  intros HF idx. induction idx as [|i idx IH]; intros T dk remaining;
    [reflexivity|].
  cbn [PBKDF2_loop]. rewrite HF.
  destruct (PBKDF2_F HMAC T q salt (to_int c) (Z.of_nat i)) as [T'|];
    [|reflexivity].
  destruct (SHA_DIGEST_LENGTH <=? remaining); apply IH.
Qed.

Lemma PBKDF2_same_prf (HMAC : list byte -> list byte -> list byte)
      (p q salt : list byte) (c dkey_len : Z) :
  (forall d, HMAC p d = HMAC q d) ->
  p <> [] -> q <> [] ->
  PBKDF2 HMAC p salt c dkey_len = PBKDF2 HMAC q salt c dkey_len.
Proof.
  intros H Hp Hq.
  assert (Hp0 : (length p =? 0)%nat = false)
    by (destruct p; [contradiction | reflexivity]).
  assert (Hq0 : (length q =? 0)%nat = false)
    by (destruct q; [contradiction | reflexivity]).
  assert (HF : forall T i, PBKDF2_F HMAC T p salt (to_int c) i
                           = PBKDF2_F HMAC T q salt (to_int c) i).
  { intros T i. unfold PBKDF2_F. rewrite Hp0, Hq0, H.
    rewrite (PBKDF2_F_loop_same_prf HMAC p q H). reflexivity. }
  unfold PBKDF2. rewrite Hp0, Hq0. cbn [orb].
  destruct ((length salt =? 0)%nat || (c =? 0) || (dkey_len =? 0));
    [reflexivity|].
  apply PBKDF2_loop_same_prf. exact HF.
Qed.

(** HMAC-SHA1 replaces a key of more than 64 bytes by its digest. *)
Lemma HMAC_SHA1_long_key (key data : list byte) :
  (64 < length key)%nat -> HMAC_SHA1 (SHA1 key) data = HMAC_SHA1 key data.
Proof.
  intros H. unfold HMAC_SHA1. rewrite SHA1_length.
  change (64 <? 20)%nat with false. cbv iota.
  destruct (Nat.ltb_spec 64 (length key)) as [_|Hle]; [reflexivity | lia].
Qed.

(** The key that protects the wrapped secret is the same for a passphrase
    of more than 64 characters and for its SHA-1 digest: the key unwrap
    alone does not tell the two apart. *)
Lemma derived_key_of_long_passphrase (P salt : list byte) (c dkey_len : Z) :
  (64 < length P)%nat ->
  PBKDF2 HMAC_SHA1 (SHA1 P) salt c dkey_len = PBKDF2 HMAC_SHA1 P salt c dkey_len.
Proof.
  intros H. apply PBKDF2_same_prf.
  - intros d. apply HMAC_SHA1_long_key. exact H.
  - intros E. apply (f_equal (@length byte)) in E.
    rewrite SHA1_length in E. discriminate E.
  - intros E. subst P. simpl in H. lia.
Qed.

(** *** The test platform meets the contract *)

Lemma small_byte (z : Z) : small z = true -> byte.unsigned (byte.of_Z z) = z.
Proof.
  unfold small. intros H. apply andb_prop in H. destruct H as [H0 H1].
  apply Z.leb_le in H0. apply Z.ltb_lt in H1.
  rewrite byte.unsigned_of_Z. apply Z.mod_small. change (2 ^ 8) with 256. lia.
Qed.

Lemma test_PEM_private_layout (r : RSA) (P pem : list byte) :
  test_PEM_write_private (PKEY_RSA r) P = Some pem ->
  forallb small (rsa_fields r) = true /\
  pem = byte.of_Z (Z.of_nat (length P)) :: P ++ map byte.of_Z (rsa_fields r) /\
  Z.to_nat (byte.unsigned (byte.of_Z (Z.of_nat (length P)))) = length P.
Proof.
  unfold test_PEM_write_private.
  destruct (forallb small (rsa_fields r)) eqn:Ef; [|discriminate].
  destruct (length P <? 256)%nat eqn:El; [|discriminate].
  cbn [andb]. intros H.
  assert (pem = byte.of_Z (Z.of_nat (length P))
                :: P ++ map byte.of_Z (rsa_fields r)) by congruence.
  apply Nat.ltb_lt in El.
  split; [reflexivity|]. split; [assumption|].
  rewrite byte.unsigned_of_Z. unfold byte.wrap.
  rewrite Z.mod_small by (change (2 ^ 8) with 256; lia).
  apply Nat2Z.id.
Qed.

Lemma test_rsa_of_fields (r : RSA) :
  forallb small (rsa_fields r) = true ->
  test_rsa_of_bytes (map byte.of_Z (rsa_fields r)) = Some r.
Proof.
  intros H. destruct r as [n e d p q dmp1 dmq1 iqmp].
  cbn [rsa_fields forallb rsa_n rsa_e rsa_d rsa_p rsa_q
       rsa_dmp1 rsa_dmq1 rsa_iqmp] in *.
  repeat (apply andb_prop in H; let Hs := fresh "Hs" in destruct H as [Hs H]).
  unfold test_rsa_of_bytes.
  cbn [map rsa_fields rsa_n rsa_e rsa_d rsa_p rsa_q rsa_dmp1 rsa_dmq1 rsa_iqmp].
  rewrite !small_byte by assumption. reflexivity.
Qed.

Lemma test_PEM_private_roundtrip pkey P pem rest :
  test_PEM_write_private pkey P = Some pem ->
  test_PEM_read_private (pem ++ rest) P = Some (pkey, rest).
Proof.
  destruct pkey as [r|]; [|discriminate].
  intros H. apply test_PEM_private_layout in H.
  destruct H as (Hsmall & -> & Hlen).
  cbn [app test_PEM_read_private]. rewrite Hlen, <- app_assoc.
  rewrite (firstn_length_app P _ _ eq_refl),
          (skipn_length_app P _ _ eq_refl).
  destruct (list_eq_dec Byte.byte_eq_dec P P) as [_|Hne]; [|contradiction].
  rewrite (firstn_length_app (map byte.of_Z (rsa_fields r)) rest 8 eq_refl).
  rewrite (skipn_length_app (map byte.of_Z (rsa_fields r)) rest 8 eq_refl).
  rewrite test_rsa_of_fields by exact Hsmall. reflexivity.
Qed.

Lemma test_PEM_public_roundtrip rsa pem rest :
  test_PEM_write_public rsa = Some pem ->
  exists rsa', test_PEM_read_public (pem ++ rest) = Some (rsa', rest).
Proof.
  unfold test_PEM_write_public.
  destruct (small (rsa_n rsa) && small (rsa_e rsa)); [|discriminate].
  intros H.
  assert (pem = [byte.of_Z (rsa_n rsa); byte.of_Z (rsa_e rsa)]) by congruence.
  subst pem. cbn [app test_PEM_read_public]. eexists. reflexivity.
Qed.

Lemma test_platform_ok : platform_ok test_platform.
Proof.
  constructor; cbn [test_platform PRP_KEY_SIZE PRF_KEY_SIZE AES_encrypt
                    AES_decrypt PEM_write_PKCS8PrivateKey PEM_read_PrivateKey
                    PEM_write_RSAPublicKey PEM_read_RSAPublicKey].
  - left. reflexivity.
  - lia.
  - apply test_encrypt_length.
  - apply test_decrypt_encrypt.
  - apply test_PEM_private_roundtrip.
  - apply test_PEM_public_roundtrip.
Qed.

Lemma test_key_generated : generated_key test_platform test_key.
Proof. repeat apply conj; reflexivity. Qed.

Lemma test_passphrase_ok (s : string) :
  forallb (fun b => negb (Byte.eqb b Byte.x00) && negb (Byte.eqb b Byte.x0a))
          (bytes_of_string s) = true ->
  (length (bytes_of_string s) < 1024)%nat ->
  passphrase_ok (bytes_of_string s).
Proof.
  intros Hall Hlen. rewrite forallb_forall in Hall.
  split; [|split; [|exact Hlen]]; intros Hin; apply Hall in Hin;
    discriminate Hin.
Qed.

Lemma test_passphrase_valid : passphrase_ok test_passphrase.
Proof. apply test_passphrase_ok; [reflexivity | simpl; lia]. Qed.

Lemma test_key_persisted :
  persisted test_platform no_fault (Some test_salt) test_key test_passphrase
            test_pri test_pub.
Proof. unfold persisted. cbv zeta. split; [|split]; vm_compute; reflexivity. Qed.

Lemma keystore_roundtrip_witness :
  l_key (read_pdp_keypair test_platform no_fault
           (Some (typed test_passphrase)) (Some test_pri) (Some test_pub))
  = Some test_key.
Proof.
  exact (keystore_roundtrip test_platform no_fault (Some test_salt) test_key
           test_passphrase test_pri test_pub
           test_platform_ok test_key_generated test_passphrase_valid
           test_key_persisted).
Defined.

(** ** The cluster adder *)

Module adder_theory.
Import adder.

(** Membership of an event in an explicit list of other events is
    refuted by comparing the constructors. *)
Ltac only_logs :=
  unfold quiet, not; repeat split; intros;
  repeat match goal with
         | H : In _ (_ ++ _) |- _ => apply in_app_or in H; destruct H as [H | H]
         | H : In _ (_ :: _) |- _ => destruct H as [H | H]; [discriminate H|]
         | H : In _ [] |- _ => destruct H
         end.

Section Runs.

Variable w : world.

(** What the loop over the entries leaves in the trace: the calls of
    [pdp_tag_file] carry the passphrase and the positions from [i] on; the
    loop never finalizes; after a call that returned 1 the loop has left by
    [return cid.Undef, ...] and the entry was not added. *)
Lemma add_entries_trace (a : Adder) (password : string) :
  forall entries i k root t r,
    add_entries w a password entries i k root = (t, r) ->
    (forall j nm p ret, In (TagFile j nm p ret) t -> p = password /\ (i <= j)%nat) /\
    (forall j n, In (AddFile j n) t -> (i <= j)%nat) /\
    (forall c, ~ In (Finalized c) t) /\
    (forall j nm p, In (TagFile j nm p 1) t ->
                    (forall n, ~ In (AddFile j n) t) /\
                    exists e, r = inl (Return Undef e)).
Proof.
  induction entries as [|[name n] rest IH]; intros i k root t r H.
  - cbn [add_entries] in H. injection H as <- <-.
    repeat split; intros; try contradiction. intros [].
  - cbn [add_entries] in H. cbv zeta in H.
    destruct (tag w name n password =? 1) eqn:Etag.
    + injection H as <- <-. apply Z.eqb_eq in Etag.
      repeat split.
      * destruct H as [H | [H | []]]; [congruence | discriminate].
      * destruct H as [H | [H | []]]; [injection H as <-; lia | discriminate].
      * intros j n0 [H | [H | []]]; discriminate.
      * intros c [H | [H | []]]; discriminate.
      * intros n0 [H0 | [H0 | []]]; discriminate.
      * eauto.
    + apply Z.eqb_neq in Etag.
      destruct (ctx_err w a k) as [e|].
      * injection H as <- <-. repeat split.
        -- destruct H as [H | []]. congruence.
        -- destruct H as [H | []]. injection H as <-. lia.
        -- intros j n0 [H | []]; discriminate.
        -- intros c [H | []]; discriminate.
        -- destruct H as [H | []]. congruence.
        -- destruct H as [H | []]. congruence.
      * destruct (AddAllAndPin w n) as [c|e].
        -- destruct (add_entries w a password rest (S i) (S k) (Some c))
             as [t' r'] eqn:Erest.
           injection H as <- <-.
           destruct (IH _ _ _ _ _ Erest) as (Htag & Hadd & Hfin & Hfail).
           repeat split.
           ++ destruct H as [H | [H | [H | H]]]; try discriminate;
                [congruence | apply Htag in H; apply H].
           ++ destruct H as [H | [H | [H | H]]]; try discriminate;
                [injection H as <-; lia | apply Htag in H; lia].
           ++ intros j n0 [H | [H | [H | H]]]; try discriminate;
                [injection H as <-; lia | apply Hadd in H; lia].
           ++ intros c0 [H | [H | [H | H]]]; try discriminate.
              exact (Hfin c0 H).
           ++ destruct H as [H | [H | [H | H]]]; try discriminate;
                [congruence|].
              intros n0 [H0 | [H0 | [H0 | H0]]]; try discriminate.
              ** apply Htag in H. injection H0 as <-. lia.
              ** exact (proj1 (Hfail _ _ _ H) n0 H0).
           ++ destruct H as [H | [H | [H | H]]]; try discriminate;
                [congruence|].
              exact (proj2 (Hfail _ _ _ H)).
        -- injection H as <- <-. repeat split.
           ++ destruct H as [H | [H | [H | [H | []]]]]; try discriminate.
              congruence.
           ++ destruct H as [H | [H | [H | [H | []]]]]; try discriminate.
              injection H as <-. lia.
           ++ intros j n0 [H | [H | [H | [H | []]]]]; try discriminate.
              injection H as <-. lia.
           ++ intros c [H | [H | [H | [H | []]]]]; discriminate.
           ++ destruct H as [H | [H | [H | [H | []]]]]; try discriminate.
              congruence.
           ++ destruct H as [H | [H | [H | [H | []]]]]; try discriminate.
              congruence.
Qed.

Lemma setup_quiet (a : Adder) : quiet (fst (setup w a)).
Proof.
  unfold setup.
  destruct (NewAdder w); [|destruct (PrefixForCidVersion w _);
                            [|destruct (multihash_Names w _);
                              [destruct (user_Current_ok w)|]]];
    cbn [fst]; only_logs.
Qed.


Lemma finalize_trace (root : option cid) :
  (forall j nm p ret, ~ In (TagFile j nm p ret) (fst (finalize w root))) /\
  (forall j n, ~ In (AddFile j n) (fst (finalize w root))).
Proof.
  unfold finalize. destruct root as [c|]; [destruct (Finalize w c)|];
    cbn [fst]; only_logs.
Qed.

Lemma deferred_trace (a : Adder) (r : list event * outcome) :
  trace_of (deferred a r) = fst r ++ [CloseOutput; Cancel] /\
  outcome_of (deferred a r) = snd r.
Proof. split; reflexivity. Qed.



End Runs.


(** *** Runs that reach the tagging *)

Section ReadyRuns.

Variable w : world.
Variable a : Adder.
Hypothesis Hready : ready w a.

Lemma ready_context (k : nat) : ctx_err w (setContext a) k = None.
Proof.
  destruct Hready as (Hset & Hctx & _).
  unfold ctx_err, setContext. rewrite Hset. cbn [cancelled]. apply Hctx.
Qed.

Lemma ready_setup :
  setup w (setContext a)
  = ([Log Info (String.append "pdpKeyPath:" (pdpkeyPath w));
      Log Info (String.append "pdpTagPath:" (pdptagPath w));
      Log Info (String.append "pdpPassword:" (read_passphrase w))], None).
Proof.
  destruct Hready as (Hset & _ & Hnew & Hprefix & Hhash & Husr).
  unfold setup, setContext. rewrite Hset. cbn [params].
  rewrite Hnew, Hprefix, Husr.
  destruct (multihash_Names w (HashFun (params a))); [reflexivity|].
  contradiction.
Qed.

Lemma ready_entries (f : list (string * node)) :
  entries_of (setContext a) f = entries_of a f.
Proof. unfold entries_of, setContext. destruct (ctx_set a); reflexivity. Qed.

(** Entries that are tagged without the value 1 and added without error
    are passed; the loop goes on with the entries after them. *)
Lemma add_entries_through (password : string) (rest : list (string * node)) :
  forall pre i k root,
    (forall e, In e pre ->
               tag w (fst e) (snd e) password <> 1 /\
               exists c, AddAllAndPin w (snd e) = Ok c) ->
    exists t root',
      add_entries w (setContext a) password (pre ++ rest) i k root
      = (t ++ fst (add_entries w (setContext a) password rest
                               (i + length pre) (k + length pre) root'),
         snd (add_entries w (setContext a) password rest
                          (i + length pre) (k + length pre) root')).
Proof.
  induction pre as [|[name n] pre IH]; intros i k root Hpre.
  - exists [], root. cbn [app length]. rewrite !Nat.add_0_r.
    destruct (add_entries _ _ _ _ _ _ _). reflexivity.
  - destruct (Hpre (name, n) (or_introl eq_refl)) as [Htag [c Hadd]].
    cbn [fst snd] in Htag, Hadd.
    cbn [app add_entries]. cbv zeta.
    apply Z.eqb_neq in Htag. rewrite Htag, ready_context, Hadd.
    destruct (IH (S i) (S k) (Some c)) as (t & root' & ->).
    { intros e He. apply Hpre. right. exact He. }
    cbn [length]. rewrite !Nat.add_succ_r. cbn [Nat.add].
    eexists (_ :: _ :: _ :: t), root'. reflexivity.
Qed.

Lemma FromFile_ready (file : node) (name : string) :
  (tag w name file (read_passphrase w) = 1 ->
   outcome_of (FromFile w a file name) = Return Undef None) /\
  (tag w name file (read_passphrase w) <> 1 ->
   In (AddFile 0 file) (trace_of (FromFile w a file name))).
Proof.
  unfold FromFile. cbv zeta. rewrite ready_context, ready_setup. split.
  - intros Htag. rewrite Htag. cbn [Z.eqb Pos.eqb].
    rewrite (proj2 (deferred_trace _ _)). cbn [snd].
    rewrite ready_context. reflexivity.
  - intros Htag. apply Z.eqb_neq in Htag. rewrite Htag.
    destruct (AddAllAndPin w file) as [root|e].
    + destruct (finalize w (Some root)) as [t3 out].
      rewrite (proj1 (deferred_trace _ _)). cbn [fst].
      rewrite ?in_app_iff. cbn [In]. intuition auto.
    + rewrite (proj1 (deferred_trace _ _)). cbn [fst].
      rewrite ?in_app_iff. cbn [In]. intuition auto.
Qed.

Lemma FromFiles_ready (f pre post : list (string * node)) (nm : string)
      (n : node) :
  entries_of a f = pre ++ (nm, n) :: post ->
  (forall e, In e pre ->
             tag w (fst e) (snd e) (read_passphrase w) <> 1 /\
             exists c, AddAllAndPin w (snd e) = Ok c) ->
  (tag w nm n (read_passphrase w) = 1 ->
   outcome_of (FromFiles w a f) = Return Undef None) /\
  (tag w nm n (read_passphrase w) <> 1 ->
   In (AddFile (length pre) n) (trace_of (FromFiles w a f))).
Proof.
  intros Hf Hpre.
  unfold FromFiles. cbv zeta.
  rewrite ready_context, ready_setup, ready_entries, Hf.
  destruct (add_entries_through (read_passphrase w) ((nm, n) :: post)
              pre 0 1 None Hpre) as (t & root' & ->).
  cbn [add_entries Nat.add]. cbv zeta. split.
  - intros Htag. rewrite Htag. cbn [Z.eqb Pos.eqb fst snd].
    rewrite (proj2 (deferred_trace _ _)). cbn [snd].
    rewrite ready_context. reflexivity.
  - intros Htag. apply Z.eqb_neq in Htag. rewrite Htag, ready_context.
    destruct (AddAllAndPin w n) as [c|e].
    + destruct (add_entries w (setContext a) (read_passphrase w) post _ _ _)
        as [t' r].
      cbn [fst snd].
      destruct r as [out|adderRoot]; [|destruct (it_Err w);
                                        [|destruct (finalize w adderRoot)]];
        rewrite (proj1 (deferred_trace _ _)); cbn [fst];
        rewrite ?in_app_iff; cbn [In]; intuition auto.
    + cbn [fst snd].
      rewrite (proj1 (deferred_trace _ _)). cbn [fst].
      rewrite ?in_app_iff. cbn [In]. intuition auto.
Qed.

End ReadyRuns.

(** C9. In a run that reaches the tagging with a context that is never
    cancelled, a call of [pdp_tag_file] that returns 1 makes [FromFile] and
    [FromFiles] return [(cid.Undef, nil)]: the tagging failure yields no
    error value.  Any other value returned, zero or not, is not taken as a
    failure: [AddAllAndPin] is invoked for the entry. *)
Theorem tag_failure_returns_nil (w : world) (a : Adder)
        (f pre post : list (string * node)) (file : node) (name nm : string)
        (n : node) :
  ready w a ->
  (tag w name file (read_passphrase w) = 1 ->
   outcome_of (FromFile w a file name) = Return Undef None) /\
  (tag w name file (read_passphrase w) <> 1 ->
   In (AddFile 0 file) (trace_of (FromFile w a file name))) /\
  (entries_of a f = pre ++ (nm, n) :: post ->
   (forall e, In e pre ->
              tag w (fst e) (snd e) (read_passphrase w) <> 1 /\
              exists c, AddAllAndPin w (snd e) = Ok c) ->
   (tag w nm n (read_passphrase w) = 1 ->
    outcome_of (FromFiles w a f) = Return Undef None) /\
   (tag w nm n (read_passphrase w) <> 1 ->
    In (AddFile (length pre) n) (trace_of (FromFiles w a f)))).
Proof.
  intros Hready.
  split; [apply FromFile_ready; exact Hready|].
  split; [apply FromFile_ready; exact Hready|].
  intros Hf Hpre. apply (FromFiles_ready w a Hready f pre post nm n Hf Hpre).
Qed.

End adder_theory.

(** ** The passphrase in the output *)

Lemma c_string_nul_free (buf : list byte) : ~ In Byte.x00 (c_string buf).
Proof.
  induction buf as [|b buf IH]; cbn [c_string]; [intros []|].
  destruct (Byte.eqb b Byte.x00) eqn:Eb; [intros []|].
  intros [H | H]; [|exact (IH H)].
  subst b. discriminate Eb.
Qed.

Lemma c_string_memcpy (dst src : list byte) :
  ~ In Byte.x00 src ->
  c_string (memcpy dst 0 (src ++ [Byte.x00]) (length src + 1)) = src.
Proof.
  intros Hsrc. unfold memcpy. cbn [firstn app Nat.add].
  rewrite firstn_all2 by (rewrite length_app; simpl; lia).
  rewrite <- app_assoc. apply c_string_app_nul. exact Hsrc.
Qed.

Lemma c_string_strcpy (dst src buf : list byte) :
  ~ In Byte.x00 src -> strcpy dst src = Some buf -> c_string buf = src.
Proof.
  intros Hsrc. unfold strcpy.
  destruct (length src <? length dst)%nat; [|discriminate].
  intros H. injection H as <-. apply c_string_memcpy. exact Hsrc.
Qed.



(** *** Runs of the adder on examples *)

Example FromFiles_tag_failure :
  adder.FromFiles adder.test_world (adder.New adder.test_params)
    [("a.txt"%string, adder.File "A"); ("b.txt"%string, adder.File "B");
     ("d.txt"%string, adder.File "D")]
  = (adder.Return adder.Undef None,
     [adder.Log adder.Debug "adding from files";
      adder.Log adder.Info "pdpKeyPath:/home/u/.ipfs-cluster/key";
      adder.Log adder.Info "pdpTagPath:/home/u/.ipfs-cluster/tag";
      adder.Log adder.Info "pdpPassword:correct horse";
      adder.TagFile 0 "a.txt" "correct horse" 0;
      adder.Log adder.Debug "ipfsAdder AddFile(a.txt)";
      adder.AddFile 0 (adder.File "A");
      adder.TagFile 1 "b.txt" "correct horse" 1;
      adder.Log adder.Debug "PDP process Error: b.txt";
      adder.CloseOutput; adder.Cancel],
     {| adder.ctx_set := true; adder.cancelled := true;
        adder.params := adder.test_params |}).
Proof. vm_compute. reflexivity. Qed.

Lemma test_world_ready :
  adder.ready adder.test_world (adder.New adder.test_params).
Proof.
  repeat apply conj; try reflexivity. discriminate.
Qed.

Lemma tag_failure_returns_nil_witness :
  let w := adder.test_world in
  let a := adder.New adder.test_params in
  let A := ("a.txt"%string, adder.File "A") in
  let B := ("b.txt"%string, adder.File "B") in
  let C := ("c.txt"%string, adder.File "C") in
  adder.ready w a /\
  adder.outcome_of (adder.FromFile w a (adder.File "B") "b.txt")
  = adder.Return adder.Undef None /\
  In (adder.AddFile 0 (adder.File "C"))
     (adder.trace_of (adder.FromFile w a (adder.File "C") "c.txt")) /\
  adder.outcome_of (adder.FromFiles w a [A; B; C])
  = adder.Return adder.Undef None /\
  In (adder.AddFile 1 (adder.File "C"))
     (adder.trace_of (adder.FromFiles w a [A; C; B])).
Proof.
  cbv zeta.
  assert (Hpre : forall e, In e [("a.txt"%string, adder.File "A")] ->
             adder.tag adder.test_world (fst e) (snd e)
                       (adder.read_passphrase adder.test_world) <> 1 /\
             exists c, adder.AddAllAndPin adder.test_world (snd e) = adder.Ok c).
  { intros e [<- | []]. split; [discriminate | eexists; reflexivity]. }
  split; [exact test_world_ready|]. split; [|split; [|split]].
  - apply (adder_theory.tag_failure_returns_nil adder.test_world
             (adder.New adder.test_params) [] [] []
             (adder.File "B") "b.txt" "b.txt" (adder.File "B")
             test_world_ready).
    reflexivity.
  - apply (adder_theory.tag_failure_returns_nil adder.test_world
             (adder.New adder.test_params) [] [] []
             (adder.File "C") "c.txt" "c.txt" (adder.File "C")
             test_world_ready).
    discriminate.
  - apply (adder_theory.tag_failure_returns_nil adder.test_world
             (adder.New adder.test_params)
             [("a.txt"%string, adder.File "A"); ("b.txt"%string, adder.File "B");
              ("c.txt"%string, adder.File "C")]
             [("a.txt"%string, adder.File "A")]
             [("c.txt"%string, adder.File "C")]
             (adder.File "B") "b.txt" "b.txt" (adder.File "B")
             test_world_ready); [reflexivity | exact Hpre | reflexivity].
  - apply (adder_theory.tag_failure_returns_nil adder.test_world
             (adder.New adder.test_params)
             [("a.txt"%string, adder.File "A"); ("c.txt"%string, adder.File "C");
              ("b.txt"%string, adder.File "B")]
             [("a.txt"%string, adder.File "A")]
             [("b.txt"%string, adder.File "B")]
             (adder.File "C") "c.txt" "c.txt" (adder.File "C")
             test_world_ready); [reflexivity | exact Hpre | discriminate].
Defined.

(* ===================================================================== *)
(** * Part III: further properties                                        *)
(* ===================================================================== *)

(** ** NIST AES key wrap: from unwrap back to wrap *)

Section KeyWrapInverse.

Variable AES_encrypt : list byte -> AES_KEY -> list byte.
Variable AES_decrypt : list byte -> AES_KEY -> list byte.

(** The block cipher as a permutation, seen from the side of decryption:
    sixteen bytes out, and encryption inverts decryption. *)
Hypothesis AES_decrypt_length :
  forall y k, aes_key_ok k -> length (AES_decrypt y k) = 16%nat.
Hypothesis AES_encrypt_decrypt :
  forall y k, aes_key_ok k -> length y = 16%nat ->
              AES_encrypt (AES_decrypt y k) k = y.

Lemma unwrap_step_ok k n j i nn st :
  aes_key_ok k -> (i < nn)%nat ->
  wrap_state_ok nn st -> wrap_state_ok nn (unwrap_step AES_decrypt k n j i st).
Proof.
  intros Hk Hi [HA HR]. destruct st as [A R]. simpl in HA, HR.
  destruct (register_window nn i R HR Hi) as (R1 & Ri & R2 & -> & H1 & H2).
  rewrite (unwrap_step_window AES_decrypt k n j i A R1 Ri R2 HA H1 H2).
  cbv zeta.
  pose proof (AES_decrypt_length
                (xor_at A 7 (to_uint (n * Z.of_nat j + (Z.of_nat i + 1))) ++ Ri)
                k Hk) as Hlen.
  unfold wrap_state_ok. cbn [fst snd]. split.
  - rewrite length_firstn. lia.
  - rewrite !length_app in *. rewrite length_firstn, length_skipn. lia.
Qed.

(** One step of [nist_key_wrap] undoes the same step of
    [nist_key_unwrap]. *)
Lemma wrap_step_unwrap_step k n j i nn st :
  aes_key_ok k -> (i < nn)%nat -> wrap_state_ok nn st ->
  wrap_step AES_encrypt k n j i (unwrap_step AES_decrypt k n j i st) = st.
Proof.
  intros Hk Hi [HA HR]. destruct st as [A R]. simpl in HA, HR.
  destruct (register_window nn i R HR Hi) as (R1 & Ri & R2 & -> & H1 & H2).
  rewrite (unwrap_step_window AES_decrypt k n j i A R1 Ri R2 HA H1 H2).
  cbv zeta.
  set (t := to_uint (n * Z.of_nat j + (Z.of_nat i + 1))).
  assert (HA' : length (xor_at A 7 t) = 8%nat)
    by (rewrite xor_at_length; lia).
  pose proof (AES_decrypt_length (xor_at A 7 t ++ Ri) k Hk) as Hlen.
  pose proof (AES_encrypt_decrypt (xor_at A 7 t ++ Ri) k Hk) as Hinv.
  remember (AES_decrypt (xor_at A 7 t ++ Ri) k) as D eqn:ED. clear ED.
  rewrite wrap_step_window;
    [| rewrite length_firstn; lia | exact H1
     | rewrite length_firstn, length_skipn; lia].
  replace (firstn 8 D ++ firstn 8 (skipn 8 D)) with D.
  2:{ rewrite (firstn_all2 (n := 8%nat) (skipn 8 D))
        by (rewrite length_skipn; lia).
      symmetry. apply firstn_skipn. }
  rewrite Hinv by (rewrite length_app; lia).
  rewrite (firstn_length_app _ Ri 8 HA'), (skipn_length_app _ Ri 8 HA').
  rewrite (firstn_all2 (n := 8%nat) Ri) by lia.
  fold t. f_equal.
  open_list A HA.
  change [b; b0; b1; b2; b3; b4; b5; b6]
    with ([b; b0; b1; b2; b3; b4; b5] ++ b6 :: []).
  apply xor_at_cancel. reflexivity.
Qed.

Lemma wrap_rounds_unwrap_rounds k n st :
  aes_key_ok k -> 0 <= n < 2 ^ 31 ->
  wrap_state_ok (Z.to_nat n) st ->
  wrap_state_ok (Z.to_nat n) (unwrap_rounds AES_decrypt k n st) /\
  wrap_rounds AES_encrypt k n (unwrap_rounds AES_decrypt k n st) = st.
Proof.
  intros Hk Hn Hst. unfold wrap_rounds, unwrap_rounds.
  assert (Hcount : Z.to_nat (to_int (n - 1) + 1) = Z.to_nat n).
  { unfold to_int. replace (n - 1 + 2 ^ 31) with (n + (2 ^ 31 - 1)) by lia.
    rewrite Z.mod_small by lia. f_equal. lia. }
  rewrite Hcount.
  assert (Hinner : forall j s, wrap_state_ok (Z.to_nat n) s ->
    let s' := fold_left (fun st i => unwrap_step AES_decrypt k n j i st)
                        (rev (seq 0 (Z.to_nat n))) s in
    wrap_state_ok (Z.to_nat n) s' /\
    fold_left (fun st i => wrap_step AES_encrypt k n j i st)
              (seq 0 (Z.to_nat n)) s' = s).
  { intros j s Hs. cbv zeta.
    rewrite <- (rev_involutive (seq 0 (Z.to_nat n))) at 2.
    apply (fold_left_undo (fun st i => unwrap_step AES_decrypt k n j i st)
                          (fun st i => wrap_step AES_encrypt k n j i st)
                          (wrap_state_ok (Z.to_nat n))
                          (fun i => (i < Z.to_nat n)%nat)).
    - intros s0 x Hs0 Hx. apply unwrap_step_ok; assumption.
    - intros s0 x Hs0 Hx.
      apply wrap_step_unwrap_step with (Z.to_nat n); assumption.
    - apply Forall_forall. intros x Hx. apply in_rev, in_seq in Hx. lia.
    - exact Hs. }
  rewrite <- (rev_involutive (seq 0 6)) at 2.
  apply (fold_left_undo
           (fun st j => fold_left (fun st i => unwrap_step AES_decrypt k n j i st)
                                  (rev (seq 0 (Z.to_nat n))) st)
           (fun st j => fold_left (fun st i => wrap_step AES_encrypt k n j i st)
                                  (seq 0 (Z.to_nat n)) st)
           (wrap_state_ok (Z.to_nat n)) (fun _ => True)).
  - intros s x Hs _. apply Hinner; assumption.
  - intros s x Hs _. apply Hinner; assumption.
  - apply Forall_forall. trivial.
  - exact Hst.
Qed.

Lemma memcmp_eq (a b : list byte) (n : nat) :
  memcmp a b n = 0 -> firstn n a = firstn n b.
Proof.
  unfold memcmp.
  destruct (list_eq_dec Byte.byte_eq_dec (firstn n a) (firstn n b));
    [auto | discriminate].
Qed.

(** X1. Every ciphertext that [nist_key_unwrap] accepts is the wrap of the
    key it returns: for a ciphertext of a whole number of 64-bit blocks,
    wrapping the returned key under the same KEK gives the ciphertext
    back. *)
Theorem wrap_of_unwrap (enckey kek key : list byte) (kek_size : Z) :
  In kek_size [16; 24; 32] -> (Z.to_nat kek_size <= length kek)%nat ->
  (8 <= length enckey)%nat -> (length enckey mod 8 = 0)%nat ->
  Z.of_nat (length enckey) < 2 ^ 31 ->
  nist_key_unwrap AES_decrypt (Some enckey) (Z.of_nat (length enckey))
                  (Some kek) kek_size = Some key ->
  length key = (length enckey - 8)%nat /\
  nist_key_wrap AES_encrypt (Some key) (Z.of_nat (length key))
                (Some kek) kek_size = Some enckey.
Proof.
  intros Hkek Hkeklen Hmin Hmod Hmax Hun.
  destruct (AES_set_key_ok kek kek_size Hkek Hkeklen) as (k & Hset & Hk).
  remember (length enckey / 8 - 1)%nat as nn eqn:Enn.
  assert (Hlen : length enckey = (8 + nn * 8)%nat).
  { pose proof (Nat.div_mod_eq (length enckey) 8). lia. }
  clear Enn.
  assert (Hn : Z.of_nat (length enckey) / 8 - 1 = Z.of_nat nn).
  { rewrite Hlen.
    replace (Z.of_nat (8 + nn * 8)) with ((1 + Z.of_nat nn) * 8) by lia.
    rewrite Z.div_mul by lia. lia. }
  assert (Hnr : 0 <= Z.of_nat nn < 2 ^ 31) by lia.
  assert (Hu : to_uint (Z.of_nat nn) = Z.of_nat nn).
  { unfold to_uint. apply Z.mod_small. lia. }
  assert (Hu8 : to_uint (Z.of_nat nn * 8) = Z.of_nat nn * 8).
  { unfold to_uint. apply Z.mod_small. lia. }
  assert (H8u : to_uint (8 * Z.of_nat nn) = Z.of_nat nn * 8).
  { unfold to_uint. rewrite Z.mod_small; lia. }
  unfold nist_key_unwrap, unwrap_state, AES_set_decrypt_key in Hun.
  rewrite Hn, Hu, Hu8, H8u, Hset in Hun. cbn [Z.eqb negb] in Hun.
  set (A0 := firstn 8 enckey) in Hun.
  set (R0 := firstn (Z.to_nat (Z.of_nat nn * 8)) (skipn 8 enckey)) in Hun.
  assert (Hst : wrap_state_ok (Z.to_nat (Z.of_nat nn)) (A0, R0)).
  { split; cbn [fst snd]; unfold A0, R0.
    - rewrite length_firstn. lia.
    - rewrite length_firstn, length_skipn. lia. }
  destruct (wrap_rounds_unwrap_rounds k (Z.of_nat nn) _ Hk Hnr Hst)
    as [[HA HR] Hundo].
  destruct (unwrap_rounds AES_decrypt k (Z.of_nat nn) (A0, R0)) as [A R].
  cbn [fst snd] in HA, HR.
  destruct (memcmp A (memset Byte.xa6 8) 8 =? 0) eqn:Ecmp;
    cbn [negb] in Hun; [|discriminate Hun].
  apply Z.eqb_eq, memcmp_eq in Ecmp.
  rewrite (firstn_all2 (n := 8%nat) A) in Ecmp by lia.
  change (firstn 8 (memset Byte.xa6 8)) with (memset Byte.xa6 8) in Ecmp.
  subst A.
  rewrite firstn_all2 in Hun by lia.
  injection Hun as <-.
  split; [lia|].
  unfold nist_key_wrap, AES_set_encrypt_key.
  assert (Hkn : Z.of_nat (length R) / 8 = Z.of_nat nn).
  { rewrite HR. rewrite Nat2Z.id.
    replace (Z.of_nat (nn * 8)) with (Z.of_nat nn * 8) by lia.
    apply Z.div_mul. lia. }
  rewrite Hkn, Hu, Hu8, H8u, Hset. cbn [Z.eqb negb].
  rewrite (firstn_all2 (n := Z.to_nat (Z.of_nat nn * 8)) R) by lia.
  rewrite Hundo.
  unfold A0, R0.
  rewrite firstn_firstn, Nat.min_id.
  rewrite firstn_firstn, Nat.min_id.
  rewrite (firstn_all2 (n := Z.to_nat (Z.of_nat nn * 8)) (skipn 8 enckey))
    by (rewrite length_skipn; lia).
  rewrite firstn_skipn. reflexivity.
Qed.

End KeyWrapInverse.

(** X2. A key of fewer than eight bytes has no whole register: the rounds
    do not run, and [nist_key_wrap] returns the bare integrity value, eight
    bytes 0xA6, whatever the key, the KEK and the cipher are; unwrapping
    that value gives the empty key under every KEK. *)
Theorem keywrap_short_key
        (AES_encrypt AES_decrypt : list byte -> AES_KEY -> list byte)
        (key kek : list byte) (key_size kek_size : Z) :
  0 <= key_size < 8 -> In kek_size [16; 24; 32] ->
  nist_key_wrap AES_encrypt (Some key) key_size (Some kek) kek_size
  = Some (repeat Byte.xa6 8) /\
  nist_key_unwrap AES_decrypt (Some (repeat Byte.xa6 8)) (key_size + 8)
                  (Some kek) kek_size = Some [].
Proof.
  intros Hsize Hkek.
  assert (Hset : exists k, AES_set_key kek (to_int (kek_size * 8)) = (0, k)).
  { simpl in Hkek. destruct Hkek as [<- | [<- | [<- | []]]];
      eexists; reflexivity. }
  destruct Hset as [k Hset].
  assert (Hn : key_size / 8 = 0) by (apply Z.div_small; lia).
  assert (Hn' : (key_size + 8) / 8 - 1 = 0).
  { replace (key_size + 8) with (key_size + 1 * 8) by lia.
    rewrite Z.div_add by lia. lia. }
  unfold nist_key_wrap, nist_key_unwrap, unwrap_state,
    AES_set_encrypt_key, AES_set_decrypt_key.
  rewrite Hn, Hn', Hset. split; reflexivity.
Qed.

Lemma byte_sub_add_cancel (b : byte) (c : Z) :
  byte.of_Z (byte.unsigned (byte.of_Z (byte.unsigned b - c)) + c) = b.
Proof.
  apply byte.unsigned_inj. rewrite !byte.unsigned_of_Z. unfold byte.wrap.
  rewrite Zplus_mod_idemp_l.
  replace (byte.unsigned b - c + c) with (byte.unsigned b) by lia.
  apply Z.mod_small. apply byte.unsigned_range.
Qed.

Lemma test_decrypt_length (y : list byte) (k : AES_KEY) :
  aes_key_ok k -> length (test_decrypt y k) = 16%nat.
Proof.
  intros _. unfold test_decrypt.
  rewrite length_map, length_app, length_skipn, length_firstn, block16_length.
  reflexivity.
Qed.

Lemma test_encrypt_decrypt (y : list byte) (k : AES_KEY) :
  aes_key_ok k -> length y = 16%nat -> test_encrypt (test_decrypt y k) k = y.
Proof.
  intros _ Hy. open_list y Hy.
  unfold test_decrypt, test_encrypt, block16.
  cbn [app firstn skipn map repeat].
  rewrite !byte_sub_add_cancel. reflexivity.
Qed.

Lemma wrap_of_unwrap_witness :
  length (test_bytes 1 16) = (24 - 8)%nat /\
  nist_key_wrap test_encrypt (Some (test_bytes 1 16))
                (Z.of_nat (length (test_bytes 1 16)))
                (Some (test_bytes 100 16)) 16
  = Some (hex "212a872a24c5273cc9cbc2cbc67eca6222c5cac6869585c6").
Proof.
  apply (wrap_of_unwrap test_encrypt test_decrypt
           test_decrypt_length test_encrypt_decrypt
           (hex "212a872a24c5273cc9cbc2cbc67eca6222c5cac6869585c6")
           (test_bytes 100 16) (test_bytes 1 16) 16).
  - left. reflexivity.
  - simpl. lia.
  - simpl. lia.
  - reflexivity.
  - simpl. lia.
  - vm_compute. reflexivity.
Defined.

Lemma keywrap_short_key_witness :
  nist_key_wrap test_encrypt (Some (test_bytes 1 5)) 5
                (Some (test_bytes 100 16)) 16
  = Some (repeat Byte.xa6 8) /\
  nist_key_unwrap test_decrypt (Some (repeat Byte.xa6 8)) (5 + 8)
                  (Some (test_bytes 100 16)) 16 = Some [].
Proof.
  apply (keywrap_short_key test_encrypt test_decrypt
           (test_bytes 1 5) (test_bytes 100 16) 5 16).
  - lia.
  - left. reflexivity.
Defined.


(** ** Password based key derivation: what the loop computes *)

Lemma PBKDF2_fails_only_on_empty_witness :
  PBKDF2 HMAC_SHA1 (bytes_of_string "password") [] 1 20 = None
  <-> bytes_of_string "password" = [] \/ @nil byte = [] \/ 1 = 0 \/ 20 = 0.
Proof.
  apply (PBKDF2_fails_only_on_empty HMAC_SHA1 HMAC_SHA1_length
           (bytes_of_string "password") [] 1 20).
  lia.
Defined.


Lemma byte_xor_assoc (a b c : byte) :
  byte.xor (byte.xor a b) c = byte.xor a (byte.xor b c).
Proof.
  unfold byte.xor. apply byte.unsigned_inj.
  rewrite !byte.unsigned_of_Z. unfold byte.wrap.
  rewrite <- !Z.land_ones by lia.
  apply Z.bits_inj'. intros k Hk.
  repeat (rewrite ?Z.land_spec, ?Z.lxor_spec).
  destruct (Z.testbit (Z.ones 8) k), (Z.testbit (byte.unsigned a) k),
    (Z.testbit (byte.unsigned b) k), (Z.testbit (byte.unsigned c) k);
    reflexivity.
Qed.

Lemma xor_bytes_assoc (T A B : list byte) :
  length A = length B ->
  xor_bytes (xor_bytes T A) B = xor_bytes T (xor_bytes A B).
Proof.
  revert A B. induction T as [|t T IH]; intros A B Hlen.
  - destruct A, B; reflexivity.
  - destruct A as [|a A], B as [|b B]; try discriminate Hlen.
    + reflexivity.
    + cbn [xor_bytes]. rewrite byte_xor_assoc. f_equal.
      apply IH. simpl in Hlen. lia.
Qed.

Section Chained.

Variable HMAC : list byte -> list byte -> list byte.
Hypothesis HMAC_length : forall key data, length (HMAC key data) = 20%nat.

Lemma rfc2898_U_xor_length (password : list byte) (n : nat) :
  forall acc U, length (rfc2898_U_xor HMAC password n acc U) = length acc.
Proof.
  induction n as [|n IH]; intros acc U; cbn [rfc2898_U_xor];
    [reflexivity|].
  rewrite IH. apply xor_bytes_length.
Qed.

Lemma rfc2898_F_length (password salt : list byte) (c : nat) (i : Z) :
  length (rfc2898_F HMAC password salt c i) = 20%nat.
Proof.
  unfold rfc2898_F. rewrite rfc2898_U_xor_length. apply HMAC_length.
Qed.

Lemma rfc2898_U_xor_onto (password : list byte) (n : nat) :
  forall T A U,
    length A = 20%nat ->
    rfc2898_U_xor HMAC password n (xor_bytes T A) U
    = xor_bytes T (rfc2898_U_xor HMAC password n A U).
Proof.
  induction n as [|n IH]; intros T A U HA; cbn [rfc2898_U_xor];
    [reflexivity|].
  rewrite xor_bytes_assoc by (rewrite HMAC_length; exact HA).
  apply IH. rewrite xor_bytes_length. exact HA.
Qed.

(** Each call of [PBKDF2_F] XORs one block value onto the buffer [T] that
    it is given. *)
Lemma PBKDF2_F_onto (T password salt : list byte) (c i : Z) :
  password <> [] -> salt <> [] -> 0 < c -> 0 <= i < 2 ^ 32 ->
  PBKDF2_F HMAC T password salt c i
  = Some (xor_bytes T (rfc2898_F HMAC password salt (Z.to_nat c + 1) i)).
Proof.
  intros Hp Hs Hc Hi. unfold PBKDF2_F, rfc2898_F.
  destruct password as [|p0 password]; [contradiction|].
  destruct salt as [|s0 salt]; [contradiction|].
  cbn [length Nat.eqb orb].
  destruct (c =? 0) eqn:Ec; [apply Z.eqb_eq in Ec; lia|].
  rewrite HMAC_length. cbn [Z.of_nat Z.eqb Pos.of_succ_nat Pos.succ
                            SHA_DIGEST_LENGTH Pos.eqb negb].
  unfold to_uint. rewrite (Z.mod_small i) by lia.
  destruct (PBKDF2_F_loop_xor HMAC HMAC_length (p0 :: password) (Z.to_nat c) T
              (HMAC (p0 :: password) ((s0 :: salt) ++ htonl_bytes i)))
    as (T' & U' & -> & Hx).
  rewrite Hx. rewrite rfc2898_U_xor_onto by apply HMAC_length.
  replace (Z.to_nat c + 1 - 1)%nat with (Z.to_nat c) by lia.
  reflexivity.
Qed.

Variable password salt : list byte.
Variable c : Z.
Hypothesis password_not_empty : password <> [].
Hypothesis salt_not_empty : salt <> [].
Hypothesis c_range : 0 < c < 2 ^ 31.

Lemma chained_blocks_length (F : nat -> list byte) :
  (forall i, length (F i) = 20%nat) ->
  forall idx T, length T = 20%nat ->
    length (chained_blocks F T idx) = (20 * length idx)%nat.
Proof.
  intros HF. induction idx as [|i idx IH]; intros T HT; [reflexivity|].
  cbn [chained_blocks length]. rewrite length_app, xor_bytes_length, IH.
  - lia.
  - rewrite xor_bytes_length. exact HT.
Qed.

(** The loop of [PBKDF2] from block [i] on, with [m] blocks to go and the
    [i] blocks before them in place. *)
Lemma PBKDF2_loop_chained (D : nat) :
  forall m i T pre,
    length T = 20%nat -> length pre = (i * 20)%nat ->
    Z.of_nat (i + m) < 2 ^ 31 ->
    (D <= (i + m) * 20)%nat -> (m = 0%nat \/ (i + m - 1) * 20 < D)%nat ->
    PBKDF2_loop HMAC password salt c (seq i m) T
                (pre ++ repeat Byte.x00 (D - i * 20))
                (Z.of_nat (D - i * 20))
    = Some (pre ++ firstn (D - i * 20)
                     (chained_blocks
                        (fun k => rfc2898_F HMAC password salt
                                            (Z.to_nat c + 1) (Z.of_nat k))
                        T (seq i m))).
Proof.
  assert (Hci : to_int c = c).
  { unfold to_int. rewrite Z.mod_small by lia. lia. }
  induction m as [|m IH]; intros i T pre HT Hpre Hmax Hcover Hexact.
  - cbn [seq PBKDF2_loop chained_blocks].
    replace (D - i * 20)%nat with 0%nat by lia. reflexivity.
  - cbn [seq PBKDF2_loop chained_blocks]. rewrite Hci.
    rewrite PBKDF2_F_onto by (assumption || lia).
    set (F := fun k => rfc2898_F HMAC password salt (Z.to_nat c + 1)
                                 (Z.of_nat k)).
    change (rfc2898_F HMAC password salt (Z.to_nat c + 1) (Z.of_nat i))
      with (F i).
    set (T' := xor_bytes T (F i)).
    assert (HT' : length T' = 20%nat)
      by (unfold T'; rewrite xor_bytes_length; exact HT).
    change (Z.to_nat SHA_DIGEST_LENGTH) with 20%nat.
    unfold SHA_DIGEST_LENGTH.
    destruct (20 <=? Z.of_nat (D - i * 20)) eqn:Efull.
    + apply Z.leb_le in Efull.
      replace (D - i * 20)%nat with (20 + (D - S i * 20))%nat at 1 by lia.
      rewrite repeat_app.
      assert (Hcopy : forall rest,
                 memcpy (pre ++ repeat Byte.x00 20 ++ rest) (i * 20) T' 20
                 = pre ++ T' ++ rest).
      { intros rest. rewrite <- (app_nil_r T') at 1.
        apply memcpy_window; (assumption || apply repeat_length). }
      rewrite Hcopy.
      replace (Z.of_nat (D - i * 20) - 20) with (Z.of_nat (D - S i * 20))
        by lia.
      replace (pre ++ T' ++ repeat Byte.x00 (D - S i * 20))
        with ((pre ++ T') ++ repeat Byte.x00 (D - S i * 20))
        by (symmetry; apply app_assoc).
      rewrite (IH (S i) T' (pre ++ T')).
      * rewrite <- app_assoc. do 2 f_equal.
        rewrite firstn_app, HT'.
        rewrite (firstn_all2 (n := (D - i * 20)%nat) T') by lia.
        f_equal. f_equal. lia.
      * exact HT'.
      * rewrite length_app. lia.
      * lia.
      * lia.
      * destruct Hexact as [H | H]; [discriminate H|].
        destruct m; [left; reflexivity | right; lia].
    + apply Z.leb_gt in Efull.
      assert (Hm : m = 0%nat) by (destruct Hexact as [H | H]; lia).
      subst m. cbn [seq PBKDF2_loop chained_blocks]. rewrite app_nil_r.
      rewrite Nat2Z.id. f_equal.
      unfold memcpy.
      rewrite (firstn_length_app pre _ (i * 20) Hpre).
      rewrite skipn_all2 by (rewrite length_app, repeat_length; lia).
      rewrite app_nil_r. reflexivity.
Qed.

(** X4. What [PBKDF2] computes, for every length: with [F i] the function F
    of RFC 2898 taken with [c + 1] iterations and the block index [i], the
    derived key is the first [dkey_len] bytes of the blocks
    [F 0], [F 0 xor F 1], [F 0 xor F 1 xor F 2], ...; the standard has [c]
    iterations and the blocks [F 1], [F 2], ... themselves. *)
Theorem PBKDF2_chained (dkey_len : Z) :
  0 < dkey_len < 2 ^ 31 ->
  PBKDF2 HMAC password salt c dkey_len
  = Some (firstn (Z.to_nat dkey_len)
            (chained_blocks
               (fun k => rfc2898_F HMAC password salt (Z.to_nat c + 1)
                                   (Z.of_nat k))
               (repeat Byte.x00 20)
               (seq 0 ((Z.to_nat dkey_len + 19) / 20)))).
Proof.
  intros Hd. unfold PBKDF2.
  assert (Hp0 : (length password =? 0)%nat = false).
  { pose proof password_not_empty as H.
    destruct password; [contradiction | reflexivity]. }
  assert (Hs0 : (length salt =? 0)%nat = false).
  { pose proof salt_not_empty as H.
    destruct salt; [contradiction | reflexivity]. }
  rewrite Hp0, Hs0.
  destruct (c =? 0) eqn:Ec; [apply Z.eqb_eq in Ec; lia|].
  destruct (dkey_len =? 0) eqn:Ed; [apply Z.eqb_eq in Ed; lia|].
  cbn [orb].
  set (D := Z.to_nat dkey_len).
  assert (HD : dkey_len = Z.of_nat D) by (unfold D; lia).
  assert (Hl : Z.to_nat
                 (if negb (dkey_len mod SHA_DIGEST_LENGTH =? 0)
                  then to_uint (to_uint (dkey_len / SHA_DIGEST_LENGTH) + 1)
                  else to_uint (dkey_len / SHA_DIGEST_LENGTH))
               = ((D + 19) / 20)%nat).
  { unfold SHA_DIGEST_LENGTH, to_uint.
    pose proof (Z.div_mod dkey_len 20 ltac:(lia)) as Hdm.
    pose proof (Z.mod_pos_bound dkey_len 20 ltac:(lia)) as Hmb.
    assert (Hq : 0 <= dkey_len / 20 < 2 ^ 31)
      by (split; [apply Z.div_pos; lia | apply Z.div_lt_upper_bound; lia]).
    rewrite (Z.mod_small (dkey_len / 20)) by lia.
    apply Nat2Z.inj. rewrite Nat2Z.inj_div.
    replace (Z.of_nat (D + 19)) with (dkey_len + 19) by lia.
    change (Z.of_nat 20) with 20.
    destruct (dkey_len mod 20 =? 0) eqn:Em; cbn [negb].
    - apply Z.eqb_eq in Em. rewrite Z2Nat.id by lia.
      apply Z.div_unique with (r := 19); lia.
    - apply Z.eqb_neq in Em. rewrite Z.mod_small by lia.
      rewrite Z2Nat.id by lia.
      apply Z.div_unique with (r := dkey_len mod 20 - 1); lia. }
  rewrite Hl.
  pose proof (Nat.div_mod_eq (D + 19) 20) as Hdiv.
  pose proof (Nat.mod_upper_bound (D + 19) 20 ltac:(lia)) as Hmod.
  pose proof (PBKDF2_loop_chained D ((D + 19) / 20) 0
                (repeat Byte.x00 20) []) as H.
  cbn [Nat.mul Nat.add app length] in H. rewrite Nat.sub_0_r in H.
  rewrite <- HD in H. apply H.
  - apply repeat_length.
  - reflexivity.
  - lia.
  - lia.
  - right. lia.
Qed.

End Chained.

Lemma PBKDF2_chained_witness :
  PBKDF2 HMAC_SHA1 (bytes_of_string "password") (bytes_of_string "salt") 1 32
  = Some (firstn (Z.to_nat 32)
            (chained_blocks
               (fun k => rfc2898_F HMAC_SHA1 (bytes_of_string "password")
                                   (bytes_of_string "salt") (Z.to_nat 1 + 1)
                                   (Z.of_nat k))
               (repeat Byte.x00 20)
               (seq 0 ((Z.to_nat 32 + 19) / 20)))).
Proof.
  apply (PBKDF2_chained HMAC_SHA1 HMAC_SHA1_length
           (bytes_of_string "password") (bytes_of_string "salt") 1).
  - discriminate.
  - discriminate.
  - lia.
  - lia.
Defined.


(** ** Reading a passphrase: the bounds of the buffer *)

Lemma store_length (buf : list byte) (k : nat) (b : byte) :
  (k < length buf)%nat -> length (store buf k b) = length buf.
Proof.
  intros H. unfold store.
  rewrite !length_app, length_firstn, length_skipn. simpl. lia.
Qed.

Lemma c_string_bound (buf : list byte) :
  forall k, (k < length buf)%nat -> nth k buf Byte.x01 = Byte.x00 ->
            (length (c_string buf) <= k)%nat.
Proof.
  induction buf as [|b buf IH]; intros k Hk Hnth.
  - simpl in Hk. lia.
  - cbn [c_string]. destruct (Byte.eqb b Byte.x00) eqn:Eb; [simpl; lia|].
    destruct k as [|k].
    + cbn [nth] in Hnth. subst b. discriminate Eb.
    + cbn [nth length] in *. specialize (IH k ltac:(lia) Hnth). lia.
Qed.

Lemma nth_store (buf : list byte) (k : nat) (b d : byte) :
  (k < length buf)%nat -> nth k (store buf k b) d = b.
Proof.
  intros H. unfold store.
  rewrite app_nth2; rewrite length_firstn; [|lia].
  replace (k - Nat.min k (length buf))%nat with 0%nat by lia. reflexivity.
Qed.

Lemma c_string_store_nul (buf : list byte) (k : nat) :
  (k < length buf)%nat ->
  (length (c_string (store buf k Byte.x00)) <= k)%nat.
Proof.
  intros H. apply c_string_bound.
  - rewrite store_length; assumption.
  - apply nth_store. exact H.
Qed.

(** The loop keeps the size of the buffer, and a read that succeeds has
    put the terminating NUL at the position of the counter or after it. *)
Lemma read_password_loop_bounds (bufsize : nat) :
  forall input buf ctr ok buf' rest,
    length buf = bufsize ->
    read_password_loop input buf ctr bufsize = (ok, buf', rest) ->
    length buf' = bufsize /\
    (ok = true -> (length (c_string buf') < bufsize)%nat).
Proof.
  induction input as [|ev input IH]; intros buf ctr ok buf' rest Hlen H.
  - cbn [read_password_loop] in H.
    destruct (Nat.leb_spec bufsize ctr) as [Hge | Hlt].
    + injection H as <- <- <-. split; [exact Hlen | discriminate].
    + injection H as <- <- <-. split.
      * rewrite store_length; lia.
      * intros _. pose proof (c_string_store_nul buf ctr ltac:(lia)). lia.
  - cbn [read_password_loop] in H.
    destruct (Nat.leb_spec bufsize ctr) as [Hge | Hlt].
    { injection H as <- <- <-. split; [exact Hlen | discriminate]. }
    destruct ev as [ch|].
    + destruct (Byte.eqb ch Byte.x0a).
      * injection H as <- <- <-. split.
        -- rewrite store_length; lia.
        -- intros _. pose proof (c_string_store_nul buf ctr ltac:(lia)). lia.
      * apply (IH (store buf ctr ch) (S ctr) ok buf' rest);
          [rewrite store_length; lia | exact H].
    + injection H as <- <- <-. split; [exact Hlen | discriminate].
Qed.

(** X5. [read_password] stays inside the caller's buffer: it leaves a
    buffer of the same size, and when it returns the buffer the passphrase
    in it is terminated by a NUL within the buffer, so it has fewer
    characters than the buffer has bytes. *)
Theorem read_password_in_bounds (term : option (list tty_event))
        (buf : list byte) (bufsize : nat) :
  length buf = bufsize ->
  let '(ok, buf', _) := read_password term buf bufsize in
  length buf' = bufsize /\
  (ok = true -> (length (c_string buf') < bufsize)%nat).
Proof.
  intros Hlen. unfold read_password. destruct term as [input|].
  - destruct (read_password_loop input buf 0 bufsize) as [[ok buf'] rest] eqn:E.
    exact (read_password_loop_bounds bufsize _ _ _ _ _ _ Hlen E).
  - split; [exact Hlen | discriminate].
Qed.

Lemma read_password_loop_long (bufsize : nat) (rest : list tty_event) :
  forall line buf ctr,
    ~ In Byte.x0a line -> (bufsize <= ctr + length line)%nat ->
    fst (fst (read_password_loop (map Key line ++ rest) buf ctr bufsize))
    = false.
Proof.
  induction line as [|ch line IH]; intros buf ctr Hnl Hlen.
  - cbn [map app]. simpl in Hlen.
    destruct rest as [|ev rest']; cbn [read_password_loop];
      destruct (Nat.leb_spec bufsize ctr); try lia; reflexivity.
  - cbn [map app read_password_loop].
    destruct (Nat.leb_spec bufsize ctr); [reflexivity|].
    destruct (Byte.eqb ch Byte.x0a) eqn:Ech.
    { exfalso. apply Hnl. left. symmetry. apply Byte.byte_dec_bl. exact Ech. }
    apply IH.
    + intros Hin. apply Hnl. right. exact Hin.
    + simpl in Hlen. lia.
Qed.

(** X6. A line that does not fit is refused, not cut: when the first
    [bufsize] characters typed hold no newline, [read_password] returns
    NULL, whatever is typed after them. *)
Theorem read_password_rejects_long_line (line : list byte)
        (rest : list tty_event) (buf : list byte) (bufsize : nat) :
  ~ In Byte.x0a line -> (bufsize <= length line)%nat ->
  fst (fst (read_password (Some (map Key line ++ rest)) buf bufsize)) = false.
Proof.
  intros Hnl Hlen. unfold read_password.
  pose proof (read_password_loop_long bufsize rest line buf 0 Hnl Hlen) as H.
  destruct (read_password_loop (map Key line ++ rest) buf 0 bufsize)
    as [[ok buf'] rest'].
  exact H.
Qed.

Lemma read_password_in_bounds_witness :
  let '(ok, buf', _) :=
    read_password (Some (typed (bytes_of_string "secret")))
                  (memset Byte.x00 8) 8 in
  length buf' = 8%nat /\ (ok = true -> (length (c_string buf') < 8)%nat).
Proof.
  apply (read_password_in_bounds
           (Some (typed (bytes_of_string "secret"))) (memset Byte.x00 8) 8).
  reflexivity.
Defined.

Lemma read_password_rejects_long_line_witness :
  fst (fst (read_password
              (Some (map Key (bytes_of_string "12345678")
                       ++ typed (bytes_of_string "x")))
              (memset Byte.x00 8) 8)) = false.
Proof.
  apply (read_password_rejects_long_line
           (bytes_of_string "12345678") (typed (bytes_of_string "x"))
           (memset Byte.x00 8) 8).
  - vm_compute. intuition discriminate.
  - simpl. lia.
Defined.


(** ** The key store: the loaders and the key files *)

Section KeyAccessTheory.

Variable L : platform.

(** The loader looks at the passphrase buffer as a C string only. *)
Lemma load_with_password_c_string (failing : fault -> bool)
      (pri pub p1 p2 : list byte) (out1 out2 : list (list byte)) :
  c_string p1 = c_string p2 ->
  l_key (load_with_password L failing pri pub p1 out1)
  = l_key (load_with_password L failing pri pub p2 out2).
Proof.
  intros H. unfold load_with_password, load_cleanup. rewrite H.
  destruct (PEM_read_PrivateKey L pri (c_string p2)) as [[pkey pri1]|];
    [|reflexivity].
  destruct (EVP_PKEY_get1_RSA pkey) as [rsa|]; [|reflexivity].
  destruct (negb _); [reflexivity|].
  destruct (fread _ _ pri1) as [salt pri2].
  destruct (failing Read_salt); [reflexivity|].
  destruct (fread _ 40 pri2) as [enc_v pri3].
  destruct (failing Read_enc_v); [reflexivity|].
  destruct (PBKDF2 _ _ _ _ _) as [dk|]; [|reflexivity].
  destruct (nist_key_unwrap _ _ _ _ _) as [key_v|]; [|reflexivity].
  destruct (PEM_read_RSAPublicKey L pub) as [[rsa' pub1]|]; [|reflexivity].
  destruct (fread _ 8 pub1) as [gen_size pub2].
  destruct (failing Alloc_gen); [reflexivity|].
  destruct (fread _ _ pub2) as [gen pub3].
  destruct (failing BN_failure); reflexivity.
Qed.

(** X7. The loader that is handed the passphrase returns the key that the
    interactive loader returns when the same passphrase is typed at the
    prompt, on the same two streams and with the same calls failing. *)
Theorem temp_loader_agrees (failing : fault -> bool)
        (pri_key pub_key : option FILE) (P password_in : list byte) :
  passphrase_ok P -> c_string password_in = P ->
  l_key (read_pdp_keypair_temp L failing pri_key pub_key password_in)
  = l_key (read_pdp_keypair L failing (Some (typed P)) pri_key pub_key).
Proof.
  intros HP Hin. unfold read_pdp_keypair_temp, read_pdp_keypair, load_prologue.
  destruct pri_key as [pri|]; [|reflexivity].
  destruct pub_key as [pub|]; [|reflexivity].
  destruct (failing Alloc_key); [reflexivity|].
  destruct (failing Alloc_buffers); [reflexivity|].
  destruct (read_password_typed P (memset Byte.x00 1024) HP)
    as (buf & rest & -> & Hbuf).
  cbn [negb]. rewrite strcpy_password by (rewrite Hin; apply HP).
  apply load_with_password_c_string.
  rewrite Hbuf, Hin. apply c_string_memcpy. apply HP.
Qed.

Hypothesis L_ok : platform_ok L.

(** X8. The public key file that [write_pdp_keypair] has written is read
    back by [pdp_get_pubkey]: it returns a key with the generator that was
    stored and with the RSA public key that the PEM reader finds in the
    file, and prints no error. *)
Theorem pdp_get_pubkey_roundtrip (failing : fault -> bool)
        (rand : option (list byte)) (K : PDP_key) (P pri pub : list byte) :
  Z.of_nat (BN_num_bytes (pdp_g K)) < 2 ^ 64 ->
  persisted L failing rand K P pri pub ->
  exists rsa rest,
    PEM_read_RSAPublicKey L pub = Some (rsa, rest) /\
    pdp_get_pubkey L no_fault (Some pub)
    = (Some {| pdp_rsa := rsa; pdp_v := []; pdp_g := pdp_g K |}, []).
Proof.
  intros Hgen (Hrc & _ & Hpub).
  destruct (write_pdp_keypair_success L failing rand K P Hrc)
    as (pem & bytes & dk & enc_v & pem2 & _ & _ & _ & _ & Hpem2 & _ & Hpub').
  rewrite Hpub' in Hpub. clear Hpub'.
  apply (f_equal (fun o => match o with Some x => x | None => pub end)) in Hpub.
  cbv beta iota in Hpub. subst pub.
  rewrite <- app_assoc.
  destruct (ok_PEM_public L L_ok _ _
              (le_encode 8 (Z.of_nat (BN_num_bytes (pdp_g K)))
               ++ BN_bn2bin (pdp_g K)) Hpem2) as [rsa' Hread].
  exists rsa', (le_encode 8 (Z.of_nat (BN_num_bytes (pdp_g K)))
                ++ BN_bn2bin (pdp_g K)).
  split; [exact Hread|].
  unfold pdp_get_pubkey. cbn [no_fault]. rewrite Hread.
  rewrite (fread_exact _ _ _ 8 (le_encode_length 8 _)) by reflexivity.
  rewrite le_decode_encode.
  rewrite Z.mod_small by (change (256 ^ Z.of_nat 8) with (2 ^ 64); lia).
  rewrite Nat2Z.id.
  rewrite <- (app_nil_r (BN_bn2bin (pdp_g K))) at 1.
  rewrite (fread_exact _ (BN_bn2bin (pdp_g K)) [] (BN_num_bytes (pdp_g K)))
    by (unfold BN_bn2bin, memset;
        (apply be_encode_length || apply repeat_length)).
  rewrite BN_bin2bn_bn2bin. reflexivity.
Qed.

(** The loader that is handed the passphrase, on what was persisted. *)
Lemma read_pdp_keypair_temp_persisted (failing : fault -> bool)
      (rand : option (list byte)) (K : PDP_key)
      (P pri pub password : list byte) :
  generated_key L K ->
  persisted L failing rand K P pri pub ->
  c_string password = c_string P ->
  (length (c_string password) < 1024)%nat ->
  l_key (read_pdp_keypair_temp L no_fault (Some pri) (Some pub) password)
  = Some K.
Proof.
  intros HK Hw Hpw Hlen. unfold read_pdp_keypair_temp, load_prologue.
  cbn [no_fault]. rewrite (strcpy_password _ Hlen).
  apply (load_with_password_persisted L L_ok failing rand K P); try assumption.
  rewrite c_string_memcpy by apply c_string_nul_free. exact Hpw.
Qed.

(** X9. A key pair stored by [write_pdp_keypair(key, P, keypath)] is found
    by [pdp_get_keypair_temp(keypath, P)], for a passphrase of less than
    1024 characters, which fits the buffer that [read_pdp_keypair_temp]
    copies it to, and a [keypath] whose file names fit the buffers of
    [MAXPATHLEN] bytes: the two functions build the same two file names
    from [keypath], and the key returned is the key that was stored. *)
Theorem pdp_get_keypair_temp_roundtrip (failing : fault -> bool)
        (rand : option (list byte)) (K : PDP_key)
        (fopen : list byte -> option FILE)
        (keypath P password pri pub : list byte) :
  generated_key L K ->
  persisted L failing rand K P pri pub ->
  fopen (fst (write_paths (Some keypath))) = Some pri ->
  fopen (snd (write_paths (Some keypath))) = Some pub ->
  c_string password = c_string P ->
  (length (c_string password) < 1024)%nat ->
  (length (c_string keypath) + 8 < MAXPATHLEN)%nat ->
  g_key (pdp_get_keypair_temp L no_fault fopen keypath password) = Some K.
Proof.
  intros HK Hw Hpri Hpub Hpw Hlen _. cbn [write_paths fst snd] in Hpri, Hpub.
  unfold pdp_get_keypair_temp. cbn [no_fault]. rewrite Hpri, Hpub.
  rewrite (read_pdp_keypair_temp_persisted failing rand K P pri pub password
             HK Hw Hpw Hlen).
  reflexivity.
Qed.

End KeyAccessTheory.

(** X10. [pdp_get_keypair_temp] returns a key only when both key files
    could be opened and [read_pdp_keypair_temp] returned that key from
    them; when a file is missing it returns NULL with a message on the
    error stream, and the loader is not called. *)
Theorem pdp_get_keypair_temp_sound (L : platform) (failing : fault -> bool)
        (fopen : list byte -> option FILE) (keypath password : list byte) :
  let r := pdp_get_keypair_temp L failing fopen keypath password in
  let pri_key := fopen (fst (write_paths (Some keypath))) in
  let pub_key := fopen (snd (write_paths (Some keypath))) in
  (forall K, g_key r = Some K ->
     pri_key <> None /\ pub_key <> None /\
     l_key (read_pdp_keypair_temp L failing pri_key pub_key password)
     = Some K) /\
  (pri_key = None \/ pub_key = None ->
   g_key r = None /\ g_load r = None /\ g_stderr r <> []).
Proof.
  cbv zeta. cbn [write_paths fst snd]. unfold pdp_get_keypair_temp.
  destruct (failing Getpwuid).
  { split.
    - intros K H. discriminate H.
    - intros _. repeat split. discriminate. }
  destruct (fopen (c_string keypath ++ bytes_of_string "/pdp.pri"))
    as [pri|];
    destruct (fopen (c_string keypath ++ bytes_of_string "/pdp.pub"))
      as [pub|].
  - split.
    + intros K.
      destruct (l_key (read_pdp_keypair_temp L failing (Some pri) (Some pub)
                                             password)) as [K'|];
        cbn [g_key]; intros H; [|discriminate H].
      repeat split; (discriminate || exact H).
    + intros [H | H]; discriminate H.
  - split; [intros K H; discriminate H|].
    intros _. repeat split. discriminate.
  - split; [intros K H; discriminate H|].
    intros _. repeat split. discriminate.
  - split; [intros K H; discriminate H|].
    intros _. repeat split. discriminate.
Qed.

Lemma temp_loader_agrees_witness :
  l_key (read_pdp_keypair_temp test_platform no_fault
           (Some test_pri) (Some test_pub)
           (test_passphrase ++ [Byte.x00]))
  = l_key (read_pdp_keypair test_platform no_fault
             (Some (typed test_passphrase)) (Some test_pri) (Some test_pub)).
Proof.
  apply (temp_loader_agrees test_platform no_fault (Some test_pri)
           (Some test_pub) test_passphrase (test_passphrase ++ [Byte.x00])).
  - exact test_passphrase_valid.
  - vm_compute. reflexivity.
Defined.

Lemma pdp_get_pubkey_roundtrip_witness :
  exists rsa rest,
    PEM_read_RSAPublicKey test_platform test_pub = Some (rsa, rest) /\
    pdp_get_pubkey test_platform no_fault (Some test_pub)
    = (Some {| pdp_rsa := rsa; pdp_v := []; pdp_g := pdp_g test_key |}, []).
Proof.
  apply (pdp_get_pubkey_roundtrip test_platform test_platform_ok no_fault
           (Some test_salt) test_key test_passphrase test_pri test_pub).
  - vm_compute. reflexivity.
  - exact test_key_persisted.
Defined.

Lemma pdp_get_keypair_temp_roundtrip_witness :
  g_key (pdp_get_keypair_temp test_platform no_fault test_fopen
           (bytes_of_string "/keys") (test_passphrase ++ [Byte.x00]))
  = Some test_key.
Proof.
  apply (pdp_get_keypair_temp_roundtrip test_platform test_platform_ok
           no_fault (Some test_salt) test_key test_fopen
           (bytes_of_string "/keys") test_passphrase
           (test_passphrase ++ [Byte.x00]) test_pri test_pub).
  - exact test_key_generated.
  - exact test_key_persisted.
  - vm_compute. reflexivity.
  - vm_compute. reflexivity.
  - vm_compute. reflexivity.
  - vm_compute. lia.
  - vm_compute. lia.
Defined.


(** ** Creating a key pair *)

(** A line typed at the prompt, followed by more input. *)
Lemma read_password_loop_line (bufsize : nat) (rest : list tty_event)
      (P : list byte) :
  forall pre post,
    ~ In Byte.x0a P -> (length pre + length P < bufsize)%nat ->
    read_password_loop (typed P ++ rest) (pre ++ post) (length pre) bufsize
    = (true, pre ++ P ++ Byte.x00 :: skipn (S (length P)) post, rest).
Proof.
  unfold typed.
  induction P as [|a P IH]; intros pre post Hnl Hlen.
  - cbn [app map read_password_loop length].
    destruct (Nat.leb_spec bufsize (length pre)); [simpl in Hlen; lia|].
    change (Byte.eqb Byte.x0a Byte.x0a) with true. cbn iota.
    rewrite store_at. reflexivity.
  - cbn [app map read_password_loop length].
    destruct (Nat.leb_spec bufsize (length pre)); [simpl in Hlen; lia|].
    destruct (Byte.eqb a Byte.x0a) eqn:Ea.
    { exfalso. apply Hnl. left. symmetry. apply Byte.byte_dec_bl. exact Ea. }
    rewrite store_at.
    replace (pre ++ a :: skipn 1 post) with ((pre ++ [a]) ++ skipn 1 post)
      by (rewrite <- app_assoc; reflexivity).
    replace (S (length pre)) with (length (pre ++ [a]))
      by (rewrite length_app; simpl; lia).
    rewrite IH.
    + rewrite <- app_assoc. cbn [app]. rewrite skipn_skipn.
      replace (S (length P) + 1)%nat with (S (S (length P))) by lia.
      reflexivity.
    + intros Hin. apply Hnl. right. exact Hin.
    + rewrite length_app. simpl in Hlen |- *. lia.
Qed.

Lemma read_password_line (P buf : list byte) (rest : list tty_event) :
  passphrase_ok P ->
  exists buf',
    read_password (Some (typed P ++ rest)) buf 1024 = (true, buf', Some rest) /\
    c_string buf' = P.
Proof.
  intros (Hnul & Hnl & Hlen). unfold read_password.
  pose proof (read_password_loop_line 1024 rest P [] buf Hnl) as H.
  cbn [app length] in H. rewrite H by (simpl; lia).
  eexists. split; [reflexivity|].
  apply c_string_app_nul. exact Hnul.
Qed.

(** The passphrase typed twice ends the loop of the key creation at its
    first iteration. *)
Lemma passphrase_loop_twice (P : list byte) (fuel : nat) :
  passphrase_ok P ->
  exists buf1 buf2,
    passphrase_loop (S fuel) (Some (typed P ++ typed P))
                    (memset Byte.x00 1024) (memset Byte.x00 1024)
    = Some (true, buf1, buf2) /\
    c_string buf1 = P.
Proof.
  intros HP. cbn [passphrase_loop].
  destruct (read_password_line P (memset Byte.x00 1024) (typed P) HP)
    as (buf1 & -> & H1).
  cbn [negb].
  rewrite <- (app_nil_r (typed P)).
  destruct (read_password_line P (memset Byte.x00 1024) [] HP)
    as (buf2 & -> & H2).
  cbn [negb]. rewrite H1, H2.
  destruct (list_eq_dec Byte.byte_eq_dec P P); [|contradiction].
  exists buf1, buf2. split; [reflexivity | exact H1].
Qed.

(** C7. The passphrase is not zeroed on every failure path of the key
    creation.  When [getpwuid] fails inside [write_pdp_keypair], after it
    has succeeded in [pdp_create_new_keypair], the callee jumps to its
    label [cleanup] and reads [pw->pw_dir] through the NULL [pw]: the
    process stops there, before the [memset] of [password1] in the caller,
    and [password1] still holds the passphrase that was typed, whatever
    the library and the passphrase are. *)
Theorem passphrase_left_on_crash (L : platform) (failing : fault -> bool)
        (keys_exist : bool) (answer : byte) (rand : option (list byte))
        (K : PDP_key) (P : list byte) :
  passphrase_ok P ->
  failing Getpwuid = false ->
  keys_exist && negb (Byte.eqb answer Byte.x79) = false ->
  failing Getpwuid_write = true ->
  exists r,
    pdp_create_new_keypair L failing (Some (typed P ++ typed P)) keys_exist
                           answer (Some K) rand = Some r /\
    c_crashed r = true /\
    c_key r = None /\
    c_string (c_password1 r) = P.
Proof.
  intros HP Hpw Hask Hcrash.
  unfold pdp_create_new_keypair. cbv zeta. rewrite Hpw, Hask.
  unfold passphrase_fuel.
  destruct (passphrase_loop_twice P (length (typed P ++ typed P)) HP)
    as (buf1 & buf2 & -> & Hbuf).
  unfold write_pdp_keypair. rewrite Hcrash. cbn [s_crashed].
  eexists. split; [reflexivity|]. cbn [c_crashed c_key c_password1].
  repeat split. exact Hbuf.
Qed.

Lemma passphrase_left_on_crash_witness :
  exists r,
    pdp_create_new_keypair test_platform getpwuid_write_fails
      (Some (typed test_passphrase ++ typed test_passphrase))
      false Byte.x00 (Some test_key) (Some test_salt) = Some r /\
    c_crashed r = true /\
    c_key r = None /\
    c_string (c_password1 r) = test_passphrase.
Proof.
  apply (passphrase_left_on_crash test_platform getpwuid_write_fails false
           Byte.x00 (Some test_salt) test_key test_passphrase).
  - exact test_passphrase_valid.
  - reflexivity.
  - reflexivity.
  - reflexivity.
Defined.

Lemma write_pdp_keypair_rc (L : platform) (failing : fault -> bool)
      (rand : option (list byte)) (K : PDP_key) (P : list byte) :
  s_rc (write_pdp_keypair L failing rand K P) = 0 \/
  s_rc (write_pdp_keypair L failing rand K P) = 1.
Proof.
  unfold write_pdp_keypair. cbv zeta.
  repeat match goal with
         | |- context [if ?b then _ else _] => destruct b; [left; reflexivity|]
         | |- context [match ?x with Some _ => _ | None => _ end] =>
             destruct x; [|left; reflexivity]
         end.
  right. reflexivity.
Qed.

(** The record under [Some], without computing its fields. *)
Ltac open_some H r :=
  apply (f_equal (fun o => match o with Some x => x | None => r end)) in H;
  cbv beta iota in H; subst r.

(** X11. [pdp_create_new_keypair] writes key files only for a generated key,
    and, when a key pair exists already, only after the answer 'y'; it
    returns a key only when [write_pdp_keypair] has returned 1 for that
    key, and then the two passphrase buffers have been zeroed. *)
Theorem create_returns_stored_key (L : platform) (failing : fault -> bool)
        (term : option (list tty_event)) (keys_exist : bool) (answer : byte)
        (generated : option PDP_key) (rand : option (list byte))
        (r : create_result) :
  pdp_create_new_keypair L failing term keys_exist answer generated rand
  = Some r ->
  (forall st, c_store r = Some st ->
     (keys_exist = true -> answer = Byte.x79) /\
     exists K P, generated = Some K /\
                 st = write_pdp_keypair L failing rand K P) /\
  (forall K, c_key r = Some K ->
     generated = Some K /\
     exists st, c_store r = Some st /\ s_rc st = 1 /\
                zeroed (c_password1 r) /\ zeroed (c_password2 r)).
Proof.
  unfold pdp_create_new_keypair. cbv zeta.
  destruct (failing Getpwuid).
  { intros H. open_some H r. split; intros ? H; discriminate H. }
  destruct (keys_exist && negb (Byte.eqb answer Byte.x79)) eqn:Eask.
  { intros H. open_some H r. split; intros ? H; discriminate H. }
  assert (Hask : keys_exist = true -> answer = Byte.x79).
  { intros ->. cbn [andb] in Eask. apply negb_false_iff in Eask.
    apply Byte.byte_dec_bl. exact Eask. }
  destruct (passphrase_loop _ _ _ _) as [[[ok p1] p2]|]; [|discriminate].
  destruct ok.
  2:{ intros H. open_some H r. split; intros ? H; discriminate H. }
  destruct generated as [K|].
  2:{ intros H. open_some H r. split; intros ? H; discriminate H. }
  destruct (s_crashed (write_pdp_keypair L failing rand K p1)).
  { intros H. open_some H r. cbn [c_store c_key]. split.
    - intros st Hst. injection Hst as <-. split; [exact Hask|]. eauto.
    - intros K' H. discriminate H. }
  destruct (s_rc (write_pdp_keypair L failing rand K p1) =? 0) eqn:Erc;
    intros H; open_some H r; cbn [c_store c_key c_password1 c_password2].
  - split.
    + intros st Hst. injection Hst as <-. split; [exact Hask|]. eauto.
    + intros K' H. discriminate H.
  - split.
    + intros st Hst. injection Hst as <-. split; [exact Hask|]. eauto.
    + intros K' H. injection H as <-. split; [reflexivity|].
      eexists. split; [reflexivity|]. apply Z.eqb_neq in Erc.
      destruct (write_pdp_keypair_rc L failing rand K p1) as [H0 | H1];
        [contradiction|].
      split; [exact H1|]. split; apply zeroed_memset.
Qed.

(** X12. A key pair created by [pdp_create_new_keypair], with the passphrase
    typed twice at the prompts, is loaded again by [read_pdp_keypair] when
    the passphrase is typed once more: the key returned by the creation is
    the generated key, and the loader returns it from the two files that
    the creation has written. *)
Theorem create_then_load (L : platform) (failing : fault -> bool)
        (keys_exist : bool) (answer : byte) (rand : option (list byte))
        (K K' : PDP_key) (P : list byte) (r : create_result) :
  platform_ok L -> generated_key L K -> passphrase_ok P ->
  pdp_create_new_keypair L failing (Some (typed P ++ typed P)) keys_exist
                         answer (Some K) rand = Some r ->
  c_key r = Some K' ->
  K' = K /\
  exists st pri pub,
    c_store r = Some st /\ s_pri st = Some pri /\ s_pub st = Some pub /\
    l_key (read_pdp_keypair L no_fault (Some (typed P)) (Some pri) (Some pub))
    = Some K.
Proof.
  intros HL HK HP Hcreate Hkey.
  unfold pdp_create_new_keypair in Hcreate. cbv zeta in Hcreate.
  destruct (failing Getpwuid).
  { open_some Hcreate r. discriminate Hkey. }
  destruct (keys_exist && negb (Byte.eqb answer Byte.x79)).
  { open_some Hcreate r. discriminate Hkey. }
  unfold passphrase_fuel in Hcreate.
  destruct (passphrase_loop_twice P (length (typed P ++ typed P)) HP)
    as (buf1 & buf2 & Hloop & Hbuf).
  rewrite Hloop in Hcreate.
  destruct (s_crashed (write_pdp_keypair L failing rand K buf1)).
  { open_some Hcreate r. discriminate Hkey. }
  destruct (s_rc (write_pdp_keypair L failing rand K buf1) =? 0) eqn:Erc;
    open_some Hcreate r; [discriminate Hkey|].
  cbn [c_key c_store] in *. injection Hkey as <-.
  split; [reflexivity|].
  apply Z.eqb_neq in Erc.
  destruct (write_pdp_keypair_rc L failing rand K buf1) as [H0 | H1];
    [contradiction|].
  destruct (write_pdp_keypair_success L failing rand K buf1 H1)
    as (pem & bytes & dk & enc_v & pem2 & _ & _ & _ & _ & _ & Hpri & Hpub).
  do 3 eexists. split; [reflexivity|].
  split; [exact Hpri|]. split; [exact Hpub|].
  unfold read_pdp_keypair, load_prologue. cbn [no_fault].
  destruct (read_password_typed P (memset Byte.x00 1024) HP)
    as (buf & rest & -> & Hbuf').
  cbn [negb].
  apply (load_with_password_persisted L HL failing rand K buf1).
  - exact HK.
  - split; [exact H1|]. split; [exact Hpri | exact Hpub].
  - rewrite Hbuf, Hbuf'. reflexivity.
Qed.

Lemma create_returns_stored_key_witness :
  exists r,
    pdp_create_new_keypair test_platform no_fault
      (Some (typed test_passphrase ++ typed test_passphrase)) true Byte.x79
      (Some test_key) (Some test_salt) = Some r /\
    (forall st, c_store r = Some st ->
       (true = true -> Byte.x79 = Byte.x79) /\
       exists K P, Some test_key = Some K /\
                   st = write_pdp_keypair test_platform no_fault
                          (Some test_salt) K P) /\
    (forall K, c_key r = Some K ->
       Some test_key = Some K /\
       exists st, c_store r = Some st /\ s_rc st = 1 /\
                  zeroed (c_password1 r) /\ zeroed (c_password2 r)).
Proof.
  eexists. split; [vm_compute; reflexivity|].
  apply (create_returns_stored_key test_platform no_fault
           (Some (typed test_passphrase ++ typed test_passphrase)) true
           Byte.x79 (Some test_key) (Some test_salt)).
  vm_compute. reflexivity.
Defined.

Lemma create_then_load_witness :
  exists r,
    pdp_create_new_keypair test_platform no_fault
      (Some (typed test_passphrase ++ typed test_passphrase)) false Byte.x00
      (Some test_key) (Some test_salt) = Some r /\
    test_key = test_key /\
    exists st pri pub,
      c_store r = Some st /\ s_pri st = Some pri /\ s_pub st = Some pub /\
      l_key (read_pdp_keypair test_platform no_fault
               (Some (typed test_passphrase)) (Some pri) (Some pub))
      = Some test_key.
Proof.
  eexists. split; [vm_compute; reflexivity|].
  apply (create_then_load test_platform no_fault false Byte.x00
           (Some test_salt) test_key test_key test_passphrase).
  - exact test_platform_ok.
  - exact test_key_generated.
  - exact test_passphrase_valid.
  - vm_compute. reflexivity.
  - vm_compute. reflexivity.
Defined.

Lemma passphrase_loop_more_fuel (fuel : nat) :
  forall term p1 p2 r,
    passphrase_loop fuel term p1 p2 = Some r ->
    passphrase_loop (S fuel) term p1 p2 = Some r.
Proof.
  induction fuel as [|fuel IH]; intros term p1 p2 r H; [discriminate H|].
  cbn [passphrase_loop] in H |- *.
  destruct (read_password term p1 1024) as [[ok1 b1] term1].
  destruct (negb ok1); [exact H|].
  destruct (read_password term1 p2 1024) as [[ok2 b2] term2].
  destruct (negb ok2); [exact H|].
  destruct (list_eq_dec Byte.byte_eq_dec (c_string b1) (c_string b2));
    [exact H|].
  apply IH. exact H.
Qed.

Lemma passphrase_loop_fuel (n fuel : nat) :
  forall term p1 p2 r,
    passphrase_loop fuel term p1 p2 = Some r ->
    passphrase_loop (n + fuel) term p1 p2 = Some r.
Proof.
  induction n as [|n IH]; intros term p1 p2 r H; [exact H|].
  cbn [Nat.add]. apply passphrase_loop_more_fuel. apply IH. exact H.
Qed.

(** X13. Two passphrases that differ are both dropped and the prompts come
    again: the key creation goes on as if the two lines had not been
    typed. *)
Theorem passphrase_mismatch_retries (L : platform) (failing : fault -> bool)
        (P1 P2 : list byte) (rest : list tty_event) (keys_exist : bool)
        (answer : byte) (generated : option PDP_key)
        (rand : option (list byte)) :
  passphrase_ok P1 -> passphrase_ok P2 -> P1 <> P2 ->
  pdp_create_new_keypair L failing (Some (typed P1 ++ typed P2 ++ rest))
                         keys_exist answer generated rand
  = pdp_create_new_keypair L failing (Some rest)
                           keys_exist answer generated rand.
Proof.
  intros H1 H2 Hne. unfold pdp_create_new_keypair. cbv zeta.
  destruct (failing Getpwuid); [reflexivity|].
  destruct (keys_exist && negb (Byte.eqb answer Byte.x79)); [reflexivity|].
  assert (Hloop :
    passphrase_loop (passphrase_fuel (Some (typed P1 ++ typed P2 ++ rest)))
                    (Some (typed P1 ++ typed P2 ++ rest))
                    (memset Byte.x00 1024) (memset Byte.x00 1024)
    = passphrase_loop (passphrase_fuel (Some rest)) (Some rest)
                      (memset Byte.x00 1024) (memset Byte.x00 1024)).
  { destruct (passphrase_loop_total (S (length rest)) rest ltac:(lia))
      as [r Hr].
    unfold passphrase_fuel. rewrite Hr. cbn [passphrase_loop].
    destruct (read_password_line P1 (memset Byte.x00 1024)
                                 (typed P2 ++ rest) H1) as (b1 & -> & Hb1).
    cbn [negb].
    destruct (read_password_line P2 (memset Byte.x00 1024) rest H2)
      as (b2 & -> & Hb2).
    cbn [negb]. rewrite Hb1, Hb2.
    destruct (list_eq_dec Byte.byte_eq_dec P1 P2); [contradiction|].
    replace (length (typed P1 ++ typed P2 ++ rest))
      with ((length (typed P1 ++ typed P2 ++ rest) - S (length rest))
            + S (length rest))%nat
      by (rewrite !length_app; unfold typed; rewrite !length_map, !length_app;
          simpl; lia).
    apply passphrase_loop_fuel. exact Hr. }
  rewrite Hloop. reflexivity.
Qed.

Lemma passphrase_mismatch_retries_witness :
  pdp_create_new_keypair test_platform no_fault
    (Some (typed (bytes_of_string "one") ++ typed (bytes_of_string "two")
             ++ typed test_passphrase ++ typed test_passphrase))
    false Byte.x00 (Some test_key) (Some test_salt)
  = pdp_create_new_keypair test_platform no_fault
      (Some (typed test_passphrase ++ typed test_passphrase))
      false Byte.x00 (Some test_key) (Some test_salt).
Proof.
  apply (passphrase_mismatch_retries test_platform no_fault
           (bytes_of_string "one") (bytes_of_string "two")).
  - apply test_passphrase_ok; [reflexivity | simpl; lia].
  - apply test_passphrase_ok; [reflexivity | simpl; lia].
  - discriminate.
Defined.


(** ** Generating a key pair *)

Lemma BN_mod_inverse_spec (a n r : Z) :
  0 <= n -> BN_mod_inverse a n = Some r ->
  0 < n /\ 0 <= r < n /\ (a * r) mod n = 1 mod n.
Proof.
  intros Hn. unfold BN_mod_inverse.
  destruct (n =? 0) eqn:En; [discriminate|]. apply Z.eqb_neq in En.
  destruct (Z.gcd a n =? 1) eqn:Eg; [|discriminate]. apply Z.eqb_eq in Eg.
  cbn [orb negb]. intros H. injection H as <-.
  split; [lia|]. split.
  - rewrite <- (Z.mod_invmod n a). apply Z.mod_pos_bound. lia.
  - rewrite Z.mul_comm. apply Z.invmod_coprime'. exact Eg.
Qed.

Lemma BN_mod_spec (a m r : Z) :
  0 <= a -> 0 <= m -> BN_mod a m = Some r -> 0 < m /\ r = a mod m.
Proof.
  intros Ha Hm. unfold BN_mod.
  destruct (m =? 0) eqn:Em; [discriminate|]. apply Z.eqb_neq in Em.
  intros H. injection H as <-. split; [lia|].
  apply Z.rem_mod_nonneg; lia.
Qed.

Section KeyGenerationTheory.

Variable L : platform.
Variable failing : fault -> bool.
Variable G : keygen.

(** The RSA key built from two safe primes satisfies the equations of an
    RSA key with Chinese remainder parameters. *)
Lemma safe_prime_rsa_equations (r : RSA) :
  safe_prime_rsa failing G = Some r ->
  exists p q : positive,
    BN_generate_prime G 0 (Z.quot (RSA_KEY_SIZE G) 2) = Some p /\
    BN_generate_prime G 1 (Z.quot (RSA_KEY_SIZE G) 2) = Some q /\
    p <> q /\
    rsa_p r = Z.pos p /\ rsa_q r = Z.pos q /\
    rsa_n r = Z.pos p * Z.pos q /\ rsa_e r = RSA_E G /\
    0 <= rsa_d r < (Z.pos p - 1) * (Z.pos q - 1) /\
    (rsa_e r * rsa_d r) mod ((Z.pos p - 1) * (Z.pos q - 1)) = 1 /\
    rsa_dmp1 r = rsa_d r mod (Z.pos p - 1) /\
    rsa_dmq1 r = rsa_d r mod (Z.pos q - 1) /\
    (rsa_q r * rsa_iqmp r) mod Z.pos p = 1.
Proof.
  unfold safe_prime_rsa.
  destruct (BN_generate_prime G 0 _) as [p|]; [|discriminate].
  destruct (BN_is_prime G (Z.pos p) =? 0); [discriminate|].
  destruct (BN_generate_prime G 1 _) as [q|]; [|discriminate].
  destruct (BN_is_prime G (Z.pos q) =? 0); [discriminate|].
  destruct (Z.pos p =? Z.pos q) eqn:Epq; [discriminate|].
  apply Z.eqb_neq in Epq.
  destruct (failing BN_failure); [discriminate|]. cbv zeta.
  destruct (BN_mod_inverse (RSA_E G) _) as [d|] eqn:Ed; [|discriminate].
  destruct (BN_mod d (Z.pos p - 1)) as [dmp1|] eqn:E1; [|discriminate].
  destruct (BN_mod d (Z.pos q - 1)) as [dmq1|] eqn:E2; [|discriminate].
  destruct (BN_mod_inverse (Z.pos q) (Z.pos p)) as [iqmp|] eqn:Ei;
    [|discriminate].
  intros H. injection H as <-.
  cbn [rsa_n rsa_e rsa_d rsa_p rsa_q rsa_dmp1 rsa_dmq1 rsa_iqmp].
  apply BN_mod_inverse_spec in Ed; [|nia].
  destruct Ed as (Hphi & Hd & Hed).
  apply BN_mod_spec in E1; [|lia|lia]. destruct E1 as [Hp1 ->].
  apply BN_mod_spec in E2; [|lia|lia]. destruct E2 as [Hq1 ->].
  apply BN_mod_inverse_spec in Ei; [|lia]. destruct Ei as (_ & _ & Hi).
  exists p, q. repeat split; try (reflexivity || lia).
  - rewrite Hed. apply Z.mod_small. nia.
  - rewrite Hi. apply Z.mod_small. lia.
Qed.

(** X14. A key returned by [generate_pdp_key] has passed [RSA_check_key],
    carries [PRF_KEY_SIZE] bytes of secret and the generator picked for its
    modulus; when it is built from safe primes, the two primes differ and
    the components of the RSA key satisfy the RSA equations: [n = p q],
    [e d = 1] modulo [(p - 1)(q - 1)], and the three Chinese remainder
    parameters are [d mod (p - 1)], [d mod (q - 1)] and the inverse of [q]
    modulo [p]. *)
Theorem generated_key_equations (K : PDP_key) :
  generate_pdp_key L failing G = Some K ->
  RSA_check_key L (pdp_rsa K) = true /\
  length (pdp_v K) = PRF_KEY_SIZE L /\
  pick_pdp_generator G (rsa_n (pdp_rsa K)) = Some (pdp_g K) /\
  (USE_SAFE_PRIMES G = true ->
   let r := pdp_rsa K in
   exists p q : positive,
     p <> q /\ rsa_p r = Z.pos p /\ rsa_q r = Z.pos q /\
     rsa_n r = Z.pos p * Z.pos q /\ rsa_e r = RSA_E G /\
     0 <= rsa_d r < (Z.pos p - 1) * (Z.pos q - 1) /\
     (rsa_e r * rsa_d r) mod ((Z.pos p - 1) * (Z.pos q - 1)) = 1 /\
     rsa_dmp1 r = rsa_d r mod (Z.pos p - 1) /\
     rsa_dmq1 r = rsa_d r mod (Z.pos q - 1) /\
     (rsa_q r * rsa_iqmp r) mod Z.pos p = 1).
Proof.
  unfold generate_pdp_key.
  destruct (failing Alloc_key); [discriminate|].
  destruct (failing Alloc_buffers); [discriminate|].
  destruct (if USE_SAFE_PRIMES G then safe_prime_rsa failing G
            else RSA_generate_key G (RSA_KEY_SIZE G) (RSA_E G))
    as [rsa|] eqn:Ersa; [|discriminate].
  destruct (RSA_check_key L rsa) eqn:Echeck; [|discriminate]. cbn [negb].
  destruct (RAND_bytes G (PRF_KEY_SIZE L)) as [bytes|]; [|discriminate].
  destruct (pick_pdp_generator G (rsa_n rsa)) as [g|] eqn:Eg; [|discriminate].
  intros H. injection H as <-. cbn [pdp_rsa pdp_v pdp_g].
  split; [exact Echeck|]. split.
  { rewrite memcpy_length; unfold memset; rewrite ?repeat_length;
      rewrite ?length_firstn; lia. }
  split; [exact Eg|].
  intros Hsafe. rewrite Hsafe in Ersa. cbv zeta.
  destruct (safe_prime_rsa_equations rsa Ersa)
    as (p & q & _ & _ & Hpq & Hrest).
  exists p, q. split; assumption.
Qed.

End KeyGenerationTheory.

Lemma generated_key_equations_witness :
  RSA_check_key test_platform (pdp_rsa test_key) = true /\
  length (pdp_v test_key) = PRF_KEY_SIZE test_platform /\
  pick_pdp_generator test_keygen (rsa_n (pdp_rsa test_key))
  = Some (pdp_g test_key) /\
  (USE_SAFE_PRIMES test_keygen = true ->
   let r := pdp_rsa test_key in
   exists p q : positive,
     p <> q /\ rsa_p r = Z.pos p /\ rsa_q r = Z.pos q /\
     rsa_n r = Z.pos p * Z.pos q /\ rsa_e r = RSA_E test_keygen /\
     0 <= rsa_d r < (Z.pos p - 1) * (Z.pos q - 1) /\
     (rsa_e r * rsa_d r) mod ((Z.pos p - 1) * (Z.pos q - 1)) = 1 /\
     rsa_dmp1 r = rsa_d r mod (Z.pos p - 1) /\
     rsa_dmq1 r = rsa_d r mod (Z.pos q - 1) /\
     (rsa_q r * rsa_iqmp r) mod Z.pos p = 1).
Proof.
  apply (generated_key_equations test_platform no_fault test_keygen test_key).
  vm_compute. reflexivity.
Defined.


(** ** The cluster adder: whole runs *)

Module adder_runs.
Import adder.

Section Entries.

Variable w : world.
Variable a : Adder.
Variable password : string.

(** Every entry that the loop adds was tagged just before, by a call that
    did not return 1. *)
Lemma add_entries_tagged :
  forall entries i k root t r,
    add_entries w a password entries i k root = (t, r) ->
    forall j n, In (AddFile j n) t ->
    exists t1 t2 name,
      t = t1 ++ TagFile j name password (tag w name n password)
             :: Log Debug (String.append "ipfsAdder AddFile("
                                         (String.append name ")"))
             :: AddFile j n :: t2 /\
      tag w name n password <> 1 /\ (i <= j)%nat /\
      nth_error entries (j - i) = Some (name, n).
Proof.
  induction entries as [|[name n] rest IH]; intros i k root t r H j n0 Hin.
  - cbn [add_entries] in H. injection H as <- <-. destruct Hin.
  - cbn [add_entries] in H. cbv zeta in H.
    destruct (tag w name n password =? 1) eqn:Etag.
    { injection H as <- <-. destruct Hin as [Hin | [Hin | []]]; discriminate. }
    apply Z.eqb_neq in Etag.
    destruct (ctx_err w a k) as [e|].
    { injection H as <- <-. destruct Hin as [Hin | []]. discriminate. }
    destruct (AddAllAndPin w n) as [c|e].
    + destruct (add_entries w a password rest (S i) (S k) (Some c))
        as [t' r'] eqn:Erest.
      injection H as <- <-.
      destruct Hin as [Hin | [Hin | [Hin | Hin]]]; try discriminate.
      * injection Hin as <- <-. exists [], t', name.
        rewrite Nat.sub_diag. repeat split; (reflexivity || assumption || lia).
      * destruct (IH _ _ _ _ _ Erest _ _ Hin)
          as (t1 & t2 & name' & -> & Hne & Hle & Hnth).
        exists (TagFile i name password (tag w name n password)
                  :: Log Debug (String.append "ipfsAdder AddFile("
                                              (String.append name ")"))
                  :: AddFile i n :: t1), t2, name'.
        repeat split; try (reflexivity || assumption || lia).
        replace (j - i)%nat with (S (j - S i)) by lia. exact Hnth.
    + injection H as <- <-.
      destruct Hin as [Hin | [Hin | [Hin | [Hin | []]]]]; try discriminate.
      injection Hin as <- <-. eexists [], _, name.
      rewrite Nat.sub_diag. repeat split; (reflexivity || assumption || lia).
Qed.

(** A loop that ends without a [return] has tagged and added every entry,
    and leaves the root of the last one. *)
Lemma add_entries_all :
  forall entries i k root t root',
    add_entries w a password entries i k root = (t, inr root') ->
    (forall j name n, nth_error entries j = Some (name, n) ->
       tag w name n password <> 1 /\
       In (TagFile (i + j) name password (tag w name n password)) t /\
       In (AddFile (i + j) n) t) /\
    (entries = [] /\ root' = root \/
     exists pre name n c,
       entries = pre ++ [(name, n)] /\ AddAllAndPin w n = Ok c /\
       root' = Some c).
Proof.
  induction entries as [|[name n] rest IH]; intros i k root t root' H.
  - cbn [add_entries] in H. injection H as <- <-. split.
    + intros j nm n0 Hj. destruct j; discriminate Hj.
    + left. split; reflexivity.
  - cbn [add_entries] in H. cbv zeta in H.
    destruct (tag w name n password =? 1) eqn:Etag; [discriminate H|].
    apply Z.eqb_neq in Etag.
    destruct (ctx_err w a k) as [e|]; [discriminate H|].
    destruct (AddAllAndPin w n) as [c|e] eqn:Eadd; [|discriminate H].
    destruct (add_entries w a password rest (S i) (S k) (Some c))
      as [t' r'] eqn:Erest.
    injection H as <- ->.
    destruct (IH _ _ _ _ _ Erest) as [Hall Hroot]. split.
    + intros j nm n0 Hj. destruct j as [|j].
      * injection Hj as <- <-. rewrite Nat.add_0_r.
        split; [exact Etag|]. split; [left; reflexivity|].
        right; right; left; reflexivity.
      * cbn [nth_error] in Hj. destruct (Hall j nm n0 Hj) as (H1 & H2 & H3).
        replace (i + S j)%nat with (S i + j)%nat by lia.
        split; [exact H1|].
        split; right; right; right; assumption.
    + right. destruct Hroot as [[-> ->] | (pre & nm & n0 & c0 & -> & Hc & ->)].
      * exists [], name, n, c. repeat split. exact Eadd.
      * exists ((name, n) :: pre), nm, n0, c0. repeat split. exact Hc.
Qed.

(** The loop itself makes none of the deferred calls. *)
Lemma add_entries_no_deferred :
  forall entries i k root t r,
    add_entries w a password entries i k root = (t, r) ->
    ~ In CloseOutput t /\ ~ In Cancel t.
Proof.
  induction entries as [|[name n] rest IH]; intros i k root t r H.
  - cbn [add_entries] in H. injection H as <- <-. split; intros [].
  - cbn [add_entries] in H. cbv zeta in H.
    destruct (tag w name n password =? 1).
    { injection H as <- <-. split; intros [H | [H | []]]; discriminate. }
    destruct (ctx_err w a k) as [e|].
    { injection H as <- <-. split; intros [H | []]; discriminate. }
    destruct (AddAllAndPin w n) as [c|e].
    + destruct (add_entries w a password rest (S i) (S k) (Some c))
        as [t' r'] eqn:Erest.
      injection H as <- <-. destruct (IH _ _ _ _ _ Erest) as [H1 H2].
      split; intros [H | [H | [H | H]]]; try discriminate; auto.
    + injection H as <- <-.
      split; intros [H | [H | [H | [H | []]]]]; discriminate.
Qed.

End Entries.

Section Shapes.

Variable w : world.

Lemma setup_no_deferred (a : Adder) :
  ~ In CloseOutput (fst (setup w a)) /\ ~ In Cancel (fst (setup w a)).
Proof.
  unfold setup.
  destruct (NewAdder w); [|destruct (PrefixForCidVersion w _);
                            [|destruct (multihash_Names w _);
                              [destruct (user_Current_ok w)|]]];
    cbn [fst]; split; intros H;
    repeat (destruct H as [H | H]; [discriminate H|]); destruct H.
Qed.

Lemma finalize_no_deferred (root : option cid) :
  ~ In CloseOutput (fst (finalize w root)) /\
  ~ In Cancel (fst (finalize w root)).
Proof.
  unfold finalize. destruct root as [c|]; [destruct (Finalize w c)|];
    cbn [fst]; split; intros H;
    repeat (destruct H as [H | H]; [discriminate H|]); destruct H.
Qed.

(** A run of [FromFiles] that passes the check of the context: the setup,
    the loop over the entries and the finalization, as far as the run
    gets, and then the two deferred calls. *)
Lemma FromFiles_shape (a : Adder) (f : list (string * node)) :
  ctx_err w (setContext a) 0 = None ->
  exists t1 early t2 r t3 out,
    setup w (setContext a) = (t1, early) /\
    add_entries w (setContext a) (read_passphrase w)
                (entries_of (setContext a) f) 0 1 None = (t2, r) /\
    outcome_of (FromFiles w a f) = out /\
    match early with
    | Some o =>
        out = o /\
        trace_of (FromFiles w a f)
        = Log Debug "adding from files" :: t1 ++ [CloseOutput; Cancel]
    | None =>
        trace_of (FromFiles w a f)
        = Log Debug "adding from files" :: t1 ++ t2 ++ t3
                                        ++ [CloseOutput; Cancel] /\
        match r with
        | inl o => t3 = [] /\ out = o
        | inr root =>
            match it_Err w with
            | Some err => t3 = [] /\ out = Return Undef (Some err)
            | None => finalize w root = (t3, out)
            end
        end
    end.
Proof.
  intros Hctx. unfold FromFiles. cbv zeta. rewrite Hctx.
  destruct (setup w (setContext a)) as [t1 early].
  destruct (add_entries w (setContext a) (read_passphrase w)
                        (entries_of (setContext a) f) 0 1 None)
    as [t2 r].
  unfold outcome_of, trace_of, deferred. cbn [fst snd].
  destruct early as [o|].
  - exists t1, (Some o), t2, r, [], o. cbn [fst snd app].
    repeat split; reflexivity.
  - destruct r as [o | root].
    + exists t1, None, t2, (inl o), [], o. cbn [fst snd app].
      rewrite <- !app_assoc. repeat split; reflexivity.
    + destruct (it_Err w) as [err|] eqn:Eit.
      * exists t1, None, t2, (inr root), [], (Return Undef (Some err)).
        cbn [fst snd app]. rewrite <- !app_assoc.
        repeat split; reflexivity.
      * destruct (finalize w root) as [t3 o] eqn:Efin.
        exists t1, None, t2, (inr root), t3, o.
        cbn [fst snd app]. rewrite <- !app_assoc.
        repeat split; try reflexivity. exact Efin.
Qed.

(** The same for [FromFile], which tags and adds the one file. *)
Lemma FromFile_shape (a : Adder) (file : node) (name : string) :
  ctx_err w (setContext a) 0 = None ->
  exists t1 early out,
    setup w (setContext a) = (t1, early) /\
    outcome_of (FromFile w a file name) = out /\
    match early with
    | Some o =>
        out = o /\
        trace_of (FromFile w a file name)
        = Log Debug "add from file" :: t1 ++ [CloseOutput; Cancel]
    | None =>
        let ret := tag w name file (read_passphrase w) in
        let ev := TagFile 0 name (read_passphrase w) ret in
        if ret =? 1
        then
          out = Return Undef (ctx_err w (setContext a) 1) /\
          trace_of (FromFile w a file name)
          = Log Debug "add from file"
              :: t1 ++ [ev; Log Debug (String.append "PDP process Error: " name)]
                 ++ [CloseOutput; Cancel]
        else
          exists t3,
            trace_of (FromFile w a file name)
            = Log Debug "add from file"
                :: t1 ++ [ev;
                          Log Debug (String.append "ipfsAdder AddFile("
                                                   (String.append name ")"));
                          AddFile 0 file]
                   ++ t3 ++ [CloseOutput; Cancel] /\
            match AddAllAndPin w file with
            | Fail e =>
                t3 = [Log Error (String.append "error adding to cluster: "
                                               (error_text e))] /\
                out = Return Undef (Some e)
            | Ok root => finalize w (Some root) = (t3, out)
            end
    end.
Proof.
  intros Hctx. unfold FromFile. cbv zeta. rewrite Hctx.
  destruct (setup w (setContext a)) as [t1 early].
  unfold outcome_of, trace_of, deferred.
  destruct early as [o|].
  - exists t1, (Some o), o. cbn [fst snd app]. repeat split; reflexivity.
  - destruct (tag w name file (read_passphrase w) =? 1) eqn:Etag.
    + eexists t1, None, _. cbn [fst snd app]. rewrite <- !app_assoc.
      repeat split; reflexivity.
    + destruct (AddAllAndPin w file) as [root|e].
      * destruct (finalize w (Some root)) as [t3 o] eqn:Efin.
        exists t1, None, o. cbn [fst snd app]. rewrite <- !app_assoc.
        split; [reflexivity|]. split; [reflexivity|].
        exists t3. split; reflexivity.
      * eexists t1, None, _. cbn [fst snd app]. rewrite <- !app_assoc.
        split; [reflexivity|]. split; [reflexivity|].
        eexists. split; [reflexivity|]. split; reflexivity.
Qed.

End Shapes.

(** X15. An adder is used once: after a run of [FromFiles] or [FromFile]
    whose context reported no error, so that the only cancellation is the
    deferred one of the run itself, every further call on the same adder,
    whatever it is given, returns [(cid.Undef, context.Canceled)] after its
    first log line, and tags and adds nothing. *)
Theorem adder_single_use (w w' : world) (a a1 : Adder)
        (f f' : list (string * node)) (file file' : node)
        (name name' : string) :
  (forall k, ctx_err w (setContext a) k = None) ->
  a1 = snd (FromFiles w a f) \/ a1 = snd (FromFile w a file name) ->
  FromFiles w' a1 f'
  = (Return Undef (Some Canceled), [Log Debug "adding from files"], a1) /\
  FromFile w' a1 file' name'
  = (Return Undef (Some Canceled), [Log Debug "add from file"], a1).
Proof.
  intros Hctx Ha1.
  assert (Hused : ctx_set a1 = true /\ cancelled a1 = true).
  { assert (Hs : ctx_set (setContext a) = true).
    { unfold setContext. destruct (ctx_set a) eqn:E; [exact E | reflexivity]. }
    destruct Ha1 as [-> | ->]; [unfold FromFiles | unfold FromFile];
      cbv zeta; rewrite (Hctx 0%nat); unfold deferred;
      cbn [snd ctx_set cancelled];
      split; (exact Hs || reflexivity). }
  destruct Hused as [Hset Hcan].
  assert (Hsame : setContext a1 = a1).
  { unfold setContext. rewrite Hset. reflexivity. }
  unfold FromFiles, FromFile. cbv zeta. rewrite Hsame.
  unfold ctx_err. rewrite Hcan. split; reflexivity.
Qed.

Lemma entries_of_setContext (a : Adder) (f : list (string * node)) :
  entries_of (setContext a) f = entries_of a f.
Proof. unfold entries_of, setContext. destruct (ctx_set a); reflexivity. Qed.

Lemma refused_run (w : world) (a : Adder) (f : list (string * node))
      (file : node) (name : string) :
  ctx_err w (setContext a) 0 <> None ->
  trace_of (FromFiles w a f) = [Log Debug "adding from files"] /\
  trace_of (FromFile w a file name) = [Log Debug "add from file"].
Proof.
  intros H. unfold FromFiles, FromFile. cbv zeta.
  destruct (ctx_err w (setContext a) 0); [|contradiction].
  split; reflexivity.
Qed.

(** X16. The two deferred calls: a run that passes the check of the context
    closes the output channel and cancels its context exactly once, as the
    last two things it does, however it ends; a run that is refused at the
    check does neither. *)
Theorem output_closed_once (w : world) (a : Adder) (f : list (string * node))
        (file : node) (name : string) :
  (ctx_err w (setContext a) 0 = None ->
   (exists body,
      trace_of (FromFiles w a f) = body ++ [CloseOutput; Cancel] /\
      ~ In CloseOutput body /\ ~ In Cancel body) /\
   (exists body,
      trace_of (FromFile w a file name) = body ++ [CloseOutput; Cancel] /\
      ~ In CloseOutput body /\ ~ In Cancel body)) /\
  (ctx_err w (setContext a) 0 <> None ->
   trace_of (FromFiles w a f) = [Log Debug "adding from files"] /\
   trace_of (FromFile w a file name) = [Log Debug "add from file"]).
Proof.
  split; [|apply refused_run].
  intros Hctx. split.
  - destruct (FromFiles_shape w a f Hctx)
      as (t1 & early & t2 & r & t3 & out & Hsetup & Hloop & _ & Hshape).
    pose proof (setup_no_deferred w (setContext a)) as [Hs1 Hs2].
    rewrite Hsetup in Hs1, Hs2. cbn [fst] in Hs1, Hs2.
    destruct (add_entries_no_deferred w _ _ _ _ _ _ _ _ Hloop) as [Hl1 Hl2].
    destruct early as [o|].
    + destruct Hshape as [_ ->].
      exists (Log Debug "adding from files" :: t1).
      split; [reflexivity|].
      split; intros [H | H]; try discriminate H; auto.
    + destruct Hshape as [-> Hr].
      assert (H3 : ~ In CloseOutput t3 /\ ~ In Cancel t3).
      { destruct r as [o | root]; [destruct Hr as [-> _]; split; intros []|].
        destruct (it_Err w); [destruct Hr as [-> _]; split; intros []|].
        pose proof (finalize_no_deferred w root) as Hf.
        rewrite Hr in Hf. exact Hf. }
      destruct H3 as [H31 H32].
      exists (Log Debug "adding from files" :: t1 ++ t2 ++ t3).
      split; [cbn [app]; rewrite <- !app_assoc; reflexivity|].
      split; intros [H | H]; try discriminate H;
        rewrite !in_app_iff in H; intuition auto.
  - destruct (FromFile_shape w a file name Hctx)
      as (t1 & early & out & Hsetup & _ & Hshape).
    pose proof (setup_no_deferred w (setContext a)) as [Hs1 Hs2].
    rewrite Hsetup in Hs1, Hs2. cbn [fst] in Hs1, Hs2.
    destruct early as [o|].
    + destruct Hshape as [_ ->].
      exists (Log Debug "add from file" :: t1).
      split; [reflexivity|].
      split; intros [H | H]; try discriminate H; auto.
    + cbv zeta in Hshape.
      destruct (tag w name file (read_passphrase w) =? 1).
      * destruct Hshape as [_ ->]. eexists (_ :: t1 ++ [_; _]).
        split; [cbn [app]; rewrite <- !app_assoc; reflexivity|].
        split; intros [H | H]; try discriminate H;
          rewrite in_app_iff in H; destruct H as [H | [H | [H | []]]];
          try discriminate H; auto.
      * destruct Hshape as (t3 & -> & Hr).
        assert (H3 : ~ In CloseOutput t3 /\ ~ In Cancel t3).
        { destruct (AddAllAndPin w file) as [root|e].
          - pose proof (finalize_no_deferred w (Some root)) as Hf.
            rewrite Hr in Hf. exact Hf.
          - destruct Hr as [-> _].
            split; intros [H | []]; discriminate H. }
        destruct H3 as [H31 H32].
        eexists (_ :: t1 ++ [_; _; _] ++ t3).
        split; [cbn [app]; rewrite <- !app_assoc; reflexivity|].
        split; intros [H | H]; try discriminate H;
          rewrite !in_app_iff in H;
          destruct H as [H | [[H | [H | [H | []]]] | H]];
          try discriminate H; auto.
Qed.

Lemma params_setContext (a : Adder) : params (setContext a) = params a.
Proof. unfold setContext. destruct (ctx_set a); reflexivity. Qed.

(** How the setup ends: with a returned error when a check fails, with the
    panic when the checks pass and the user is not found, and otherwise by
    going on. *)
Lemma setup_returns (w : world) (a : Adder) (o : outcome) :
  snd (setup w a) = Some o ->
  (o = Panic /\ accepted w a /\ user_Current_ok w = false) \/
  (exists e, o = Return Undef (Some e)) /\ ~ accepted w a.
Proof.
  unfold setup, accepted.
  destruct (NewAdder w) as [e|].
  { cbn [snd]. intros H. injection H as <-. right.
    split; [eauto | intros (H & _); discriminate H]. }
  destruct (PrefixForCidVersion w _) as [e|].
  { cbn [snd]. intros H. injection H as <-. right.
    split; [eauto | intros (_ & H & _); discriminate H]. }
  destruct (multihash_Names w _) as [code|].
  - destruct (user_Current_ok w); cbn [snd]; intros H; [discriminate H|].
    injection H as <-. left. repeat split. discriminate.
  - cbn [snd]. intros H. injection H as <-. right.
    split; [eauto | intros (_ & _ & H); apply H; reflexivity].
Qed.

Lemma setup_passes (w : world) (a : Adder) :
  snd (setup w a) = None -> accepted w a /\ user_Current_ok w = true.
Proof.
  unfold setup, accepted.
  destruct (NewAdder w) as [e|]; [discriminate|].
  destruct (PrefixForCidVersion w _) as [e|]; [discriminate|].
  destruct (multihash_Names w _) as [code|]; [|discriminate].
  destruct (user_Current_ok w); [|discriminate].
  intros _. repeat split. discriminate.
Qed.

Lemma setup_accepted (w : world) (a : Adder) :
  accepted w a ->
  setup w a
  = if user_Current_ok w
    then ([Log Info (String.append "pdpKeyPath:" (pdpkeyPath w));
           Log Info (String.append "pdpTagPath:" (pdptagPath w));
           Log Info (String.append "pdpPassword:" (read_passphrase w))],
          None)
    else ([], Some Panic).
Proof.
  unfold setup, accepted. intros (-> & -> & Hhash).
  destruct (multihash_Names w _); [reflexivity | contradiction].
Qed.

Lemma add_entries_returns (w : world) (a : Adder) (password : string) :
  forall entries i k root t o,
    add_entries w a password entries i k root = (t, inl o) ->
    exists e, o = Return Undef e.
Proof.
  induction entries as [|[name n] rest IH]; intros i k root t o H.
  - discriminate H.
  - cbn [add_entries] in H. cbv zeta in H.
    destruct (tag w name n password =? 1).
    { injection H as _ <-. eexists; reflexivity. }
    destruct (ctx_err w a k).
    { injection H as _ <-. eexists; reflexivity. }
    destruct (AddAllAndPin w n) as [c|e].
    + destruct (add_entries w a password rest (S i) (S k) (Some c))
        as [t' r'] eqn:Erest.
      injection H as _ ->. exact (IH _ _ _ _ _ Erest).
    + injection H as _ <-. eexists; reflexivity.
Qed.

Lemma finalize_returns (w : world) (root : cid) :
  exists c e, snd (finalize w (Some root)) = Return c e.
Proof.
  unfold finalize. destruct (Finalize w root); cbn [snd]; eauto.
Qed.

(** X17. The two nil dereferences.  [FromFiles] panics exactly when the
    run has passed the check of the context and the checks of the setup,
    and then either [user.Current()] finds no user (the panic of
    [usr.HomeDir]) or there is nothing to iterate over: an empty directory
    that is not wrapped, and an iterator without error (the panic of
    [adderRoot.Cid()]).  [FromFile] panics exactly when the run has passed
    these checks and the user is not found. *)
Theorem panic_exactly_on_nil (w : world) (a : Adder)
        (f : list (string * node)) (file : node) (name : string) :
  (outcome_of (FromFiles w a f) = Panic <->
   ctx_err w (setContext a) 0 = None /\ accepted w a /\
   (user_Current_ok w = false \/
    f = [] /\ Wrap (params a) = false /\ it_Err w = None)) /\
  (outcome_of (FromFile w a file name) = Panic <->
   ctx_err w (setContext a) 0 = None /\ accepted w a /\
   user_Current_ok w = false).
Proof.
  assert (Hacc : accepted w (setContext a) <-> accepted w a).
  { unfold accepted. rewrite params_setContext. reflexivity. }
  split; split.
  - intros Hp.
    destruct (ctx_err w (setContext a) 0) as [e|] eqn:Hctx.
    { unfold FromFiles in Hp. cbv zeta in Hp. rewrite Hctx in Hp.
      discriminate Hp. }
    split; [reflexivity|].
    destruct (FromFiles_shape w a f Hctx)
      as (t1 & early & t2 & r & t3 & out & Hsetup & Hloop & Hout & Hshape).
    rewrite Hp in Hout. subst out.
    destruct early as [o|].
    { destruct Hshape as [<- _].
      destruct (setup_returns w (setContext a) Panic) as [(_ & Ha & Hu) | ([e He] & _)];
        [rewrite Hsetup; reflexivity | | discriminate He].
      split; [apply Hacc; exact Ha | left; exact Hu]. }
    destruct (setup_passes w (setContext a)) as [Ha Hu];
      [rewrite Hsetup; reflexivity|].
    split; [apply Hacc; exact Ha|]. right.
    destruct Hshape as [_ Hr]. destruct r as [o | root].
    { destruct Hr as [_ <-].
      destruct (add_entries_returns w _ _ _ _ _ _ _ _ Hloop) as [e He].
      discriminate He. }
    destruct (it_Err w) as [err|]; [destruct Hr as [_ Hr]; discriminate Hr|].
    destruct (add_entries_all w _ _ _ _ _ _ _ _ Hloop) as [_ Hroot].
    destruct Hroot as [[Hnil ->] | (pre & nm & n & c & _ & _ & ->)].
    + rewrite entries_of_setContext in Hnil. unfold entries_of in Hnil.
      destruct (Wrap (params a)); [discriminate Hnil|]. auto.
    + destruct (finalize_returns w c) as (c' & e' & He).
      rewrite Hr in He. discriminate He.
  - intros (Hctx & Ha & Hcase).
    unfold FromFiles. cbv zeta. rewrite Hctx.
    rewrite (setup_accepted w (setContext a)) by (apply Hacc; exact Ha).
    destruct (user_Current_ok w); [|reflexivity].
    destruct Hcase as [Hu | (-> & Hwrap & Hit)]; [discriminate Hu|].
    rewrite entries_of_setContext. unfold entries_of.
    rewrite Hwrap. cbn [add_entries]. rewrite Hit. reflexivity.
  - intros Hp.
    destruct (ctx_err w (setContext a) 0) as [e|] eqn:Hctx.
    { unfold FromFile in Hp. cbv zeta in Hp. rewrite Hctx in Hp.
      discriminate Hp. }
    split; [reflexivity|].
    destruct (FromFile_shape w a file name Hctx)
      as (t1 & early & out & Hsetup & Hout & Hshape).
    rewrite Hp in Hout. subst out.
    destruct early as [o|].
    { destruct Hshape as [<- _].
      destruct (setup_returns w (setContext a) Panic) as [(_ & Ha & Hu) | ([e He] & _)];
        [rewrite Hsetup; reflexivity | | discriminate He].
      split; [apply Hacc; exact Ha | exact Hu]. }
    exfalso. cbv zeta in Hshape.
    destruct (tag w name file (read_passphrase w) =? 1).
    { destruct Hshape as [H _]. discriminate H. }
    destruct Hshape as (t3 & _ & Hr).
    destruct (AddAllAndPin w file) as [root|e].
    + destruct (finalize_returns w root) as (c' & e' & He).
      rewrite Hr in He. discriminate He.
    + destruct Hr as [_ H]. discriminate H.
  - intros (Hctx & Ha & Hu).
    unfold FromFile. cbv zeta. rewrite Hctx.
    rewrite (setup_accepted w (setContext a)) by (apply Hacc; exact Ha).
    rewrite Hu. reflexivity.
Qed.

(** X18. When the add is finalized, every entry of the directory has been
    tagged by a call that did not return 1 and has been added, and the
    root handed to [Finalize] is the one that [AddAllAndPin] returned for
    the last entry. *)
Theorem finalized_after_all_entries (w : world) (a : Adder)
        (f : list (string * node)) (c : cid) :
  In (Finalized c) (trace_of (FromFiles w a f)) ->
  (forall j name n,
     nth_error (entries_of a f) j = Some (name, n) ->
     tag w name n (read_passphrase w) <> 1 /\
     In (TagFile j name (read_passphrase w)
                 (tag w name n (read_passphrase w)))
        (trace_of (FromFiles w a f)) /\
     In (AddFile j n) (trace_of (FromFiles w a f))) /\
  exists pre name n,
    entries_of a f = pre ++ [(name, n)] /\ AddAllAndPin w n = Ok c.
Proof.
  intros Hfin.
  destruct (ctx_err w (setContext a) 0) as [e|] eqn:Hctx.
  { rewrite (proj1 (refused_run w a f (File "") "" ltac:(congruence))) in Hfin.
    destruct Hfin as [H | []]. discriminate H. }
  destruct (FromFiles_shape w a f Hctx)
    as (t1 & early & t2 & r & t3 & out & Hsetup & Hloop & _ & Hshape).
  pose proof (adder_theory.setup_quiet w (setContext a)) as (_ & _ & Hq).
  rewrite Hsetup in Hq. cbn [fst] in Hq.
  destruct early as [o|].
  { destruct Hshape as [_ Ht]. rewrite Ht in Hfin.
    destruct Hfin as [H | H]; [discriminate H|].
    apply in_app_or in H. destruct H as [H | [H | [H | []]]];
      [destruct (Hq _ H) | discriminate H | discriminate H]. }
  destruct Hshape as [Ht Hr].
  destruct (adder_theory.add_entries_trace w _ _ _ _ _ _ _ _ Hloop)
    as (_ & _ & Hnofin & _).
  assert (H3 : In (Finalized c) t3).
  { rewrite Ht in Hfin. destruct Hfin as [H | H]; [discriminate H|].
    rewrite !in_app_iff in H.
    destruct H as [H | [H | [H | [H | [H | []]]]]];
      [destruct (Hq _ H) | destruct (Hnofin _ H) | exact H
      | discriminate H | discriminate H]. }
  destruct r as [o | root]; [destruct Hr as [-> _]; destruct H3|].
  destruct (it_Err w); [destruct Hr as [-> _]; destruct H3|].
  destruct (add_entries_all w _ _ _ _ _ _ _ _ Hloop) as [Hall Hroot].
  rewrite entries_of_setContext in Hall, Hroot.
  destruct Hroot as [[_ ->] | (pre & nm & n & c0 & Hf & Hadd & ->)].
  { cbn [finalize] in Hr. injection Hr as <- _. destruct H3. }
  assert (c0 = c).
  { unfold finalize in Hr. destruct (Finalize w c0); injection Hr as <- _;
      destruct H3 as [H | [H | []]]; try discriminate H;
      injection H as ->; reflexivity. }
  subst c0. split.
  - intros j name n0 Hj. destruct (Hall j name n0 Hj) as (H1 & H2 & H4).
    cbn [Nat.add] in H2, H4. rewrite Ht.
    split; [exact H1|].
    split; right; rewrite !in_app_iff; auto.
  - exists pre, nm, n. split; assumption.
Qed.

(** X19. Nothing is added that was not tagged: every call of
    [AddAllAndPin] in a run of [FromFiles] or [FromFile] comes right after
    the call of [pdp_tag_file] for the same entry (and the log line that
    announces the add), and that call returned a value other than 1. *)
Theorem tagged_before_added (w : world) (a : Adder)
        (f : list (string * node)) (file : node) (name : string)
        (j : nat) (n : node) :
  (In (AddFile j n) (trace_of (FromFiles w a f)) ->
   exists t1 t2 nm,
     trace_of (FromFiles w a f)
     = t1 ++ TagFile j nm (read_passphrase w) (tag w nm n (read_passphrase w))
          :: Log Debug (String.append "ipfsAdder AddFile("
                                      (String.append nm ")"))
          :: AddFile j n :: t2 /\
     tag w nm n (read_passphrase w) <> 1 /\
     nth_error (entries_of a f) j = Some (nm, n)) /\
  (In (AddFile j n) (trace_of (FromFile w a file name)) ->
   j = 0%nat /\ n = file /\ tag w name file (read_passphrase w) <> 1 /\
   exists t1 t2,
     trace_of (FromFile w a file name)
     = t1 ++ TagFile 0 name (read_passphrase w)
                     (tag w name file (read_passphrase w))
          :: Log Debug (String.append "ipfsAdder AddFile("
                                      (String.append name ")"))
          :: AddFile 0 file :: t2).
Proof.
  split; intros Hin.
  - destruct (ctx_err w (setContext a) 0) as [e|] eqn:Hctx.
    { rewrite (proj1 (refused_run w a f file name ltac:(congruence))) in Hin.
      destruct Hin as [H | []]. discriminate H. }
    destruct (FromFiles_shape w a f Hctx)
      as (t1 & early & t2 & r & t3 & out & Hsetup & Hloop & _ & Hshape).
    pose proof (adder_theory.setup_quiet w (setContext a)) as (_ & Hq & _).
    rewrite Hsetup in Hq. cbn [fst] in Hq.
    destruct early as [o|].
    { destruct Hshape as [_ Ht]. rewrite Ht in Hin.
      destruct Hin as [H | H]; [discriminate H|].
      apply in_app_or in H. destruct H as [H | [H | [H | []]]];
        [destruct (Hq _ _ H) | discriminate H | discriminate H]. }
    destruct Hshape as [Ht Hr].
    assert (H3 : forall j n, ~ In (AddFile j n) t3).
    { destruct r as [o | root]; [destruct Hr as [-> _]; intros ? ? []|].
      destruct (it_Err w); [destruct Hr as [-> _]; intros ? ? []|].
      pose proof (adder_theory.finalize_trace w root) as [_ Hf].
      rewrite Hr in Hf. exact Hf. }
    assert (H2 : In (AddFile j n) t2).
    { rewrite Ht in Hin. destruct Hin as [H | H]; [discriminate H|].
      rewrite !in_app_iff in H.
      destruct H as [H | [H | [H | [H | [H | []]]]]];
        [destruct (Hq _ _ H) | exact H | destruct (H3 _ _ H)
        | discriminate H | discriminate H]. }
    destruct (add_entries_tagged w _ _ _ _ _ _ _ _ Hloop j n H2)
      as (u1 & u2 & nm & -> & Hne & _ & Hnth).
    rewrite Nat.sub_0_r, entries_of_setContext in Hnth.
    exists (Log Debug "adding from files" :: t1 ++ u1),
           (u2 ++ t3 ++ [CloseOutput; Cancel]), nm.
    split; [|split; assumption].
    rewrite Ht. cbn [app]. rewrite <- !app_assoc. reflexivity.
  - destruct (ctx_err w (setContext a) 0) as [e|] eqn:Hctx.
    { rewrite (proj2 (refused_run w a f file name ltac:(congruence))) in Hin.
      destruct Hin as [H | []]. discriminate H. }
    destruct (FromFile_shape w a file name Hctx)
      as (t1 & early & out & Hsetup & _ & Hshape).
    pose proof (adder_theory.setup_quiet w (setContext a)) as (_ & Hq & _).
    rewrite Hsetup in Hq. cbn [fst] in Hq.
    destruct early as [o|].
    { destruct Hshape as [_ Ht]. rewrite Ht in Hin.
      destruct Hin as [H | H]; [discriminate H|].
      apply in_app_or in H. destruct H as [H | [H | [H | []]]];
        [destruct (Hq _ _ H) | discriminate H | discriminate H]. }
    cbv zeta in Hshape.
    destruct (tag w name file (read_passphrase w) =? 1) eqn:Etag.
    { destruct Hshape as [_ Ht]. rewrite Ht in Hin.
      destruct Hin as [H | H]; [discriminate H|].
      rewrite !in_app_iff in H.
      destruct H as [H | [[H | [H | []]] | [H | [H | []]]]];
        try discriminate H. destruct (Hq _ _ H). }
    apply Z.eqb_neq in Etag.
    destruct Hshape as (t3 & Ht & Hr).
    assert (H3 : forall j n, ~ In (AddFile j n) t3).
    { destruct (AddAllAndPin w file) as [root|e].
      - pose proof (adder_theory.finalize_trace w (Some root)) as [_ Hf].
        rewrite Hr in Hf. exact Hf.
      - destruct Hr as [-> _]. intros ? ? [H | []]. discriminate H. }
    assert (Hjn : j = 0%nat /\ n = file).
    { rewrite Ht in Hin. destruct Hin as [H | H]; [discriminate H|].
      rewrite !in_app_iff in H.
      destruct H as [H | [[H | [H | [H | []]]] | [H | [H | [H | []]]]]];
        try discriminate H;
        [destruct (Hq _ _ H) | injection H as <- <-; auto
        | destruct (H3 _ _ H)]. }
    destruct Hjn as [-> ->].
    repeat split; try assumption.
    exists (Log Debug "add from file" :: t1), (t3 ++ [CloseOutput; Cancel]).
    rewrite Ht. reflexivity.
Qed.

(** X20. The add that goes through: in a run that reaches the loop with a
    context that is never cancelled, when every entry is tagged with a
    value other than 1 and added without error and the iterator reports no
    error, [FromFiles] hands the root of the last entry to [Finalize] and
    returns what [Finalize] returns: its CID with a nil error, or
    [cid.Undef] with its error. *)
Theorem add_returns_finalized_root (w : world) (a : Adder)
        (f pre : list (string * node)) (nm : string) (n : node)
        (root : cid) :
  ready w a ->
  entries_of a f = pre ++ [(nm, n)] ->
  (forall e, In e (pre ++ [(nm, n)]) ->
             tag w (fst e) (snd e) (read_passphrase w) <> 1 /\
             exists c, AddAllAndPin w (snd e) = Ok c) ->
  AddAllAndPin w n = Ok root ->
  it_Err w = None ->
  In (Finalized root) (trace_of (FromFiles w a f)) /\
  outcome_of (FromFiles w a f)
  = match Finalize w root with
    | Ok c => Return c None
    | Fail e => Return Undef (Some e)
    end.
Proof.
  intros Hready Hf Hall Hroot Hit.
  destruct (adder_theory.add_entries_through w a Hready (read_passphrase w) []
              (pre ++ [(nm, n)]) 0 1 None Hall) as (t & root' & Hloop).
  rewrite app_nil_r in Hloop. cbn [add_entries fst snd] in Hloop.
  destruct (add_entries_all w _ _ _ _ _ _ _ _ Hloop) as [_ Hlast].
  destruct Hlast as [[Hnil _] | (pre' & nm' & n' & c & Hes & Hc & ->)].
  { destruct pre; discriminate Hnil. }
  apply app_inj_tail in Hes. destruct Hes as [_ Hes].
  injection Hes as <- <-. rewrite Hroot in Hc. injection Hc as <-.
  unfold FromFiles. cbv zeta.
  rewrite (adder_theory.ready_context w a Hready),
    (adder_theory.ready_setup w a Hready),
    (adder_theory.ready_entries a), Hf, Hloop, Hit.
  unfold finalize, outcome_of, trace_of, deferred.
  destruct (Finalize w root) as [c|e]; cbn [fst snd]; split;
    try reflexivity; rewrite !in_app_iff; cbn [In]; auto 10.
Qed.

(** *** The properties on a run *)

Lemma add_returns_finalized_root_witness :
  In (Finalized (Cid "c"))
     (trace_of (FromFiles test_world (New test_params)
                  [("a.txt", File "a"); ("c.txt", File "c")]%string)) /\
  outcome_of (FromFiles test_world (New test_params)
                [("a.txt", File "a"); ("c.txt", File "c")]%string)
  = match Finalize test_world (Cid "c") with
    | Ok c => Return c None
    | Fail e => Return Undef (Some e)
    end.
Proof.
  apply (add_returns_finalized_root test_world (New test_params)
           [("a.txt", File "a"); ("c.txt", File "c")]%string
           [("a.txt", File "a")]%string "c.txt" (File "c") (Cid "c")).
  - exact test_world_ready.
  - reflexivity.
  - intros e [<- | [<- | []]]; (split; [discriminate | eexists; reflexivity]).
  - reflexivity.
  - reflexivity.
Defined.

Lemma adder_single_use_witness :
  FromFiles test_world
            (snd (FromFiles test_world (New test_params)
                            [("a.txt", File "a")]%string))
            [("c.txt", File "c")]%string
  = (Return Undef (Some Canceled), [Log Debug "adding from files"],
     snd (FromFiles test_world (New test_params)
                    [("a.txt", File "a")]%string)) /\
  FromFile test_world
           (snd (FromFiles test_world (New test_params)
                           [("a.txt", File "a")]%string))
           (File "c") "c.txt"
  = (Return Undef (Some Canceled), [Log Debug "add from file"],
     snd (FromFiles test_world (New test_params)
                    [("a.txt", File "a")]%string)).
Proof.
  apply (adder_single_use test_world test_world (New test_params) _
           [("a.txt", File "a")]%string _ (File "a") (File "c")
           "a.txt" "c.txt").
  - intros k. reflexivity.
  - left. reflexivity.
Defined.

Lemma finalized_after_all_entries_witness :
  (forall j name n,
     nth_error (entries_of (New test_params)
                           [("a.txt", File "a"); ("c.txt", File "c")]%string) j
     = Some (name, n) ->
     tag test_world name n (read_passphrase test_world) <> 1 /\
     In (TagFile j name (read_passphrase test_world)
                 (tag test_world name n (read_passphrase test_world)))
        (trace_of (FromFiles test_world (New test_params)
                     [("a.txt", File "a"); ("c.txt", File "c")]%string)) /\
     In (AddFile j n)
        (trace_of (FromFiles test_world (New test_params)
                     [("a.txt", File "a"); ("c.txt", File "c")]%string))) /\
  exists pre name n,
    entries_of (New test_params)
               [("a.txt", File "a"); ("c.txt", File "c")]%string
    = pre ++ [(name, n)] /\
    AddAllAndPin test_world n = Ok (Cid "c").
Proof.
  apply (finalized_after_all_entries test_world (New test_params)
           [("a.txt", File "a"); ("c.txt", File "c")]%string (Cid "c")).
  vm_compute. tauto.
Defined.

Lemma tagged_before_added_witness :
  exists t1 t2 nm,
    trace_of (FromFiles test_world (New test_params)
                [("a.txt", File "a"); ("c.txt", File "c")]%string)
    = t1 ++ TagFile 1 nm (read_passphrase test_world)
                    (tag test_world nm (File "c") (read_passphrase test_world))
         :: Log Debug (String.append "ipfsAdder AddFile("
                                     (String.append nm ")"))
         :: AddFile 1 (File "c") :: t2 /\
    tag test_world nm (File "c") (read_passphrase test_world) <> 1 /\
    nth_error (entries_of (New test_params)
                          [("a.txt", File "a"); ("c.txt", File "c")]%string) 1
    = Some (nm, File "c").
Proof.
  apply (proj1 (tagged_before_added test_world (New test_params)
                  [("a.txt", File "a"); ("c.txt", File "c")]%string
                  (File "c") "c.txt" 1 (File "c"))).
  vm_compute. tauto.
Defined.

End adder_runs.


(** ** The single DAG service *)

Module single_theory.
Import adder single.

Section ServiceTheory.

Variable c : cluster.

(** What every method keeps: the pin options, and a block adder whenever
    destinations are set. *)
Lemma Add_keeps (dgs : DAGService) (n : ipld_Node) :
  wired dgs ->
  exists err t dgs',
    Add c dgs n = (Done err, t, dgs') /\
    wired dgs' /\ pinOpts dgs' = pinOpts dgs /\ local dgs' = local dgs /\
    (forall p, ~ In (PinCall p) t).
Proof.
  intros Hw. unfold Add.
  destruct (dests dgs) as [d|] eqn:Ed.
  - destruct (ba dgs) as [b|] eqn:Eb.
    + do 3 eexists. split; [reflexivity|].
      repeat split; try assumption.
      intros p [H | []]. discriminate H.
    + exfalso. apply Hw; [rewrite Ed; discriminate | exact Eb].
  - destruct (BlockAllocate c (pinOpts dgs)) as [d|e].
    + do 3 eexists. split; [reflexivity|].
      repeat split.
      * intros _. cbn [ba]. discriminate.
      * intros p [H | [H | []]]; discriminate H.
    + do 3 eexists. split; [reflexivity|].
      repeat split; try assumption.
      intros p [H | []]. discriminate H.
Qed.

Lemma AddMany_keeps (nodes : list ipld_Node) :
  forall dgs,
  wired dgs ->
  exists err t dgs',
    AddMany c dgs nodes = (Done err, t, dgs') /\
    wired dgs' /\ pinOpts dgs' = pinOpts dgs /\ local dgs' = local dgs /\
    (forall p, ~ In (PinCall p) t).
Proof.
  induction nodes as [|n rest IH]; intros dgs Hw.
  - exists None, [], dgs. cbn [AddMany]. repeat split; try assumption.
    intros p [].
  - cbn [AddMany].
    destruct (Add_keeps dgs n Hw) as (err & t & dgs1 & -> & Hw1 & Ho1 & Hl1 & Hp1).
    destruct err as [e|].
    + exists (Some e), t, dgs1. repeat split; assumption.
    + destruct (IH dgs1 Hw1) as (err' & t' & dgs2 & -> & Hw2 & Ho2 & Hl2 & Hp2).
      exists err', (t ++ t'), dgs2. split; [reflexivity|].
      repeat split; try congruence; try assumption.
      intros p Hp. apply in_app_or in Hp. destruct Hp as [Hp | Hp];
        [exact (Hp1 p Hp) | exact (Hp2 p Hp)].
Qed.

Lemma calls_keep (l : list call) :
  forall dgs,
  wired dgs ->
  exists t dgs',
    calls c dgs l = Some (t, dgs') /\
    forall p, In (PinCall p) t -> pin_options p = pinOpts dgs.
Proof.
  induction l as [|x l IH]; intros dgs Hw.
  - exists [], dgs. split; [reflexivity | intros p []].
  - cbn [calls]. destruct x as [n | nodes | root].
    + destruct (Add_keeps dgs n Hw) as (err & t & dgs1 & -> & Hw1 & Ho1 & _ & Hp1).
      destruct (IH dgs1 Hw1) as (t' & dgs2 & -> & Hp2).
      do 2 eexists. split; [reflexivity|].
      intros p Hp. apply in_app_or in Hp. destruct Hp as [Hp | Hp];
        [destruct (Hp1 p Hp) | rewrite <- Ho1; exact (Hp2 p Hp)].
    + destruct (AddMany_keeps nodes dgs Hw)
        as (err & t & dgs1 & -> & Hw1 & Ho1 & _ & Hp1).
      destruct (IH dgs1 Hw1) as (t' & dgs2 & -> & Hp2).
      do 2 eexists. split; [reflexivity|].
      intros p Hp. apply in_app_or in Hp. destruct Hp as [Hp | Hp];
        [destruct (Hp1 p Hp) | rewrite <- Ho1; exact (Hp2 p Hp)].
    + unfold Finalize.
      destruct (IH {| dests := None; pinOpts := pinOpts dgs;
                      local := local dgs; ba := ba dgs |})
        as (t' & dgs2 & -> & Hp2).
      { intros H. cbn [dests] in H. contradiction. }
      do 2 eexists. split; [reflexivity|].
      intros p [Hp | Hp]; [injection Hp as <-; reflexivity | exact (Hp2 p Hp)].
Qed.

End ServiceTheory.

(** X21. Whatever sequence of [Add], [AddMany] and [Finalize] calls a client
    makes on a service obtained from [New], no call panics on a nil block
    adder, and every pin sent to the cluster is recursive and carries the
    other options given to [New] unchanged. *)
Theorem service_pins_recursive (c : cluster) (opts : PinOptions) (loc : bool)
        (l : list call) :
  exists t dgs,
    calls c (New opts loc) l = Some (t, dgs) /\
    forall p, In (PinCall p) t ->
              Mode (pin_options p) = PinModeRecursive /\
              other_options (pin_options p) = other_options opts.
Proof.
  destruct (calls_keep c l (New opts loc)) as (t & dgs & Hc & Hp).
  { intros H. cbn [New dests] in H. contradiction. }
  exists t, dgs. split; [exact Hc|].
  intros p Hin. rewrite (Hp p Hin). split; reflexivity.
Qed.

(** X22. [AddMany] over two lists of nodes one after the other: the second
    list is added from the state that the first leaves, and is not looked
    at when a node of the first list has failed. *)
Theorem AddMany_app (c : cluster) (xs ys : list ipld_Node) (dgs : DAGService) :
  AddMany c dgs (xs ++ ys)
  = let '(r, t, dgs1) := AddMany c dgs xs in
    match r with
    | Done None =>
        let '(r', t', dgs2) := AddMany c dgs1 ys in (r', t ++ t', dgs2)
    | _ => (r, t, dgs1)
    end.
Proof.
  revert dgs. induction xs as [|x xs IH]; intros dgs.
  - cbn [app AddMany]. destruct (AddMany c dgs ys) as [[r t] d]. reflexivity.
  - cbn [app AddMany].
    destruct (Add c dgs x) as [[r t] dgs1].
    destruct r as [[e|]|]; try reflexivity.
    rewrite IH.
    destruct (AddMany c dgs1 xs) as [[r1 t1] dgs2].
    destruct r1 as [[e|]|]; try reflexivity.
    destruct (AddMany c dgs2 ys) as [[r2 t2] dgs3].
    rewrite app_assoc. reflexivity.
Qed.

Section Cycle.

Variable c : cluster.

(** Once the destinations are set, the nodes that the block adder accepts
    are put one by one, with no further allocation. *)
Lemma AddMany_allocated (b : option (list peer_ID)) (nodes : list ipld_Node) :
  forall dgs,
    dests dgs <> None -> ba dgs = Some b ->
    (forall n, In n nodes -> BlockAdder_Add c b n = None) ->
    AddMany c dgs nodes = (Done None, map (BlockPut b) nodes, dgs).
Proof.
  induction nodes as [|n rest IH]; intros dgs Hd Hb Hok.
  - reflexivity.
  - cbn [AddMany map]. unfold Add.
    destruct (dests dgs) as [d|] eqn:Ed; [|contradiction].
    rewrite Hb, (Hok n (or_introl eq_refl)).
    rewrite IH; [reflexivity | rewrite Ed; discriminate | exact Hb |].
    intros m Hm. apply Hok. right. exact Hm.
Qed.

End Cycle.

(** X23. One cycle of a new service: when the allocation gives the peers [d]
    and the block adder accepts every node, [AddMany] allocates once and
    then puts the nodes in order, to the local peer alone in local mode and
    to [d] otherwise; [Finalize] then pins the root to [d] in both modes,
    returns the root it was given together with whatever [adder.Pin]
    returns, and clears the destinations. *)
Theorem service_cycle (c : cluster) (opts : PinOptions) (loc : bool)
        (n : ipld_Node) (nodes : list ipld_Node) (root : cid)
        (d : list peer_ID) :
  let opts' := {| Mode := PinModeRecursive;
                  other_options := other_options opts |} in
  let b := if loc then Some [EmptyString] else Some d in
  let pin := {| pin_cid := root; pin_options := opts';
                Allocations := Some d |} in
  BlockAllocate c opts' = Ok (Some d) ->
  (forall m, In m (n :: nodes) -> BlockAdder_Add c b m = None) ->
  exists dgs1 dgs2,
    AddMany c (New opts loc) (n :: nodes)
    = (Done None, Allocate opts' :: map (BlockPut b) (n :: nodes), dgs1) /\
    Finalize c dgs1 root = ((root, Pin_call c pin), [PinCall pin], dgs2) /\
    dests dgs2 = None.
Proof.
  intros opts' b pin Halloc Hok.
  cbn [AddMany]. unfold Add at 1. cbn [New dests pinOpts local].
  fold opts'. rewrite Halloc. fold b.
  rewrite (Hok n (or_introl eq_refl)).
  rewrite (AddMany_allocated c b nodes).
  - do 2 eexists. split; [reflexivity|].
    unfold Finalize. cbn [dests pinOpts]. split; reflexivity.
  - cbn [dests]. discriminate.
  - reflexivity.
  - intros m Hm. apply Hok. right. exact Hm.
Qed.

Lemma service_cycle_witness :
  exists dgs1 dgs2,
    AddMany test_cluster (New test_options true) ["QmA"; "QmB"]%string
    = (Done None,
       [Allocate test_options;
        BlockPut (Some [EmptyString]) "QmA"%string;
        BlockPut (Some [EmptyString]) "QmB"%string], dgs1) /\
    Finalize test_cluster dgs1 (Cid "QmB")
    = ((Cid "QmB", Some (Errorf "pin failed")),
       [PinCall {| pin_cid := Cid "QmB"; pin_options := test_options;
                   Allocations := Some ["peer1"; "peer2"]%string |}], dgs2) /\
    dests dgs2 = None.
Proof.
  apply (service_cycle test_cluster test_options true "QmA"%string
           ["QmB"%string] (Cid "QmB") ["peer1"; "peer2"]%string).
  - reflexivity.
  - intros m _. reflexivity.
Defined.

End single_theory.
